(** * cpp-subprocess: the launch protocol of [subprocess::Popen]

    A shallow embedding of [src/subprocess.hpp]: the option structs, the
    [detail::Streams] descriptor set, [Popen::execute_process] (parent
    side), [detail::Child::execute_child] (child side) and the [util]
    helpers they call, over a small model of the POSIX process state
    (descriptor table, [errno], environment, and a trace of the system
    calls issued). *)

From Stdlib Require Import Ascii String.
From stdpp Require Import gmap strings list fin_maps sorting.

Local Open Scope string_scope.
Local Open Scope Z_scope.
Local Open Scope list_scope.

(** ** C++ exceptions and the ways a call can end *)

Module Cxx.

(** [errno] values the modelled calls can produce, with glibc's
    [strerror] texts. *)
Inductive errno_t :=
| ENONE | ENOENT | EINTR | EIO | EBADF | ECHILD | EAGAIN | EINVAL | EMFILE
| EACCES | EISDIR | EFAULT.

Global Instance errno_eq_dec : EqDecision errno_t.
Proof. solve_decision. Defined.

Definition strerror (e : errno_t) : string :=
  match e with
  | ENONE => "Success"
  | ENOENT => "No such file or directory"
  | EINTR => "Interrupted system call"
  | EIO => "Input/output error"
  | EBADF => "Bad file descriptor"
  | ECHILD => "No child processes"
  | EAGAIN => "Resource temporarily unavailable"
  | EINVAL => "Invalid argument"
  | EMFILE => "Too many open files"
  | EACCES => "Permission denied"
  | EISDIR => "Is a directory"
  | EFAULT => "Bad address"
  end.

(** The exception classes of the header.  Both derive from
    [std::runtime_error]; [StdException] is a plain [std::exception]
    object, which carries no message of its own. *)
Inductive exn :=
| CalledProcessError (what : string)
| OSError (what : string)
| StdException.

(** [OSError(err_msg, err_code)]: the message is
    [err_msg + " : " + std::strerror(err_code)]. *)
Definition mkOSError (err_msg : string) (err_code : errno_t) : exn :=
  OSError (err_msg +:+ " : " +:+ strerror err_code).

Definition is_OSError (e : exn) : bool :=
  match e with OSError _ => true | _ => false end.

(** An open file description, and a slot of the descriptor table
    (the description it refers to and its [FD_CLOEXEC] flag). *)
Inductive ofile :=
| Tty
| RegFile (path : string)
| PipeRd (id : nat)
| PipeWr (id : nat).

Record fdesc := FDesc { fd_file : ofile; fd_cloexec : bool }.

Global Instance ofile_eq_dec : EqDecision ofile.
Proof. solve_decision. Defined.
Global Instance fdesc_eq_dec : EqDecision fdesc.
Proof. solve_decision. Defined.

(** What the new program image sees once [execvp] has succeeded: the
    file searched for, the arguments [execvp] has read, the environment,
    and the descriptors that were not marked close-on-exec. *)
Record image := Image {
  img_file : string;
  img_argv : list string;
  img_environ : gmap string string;
  img_fds : gmap Z fdesc
}.

(** How a call ends without returning a value to its caller. *)
Inductive stop :=
| AssertFailed                    (* [assert] of a false condition *)
| Unexpected (e : exn)            (* [std::unexpected()]: the exception is not
                                     in the function's exception specification *)
| Exited (status : Z)             (* [exit(status)] *)
| Replaced (img : image)          (* [execvp] succeeded *)
| Undefined.                      (* behaviour the language leaves undefined *)

Inductive outcome (A : Type) :=
| Return (a : A)
| Raise (e : exn)
| Stop (s : stop).
Global Arguments Return {A} a.
Global Arguments Raise {A} e.
Global Arguments Stop {A} s.

(** State-and-outcome monad: a computation over a state [S] ends in an
    outcome and always leaves a state behind (what was mutated before a
    [throw] stays mutated). *)
Definition M (S A : Type) : Type := S → outcome A * S.

Global Instance M_ret {S} : MRet (M S) := λ A a s, (Return a, s).

Global Instance M_bind {S} : MBind (M S) := λ A B f m s,
  match m s with
  | (Return a, s') => f a s'
  | (Raise e, s') => (Raise e, s')
  | (Stop x, s') => (Stop x, s')
  end.

Definition get {S} : M S S := λ s, (Return s, s).
Definition gets {S A} (f : S → A) : M S A := λ s, (Return (f s), s).
Definition modify {S} (f : S → S) : M S unit := λ s, (Return (), f s).
Definition throw {S A} (e : exn) : M S A := λ s, (Raise e, s).
Definition halt {S A} (x : stop) : M S A := λ s, (Stop x, s).

(** [if (c) stmt;] *)
Definition when {S} (c : bool) (m : M S unit) : M S unit :=
  if c then m else mret ().

(** [try { body } catch (T& exp) { handler }], where [catches] tells
    whether the handler's type [T] matches the exception. *)
Definition try_catch {S A} (body : M S A) (catches : exn → bool)
    (handler : exn → M S A) : M S A := λ s,
  match body s with
  | (Raise e, s') => if catches e then handler e s' else (Raise e, s')
  | r => r
  end.

(** A dynamic exception specification [throw (T1, T2)] on a function:
    an exception of another type leaving the body calls
    [std::unexpected()], which by default terminates the program. *)
Definition exception_spec {S A} (allowed : exn → bool) (body : M S A) : M S A :=
  λ s,
  match body s with
  | (Raise e, s') => if allowed e then (Raise e, s') else (Stop (Unexpected e), s')
  | r => r
  end.

(** [assert (c)]; [ndebug] tells whether the header was compiled with
    [NDEBUG], which turns every [assert] into nothing. *)
Definition assert {S} (ndebug : bool) (c : bool) : M S unit :=
  if ndebug || c then mret () else halt AssertFailed.

(** The value of an [int] after an arithmetic step (two's complement,
    32 bits). *)
Definition to_int (z : Z) : Z := (z + 2 ^ 31) `mod` 2 ^ 32 - 2 ^ 31.

(** [std::string::c_str()] as a callee reads it: the characters before
    the first NUL. *)
Fixpoint c_str (s : string) : string :=
  match s with
  | EmptyString => EmptyString
  | String c r => if Ascii.eqb c Ascii.zero then EmptyString else String c (c_str r)
  end.

End Cxx.
Export Cxx.

(** ** The POSIX process the code runs in *)

Module Posix.

(** A [FILE] object of stdio: the descriptor it wraps, the [fdopen]
    mode, and the buffering [setvbuf] last installed: the mode, and
    the size of the buffer when the caller has supplied one.  Without
    a buffer of the caller's the library allocates one itself, of a
    size of its own choosing. *)
Inductive bufmode := IOFBF | IOLBF | IONBF.

Record FILE := MkFILE {
  f_fd : Z;
  f_mode : string;
  f_buf : option (bufmode * option Z)    (* [None]: stdio's default *)
}.

(** glibc's [BUFSIZ]. *)
Definition BUFSIZ : Z := 8192.

(** The value of an [int] passed where a [size_t] is expected. *)
Definition to_size_t (z : Z) : Z := z `mod` 2 ^ 64.

Inductive open_flags := O_RDONLY | O_APPEND_CREAT_RDWR.

(** What one [read] on the error pipe returns: some bytes (none at all
    is end of data) or a failure with its [errno]. *)
Inductive read_result :=
| RdData (bytes : list ascii)
| RdFail (e : errno_t).

(** What one [waitpid(pid, &status, WNOHANG)] returns: 0 while the
    child runs, the pid once it has changed state, -1 on failure. *)
Inductive wait_result :=
| WRunning
| WReaped
| WFail (e : errno_t).

Inductive syscall :=
| SysPipe (res rd wr : Z)
| SysFcntlGetfd (fd res : Z)
| SysFcntlSetfd (fd flags res : Z)
| SysOpen (path : string) (flags : open_flags) (res : Z)
| SysClose (fd res : Z)
| SysDup (fd res : Z)
| SysDup2 (fd to_fd res : Z)
| SysFork (res : Z)
| SysRead (fd : Z) (count : nat) (res : Z)
| SysWriteFd (fd : Z) (data : string) (res : Z)
| SysWaitpid (pid res : Z)
| SysSysconfOpenMax (res : Z)
| SysChdir (path : string) (res : Z)
| SysSetenv (name value : string) (res : Z)
| SysExecvp (file : string) (argv : list (option string))
| SysFdopen (fd : Z) (mode : string) (res : option nat)
| SysSetvbuf (stream : nat) (buf : option nat) (mode : bufmode) (size : Z)
| SysFclose (stream : nat) (fd res : Z).

(** What does not change while the code runs: the descriptor limit,
    what [sysconf(_SC_OPEN_MAX)] answers, which paths can be opened
    for reading, opened or created for appending, entered as a
    directory, or found by [execvp], the [errno] of an [open] that
    fails ([ENOENT] for a path without an entry), and what lies in
    memory behind the last element of an argument vector: the strings
    found there before a null pointer, or [None] when reading there
    faults. *)
Record host := Host {
  rlimit_nofile : nat;
  sc_open_max : Z;
  readable : gset string;
  appendable : gset string;
  directories : gset string;
  programs : gset string;
  open_errno : gmap string errno_t;
  past_argv : option (list string)
}.

(** The state of one process.  [p_fork], [p_reads] and [p_waits] are
    the answers the kernel will give to the coming [fork], [read] (on
    the error pipe) and [waitpid] calls, in order. *)
Record proc := Proc {
  p_host : host;
  p_fds : gmap Z fdesc;
  p_errno : errno_t;
  p_environ : gmap string string;
  p_cwd : string;
  p_npipes : nat;
  p_files : gmap nat FILE;
  p_fork : list Z;
  p_reads : list read_result;
  p_waits : list wait_result;
  p_trace : list syscall
}.

Definition set_fds (f : gmap Z fdesc → gmap Z fdesc) (p : proc) : proc :=
  Proc (p_host p) (f (p_fds p)) (p_errno p) (p_environ p) (p_cwd p) (p_npipes p)
       (p_files p) (p_fork p) (p_reads p) (p_waits p) (p_trace p).
Definition set_errno (e : errno_t) (p : proc) : proc :=
  Proc (p_host p) (p_fds p) e (p_environ p) (p_cwd p) (p_npipes p)
       (p_files p) (p_fork p) (p_reads p) (p_waits p) (p_trace p).
Definition set_environ (f : gmap string string → gmap string string) (p : proc) : proc :=
  Proc (p_host p) (p_fds p) (p_errno p) (f (p_environ p)) (p_cwd p) (p_npipes p)
       (p_files p) (p_fork p) (p_reads p) (p_waits p) (p_trace p).
Definition set_cwd (d : string) (p : proc) : proc :=
  Proc (p_host p) (p_fds p) (p_errno p) (p_environ p) d (p_npipes p)
       (p_files p) (p_fork p) (p_reads p) (p_waits p) (p_trace p).
Definition set_npipes (n : nat) (p : proc) : proc :=
  Proc (p_host p) (p_fds p) (p_errno p) (p_environ p) (p_cwd p) n
       (p_files p) (p_fork p) (p_reads p) (p_waits p) (p_trace p).
Definition set_files (f : gmap nat FILE → gmap nat FILE) (p : proc) : proc :=
  Proc (p_host p) (p_fds p) (p_errno p) (p_environ p) (p_cwd p) (p_npipes p)
       (f (p_files p)) (p_fork p) (p_reads p) (p_waits p) (p_trace p).
Definition set_fork (l : list Z) (p : proc) : proc :=
  Proc (p_host p) (p_fds p) (p_errno p) (p_environ p) (p_cwd p) (p_npipes p)
       (p_files p) l (p_reads p) (p_waits p) (p_trace p).
Definition set_reads (l : list read_result) (p : proc) : proc :=
  Proc (p_host p) (p_fds p) (p_errno p) (p_environ p) (p_cwd p) (p_npipes p)
       (p_files p) (p_fork p) l (p_waits p) (p_trace p).
Definition set_waits (l : list wait_result) (p : proc) : proc :=
  Proc (p_host p) (p_fds p) (p_errno p) (p_environ p) (p_cwd p) (p_npipes p)
       (p_files p) (p_fork p) (p_reads p) l (p_trace p).
Definition emit (e : syscall) (p : proc) : proc :=
  Proc (p_host p) (p_fds p) (p_errno p) (p_environ p) (p_cwd p) (p_npipes p)
       (p_files p) (p_fork p) (p_reads p) (p_waits p) (p_trace p ++ [e]).

Abbreviation Sys := (M proc).

(** The lowest descriptor number not in use, below the limit. *)
Definition lowest_free (t : gmap Z fdesc) (limit : nat) : option Z :=
  Z.of_nat <$> List.find (λ n, bool_decide (t !! Z.of_nat n = None)) (seq 0 limit).

(** A system call that fails: [errno] is set, the event logged, and
    [res] returned. *)
Definition fails {A} (e : errno_t) (ev : syscall) (res : A) : Sys A := λ p,
  (Return res, emit ev (set_errno e p)).

Definition sys_close (fd : Z) : Sys Z := λ p,
  match p_fds p !! fd with
  | Some _ => (Return 0, emit (SysClose fd 0) (set_fds (delete fd) p))
  | None => fails EBADF (SysClose fd (-1)) (-1) p
  end.

Definition sys_dup (fd : Z) : Sys Z := λ p,
  match p_fds p !! fd with
  | Some d =>
      match lowest_free (p_fds p) (rlimit_nofile (p_host p)) with
      | Some n => (Return n, emit (SysDup fd n)
                               (set_fds <[n := FDesc (fd_file d) false]> p))
      | None => fails EMFILE (SysDup fd (-1)) (-1) p
      end
  | None => fails EBADF (SysDup fd (-1)) (-1) p
  end.

Definition sys_dup2 (fd to_fd : Z) : Sys Z := λ p,
  match p_fds p !! fd with
  | Some d =>
      if bool_decide (0 ≤ to_fd < Z.of_nat (rlimit_nofile (p_host p))) then
        if bool_decide (fd = to_fd) then (Return to_fd, emit (SysDup2 fd to_fd to_fd) p)
        else (Return to_fd, emit (SysDup2 fd to_fd to_fd)
                              (set_fds <[to_fd := FDesc (fd_file d) false]> p))
      else fails EBADF (SysDup2 fd to_fd (-1)) (-1) p
  | None => fails EBADF (SysDup2 fd to_fd (-1)) (-1) p
  end.

(** [pipe(fds)]: result, read end, write end. *)
Definition sys_pipe : Sys (Z * Z * Z) := λ p,
  let limit := rlimit_nofile (p_host p) in
  match lowest_free (p_fds p) limit with
  | Some rd =>
      let t := <[rd := FDesc (PipeRd (p_npipes p)) false]> (p_fds p) in
      match lowest_free t limit with
      | Some wr =>
          (Return (0, rd, wr),
           emit (SysPipe 0 rd wr)
             (set_npipes (S (p_npipes p))
                (set_fds (λ _, <[wr := FDesc (PipeWr (p_npipes p)) false]> t) p)))
      | None => fails EMFILE (SysPipe (-1) 0 0) (-1, 0, 0) p
      end
  | None => fails EMFILE (SysPipe (-1) 0 0) (-1, 0, 0) p
  end.

(** [FD_CLOEXEC] is bit 0 of the descriptor flags. *)
Definition FD_CLOEXEC : Z := 1.

Definition sys_fcntl_getfd (fd : Z) : Sys Z := λ p,
  match p_fds p !! fd with
  | Some d =>
      let flags := if fd_cloexec d then FD_CLOEXEC else 0 in
      (Return flags, emit (SysFcntlGetfd fd flags) p)
  | None => fails EBADF (SysFcntlGetfd fd (-1)) (-1) p
  end.

Definition sys_fcntl_setfd (fd flags : Z) : Sys Z := λ p,
  match p_fds p !! fd with
  | Some d =>
      (Return 0, emit (SysFcntlSetfd fd flags 0)
                   (set_fds <[fd := FDesc (fd_file d) (Z.testbit flags 0)]> p))
  | None => fails EBADF (SysFcntlSetfd fd flags (-1)) (-1) p
  end.

Definition sys_open (path : string) (flags : open_flags) : Sys Z := λ p,
  let ok := match flags with
            | O_RDONLY => bool_decide (path ∈ readable (p_host p))
            | O_APPEND_CREAT_RDWR => bool_decide (path ∈ appendable (p_host p))
            end in
  if ok then
    match lowest_free (p_fds p) (rlimit_nofile (p_host p)) with
    | Some n => (Return n, emit (SysOpen path flags n)
                             (set_fds <[n := FDesc (RegFile path) false]> p))
    | None => fails EMFILE (SysOpen path flags (-1)) (-1) p
    end
  else fails (default ENOENT (open_errno (p_host p) !! path))
         (SysOpen path flags (-1)) (-1) p.

Definition sys_fork : Sys Z := λ p,
  match p_fork p with
  | r :: rest =>
      let p' := set_fork rest p in
      if bool_decide (r < 0) then fails EAGAIN (SysFork r) r p'
      else (Return r, emit (SysFork r) p')
  | [] => fails EAGAIN (SysFork (-1)) (-1) p
  end.

(** [write(fd, buf, length)]: a short message is taken whole. *)
Definition sys_write (fd : Z) (data : string) : Sys Z := λ p,
  match p_fds p !! fd with
  | Some _ => let n := Z.of_nat (String.length data) in
              (Return n, emit (SysWriteFd fd data n) p)
  | None => fails EBADF (SysWriteFd fd data (-1)) (-1) p
  end.

(** [sysconf(_SC_OPEN_MAX)]: -1 stands for a limit that is not
    determined, and leaves [errno] as it was. *)
Definition sys_sysconf_open_max : Sys Z := λ p,
  let r := sc_open_max (p_host p) in
  (Return r, emit (SysSysconfOpenMax r) p).

Definition sys_chdir (path : string) : Sys Z := λ p,
  if bool_decide (path ∈ directories (p_host p))
  then (Return 0, emit (SysChdir path 0) (set_cwd path p))
  else fails ENOENT (SysChdir path (-1)) (-1) p.

(** A name [setenv] accepts: not empty and without ['=']. *)
Fixpoint has_char (c : ascii) (s : string) : bool :=
  match s with
  | EmptyString => false
  | String a r => Ascii.eqb a c || has_char c r
  end.

Definition env_name_ok (name : string) : bool :=
  negb (String.eqb name "") && negb (has_char "="%char name).

Definition sys_setenv (name value : string) (overwrite : bool) : Sys Z := λ p,
  if env_name_ok name then
    if overwrite || bool_decide (p_environ p !! name = None)
    then (Return 0, emit (SysSetenv name value 0) (set_environ <[name := value]> p))
    else (Return 0, emit (SysSetenv name value 0) p)
  else fails EINVAL (SysSetenv name value (-1)) (-1) p.

(** The arguments [execvp] reads from a vector: the strings before the
    first null pointer.  A vector without one is read past its last
    element, into [past]. *)
Fixpoint until_null (argv : list (option string)) (past : option (list string))
    : option (list string) :=
  match argv with
  | [] => past
  | None :: _ => Some []
  | Some arg :: argv' => cons arg <$> until_null argv' past
  end.

(** [execvp(file, argv)], with [argv] the elements of the vector the
    caller passes: on success the process continues as the new image,
    with the arguments read, the current environment and the
    descriptors not marked close-on-exec. *)
Definition sys_execvp (file : string) (argv : list (option string)) : Sys Z := λ p,
  if bool_decide (file ∈ programs (p_host p)) then
    match until_null argv (past_argv (p_host p)) with
    | Some args =>
        (Stop (Replaced (Image file args (p_environ p)
                           (filter (λ kv, fd_cloexec kv.2 = false) (p_fds p)))),
         emit (SysExecvp file argv) p)
    | None => fails EFAULT (SysExecvp file argv) (-1) p
    end
  else fails ENOENT (SysExecvp file argv) (-1) p.

Definition sys_exit {A} (status : Z) : Sys A := halt (Exited status).

(** [fdopen(fd, mode)]: a fresh [FILE], or the null pointer. *)
Definition sys_fdopen (fd : Z) (mode : string) : Sys (option nat) := λ p,
  match p_fds p !! fd with
  | Some _ =>
      let a := fresh (dom (p_files p)) in
      (Return (Some a), emit (SysFdopen fd mode (Some a))
                          (set_files <[a := MkFILE fd mode None]> p))
  | None => fails EBADF (SysFdopen fd mode None) None p
  end.

(** [setvbuf(stream, buf, mode, size)]: [size] is the size of the
    caller's buffer [buf]; with a null [buf] the library allocates the
    buffer itself and, as glibc does, takes no account of [size].  A
    [stream] that is not the address of a [FILE] is undefined. *)
Definition sys_setvbuf (stream : nat) (buf : option nat) (mode : bufmode) (size : Z)
    : Sys Z := λ p,
  match p_files p !! stream with
  | Some f =>
      let installed := (mode, match buf with Some _ => Some size | None => None end) in
      (Return 0, emit (SysSetvbuf stream buf mode size)
                   (set_files <[stream := MkFILE (f_fd f) (f_mode f) (Some installed)]> p))
  | None => (Stop Undefined, p)
  end.

(** [fclose(stream)]: the [FILE] is destroyed and the descriptor it
    wraps is closed.  A null pointer, or one that is not the address of
    a [FILE], is undefined. *)
Definition sys_fclose (stream : option nat) : Sys Z := λ p,
  match stream with
  | Some a =>
      match p_files p !! a with
      | Some f =>
          let p' := set_files (delete a) p in
          match p_fds p !! f_fd f with
          | Some _ => (Return 0, emit (SysFclose a (f_fd f) 0)
                                   (set_fds (delete (f_fd f)) p'))
          | None => fails EBADF (SysFclose a (f_fd f) (-1)) (-1) p'
          end
      | None => (Stop Undefined, p)
      end
  | None => (Stop Undefined, p)
  end.

End Posix.
Export Posix.

(** ** The header *)

Module subprocess.

(** Methods run over the object they belong to and the process. *)
Abbreviation Obj O := (M (O * proc)).

Definition sys {O A} (m : Sys A) : Obj O A := λ '(o, p),
  let '(r, p') := m p in (r, (o, p')).
Definition this {O} : Obj O O := gets fst.
Definition update {O} (f : O → O) : Obj O unit := modify (λ '(o, p), (f o, p)).
(** A method of a member object. *)
Definition within {O I A} (member : O → I) (set_member : I → O → O)
    (m : Obj I A) : Obj O A := λ '(o, p),
  let '(r, (i, p')) := m (member o, p) in (r, (set_member i o, p')).
Definition errno {O} : Obj O errno_t := sys (gets p_errno).

(** A range-based [for] over a list. *)
Fixpoint for_each {S A} (l : list A) (body : A → M S unit) : M S unit :=
  match l with
  | [] => mret ()
  | x :: l' => body x;; for_each l' body
  end.

Definition SP_MAX_ERR_BUF_SIZ : nat := 1024.

(** The [std::string] members [split] and [join] call.
    [str.find_first_of(delims, pos)]: the index of the first character
    at or after [pos] that occurs in [delims]; [None] is [npos]. *)
Fixpoint find_first_of (str delims : string) (pos : nat) : option nat :=
  match str with
  | EmptyString => None
  | String c r =>
      match pos with
      | O => if has_char c delims then Some O else S <$> find_first_of r delims O
      | S pos' => S <$> find_first_of r delims pos'
      end
  end.

(** [str.substr(pos, n)]: at most [n] characters from [pos] on; a
    [pos] beyond the length throws [std::out_of_range], here [None]. *)
Definition substr (str : string) (pos n : nat) : option string :=
  if bool_decide (pos ≤ String.length str)%nat then Some (substring pos n str)
  else None.

(** [res.erase(--res.end())]: the last character is removed; on an
    empty string the iterator is decremented past the beginning, which
    is undefined, here [None]. *)
Fixpoint erase_last (res : string) : option string :=
  match res with
  | EmptyString => None
  | String c EmptyString => Some EmptyString
  | String c r => String c <$> erase_last r
  end.

Module util.

(** The [while (true)] loop of [split]; [None] when a [substr] throws
    or the loop is not over after [passes] passes. *)
Fixpoint split_loop (passes : nat) (str delims : string) (init : nat)
      (res : list string) : option (list string) :=
    match passes with
    | O => None
    | S passes' =>
        match find_first_of str delims init with
        | None =>
            tok ← substr str init (String.length str);
            Some (res ++ [tok])
        | Some pos =>
            tok ← substr str init (pos - init);
            split_loop passes' str delims (S pos) (res ++ [tok])
        end
    end.

(** Every pass but the last moves [init] past one more character. *)
Definition split (str delims : string) : option (list string) :=
    split_loop (S (String.length str)) str delims 0 [].

(** The default arguments: [delims = " \t"] (a blank and a tab) and
    [sep = " "]. *)
Definition split_delims : string := String " "%char (String "009"%char EmptyString).
Definition join_sep : string := " ".

Definition join (vec : list string) (sep : string) : option string :=
    let res := foldl (λ res elem, res +:+ (elem +:+ sep)) "" vec in
    erase_last res.

Definition set_clo_on_exec (fd : Z) (set : bool) : Sys unit :=
    flags ← sys_fcntl_getfd fd;
    let flags := if set then Z.lor flags FD_CLOEXEC
                 else Z.land flags (Z.lnot FD_CLOEXEC) in
    sys_fcntl_setfd fd flags;;
    mret ().

Definition pipe_cloexec : Sys (Z * Z) :=
    '(res, rd, wr) ← sys_pipe;
    if bool_decide (res ≠ 0) then
      e ← gets p_errno; throw (mkOSError "pipe failure" e)
    else
      set_clo_on_exec rd true;;
      set_clo_on_exec wr true;;
      mret (rd, wr).

  (** The [while (nwritten < length)] loop; every pass writes at least
      one byte, so [len] passes are always enough. *)
Fixpoint write_n_loop (passes : nat) (fd : Z) (buf : string) (len : nat)
      (nwritten : Z) : Sys Z :=
    if bool_decide (nwritten < Z.of_nat len) then
      match passes with
      | O => mret nwritten
      | S passes' =>
          written ← sys_write fd (substring (Z.to_nat nwritten)
                                    (len - Z.to_nat nwritten) buf);
          if bool_decide (written = -1) then mret (-1)
          else write_n_loop passes' fd buf len (to_int (nwritten + written))
      end
    else mret nwritten.

Definition write_n (fd : Z) (buf : string) (len : nat) : Sys Z :=
    write_n_loop len fd buf len 0.

  (** One [read(fd, buf, read_upto)]: the bytes land at the start of
      [buf]. *)
Definition sys_read (r : read_result) (fd : Z) (buf : list ascii)
      (read_upto : nat) : Sys (Z * list ascii) := λ p,
    match p_fds p !! fd with
    | Some _ =>
        match r with
        | RdData bytes =>
            let got := take read_upto bytes in
            let n := Z.of_nat (List.length got) in
            (Return (n, got ++ drop (List.length got) buf), emit (SysRead fd read_upto n) p)
        | RdFail e => fails e (SysRead fd read_upto (-1)) (-1, buf) p
        end
    | None => fails EBADF (SysRead fd read_upto (-1)) (-1, buf) p
    end.

  (** The [while (1)] loop of [read_atmost_n], over the answers the
      coming [read] calls get; after the last one the pipe is at end of
      data. *)
Fixpoint read_atmost_n_loop (answers : list read_result) (fd : Z)
      (buf : list ascii) (read_upto : nat) (rbytes eintr_cnter : Z)
      : Sys (Z * list ascii) :=
    match answers with
    | [] =>
        '(read_bytes, buf) ← sys_read (RdData []) fd buf read_upto;
        if bool_decide (read_bytes = -1) then mret (-1, buf) else mret (rbytes, buf)
    | r :: answers' =>
        modify (set_reads answers');;
        '(read_bytes, buf) ← sys_read r fd buf read_upto;
        if bool_decide (read_bytes = -1) then
          e ← gets p_errno;
          if bool_decide (e = EINTR) then
            if bool_decide (50 ≤ eintr_cnter) then mret (-1, buf)
            else read_atmost_n_loop answers' fd buf read_upto rbytes
                   (to_int (eintr_cnter + 1))
          else mret (-1, buf)
        else if bool_decide (read_bytes = 0) then mret (rbytes, buf)
        else read_atmost_n_loop answers' fd buf read_upto
               (to_int (rbytes + read_bytes)) eintr_cnter
    end.

Definition read_atmost_n (fd : Z) (buf : list ascii) (read_upto : nat)
      : Sys (Z * list ascii) :=
    answers ← gets p_reads;
    read_atmost_n_loop answers fd buf read_upto 0 0.

Definition sys_waitpid (w : wait_result) (pid : Z) : Sys Z :=
    match w with
    | WRunning => λ p, (Return 0, emit (SysWaitpid pid 0) p)
    | WReaped => λ p, (Return pid, emit (SysWaitpid pid pid) p)
    | WFail e => fails e (SysWaitpid pid (-1)) (-1)
    end.

  (** The [while (1)] loop of [wait_for_child_exit], over the answers
      the coming [waitpid] calls get; with none left there is no child
      to wait for. *)
Fixpoint wait_for_child_exit_loop (answers : list wait_result) (pid : Z) : Sys Z :=
    match answers with
    | [] =>
        ret ← sys_waitpid (WFail ECHILD) pid;
        mret ret
    | w :: answers' =>
        modify (set_waits answers');;
        ret ← sys_waitpid w pid;
        if bool_decide (ret = -1) then mret ret
        else if bool_decide (ret = 0) then wait_for_child_exit_loop answers' pid
        else mret pid
    end.

Definition wait_for_child_exit (pid : Z) : Sys Z :=
    answers ← gets p_waits;
    wait_for_child_exit_loop answers pid.

End util.

(** *** Popen arguments *)

Inductive IOTYPE := STDIN | STDOUT | STDERR | PIPE.

Global Instance IOTYPE_eq_dec : EqDecision IOTYPE.
Proof. solve_decision. Defined.

(** [struct input], [struct output] and [struct error] have the same
    two members, both initialised to -1. *)
Record channel := Channel { rd_ch_ : Z; wr_ch_ : Z }.

Definition input := channel.
Definition output := channel.
Definition error := channel.


(** [input(const char* filename)] *)
Definition input_file (filename : string) : Sys input :=
  fd ← sys_open (c_str filename) O_RDONLY;
  if bool_decide (fd = -1) then
    e ← gets p_errno; throw (mkOSError "File not found: " e)
  else mret (Channel fd (-1)).

(** [input(IOTYPE typ)] *)
Definition input_pipe (ndebug : bool) (typ : IOTYPE) : Sys input :=
  assert ndebug (bool_decide (typ = PIPE));;
  '(rd, wr) ← util.pipe_cloexec;
  mret (Channel rd wr).


(** [output(const char* filename)] *)
Definition output_file (filename : string) : Sys output :=
  fd ← sys_open (c_str filename) O_APPEND_CREAT_RDWR;
  if bool_decide (fd = -1) then
    e ← gets p_errno; throw (mkOSError "File not found: " e)
  else mret (Channel (-1) fd).

(** [output(IOTYPE typ)] *)
Definition output_pipe (ndebug : bool) (typ : IOTYPE) : Sys output :=
  assert ndebug (bool_decide (typ = PIPE));;
  '(rd, wr) ← util.pipe_cloexec;
  mret (Channel rd wr).


(** [error(const char* filename)] *)
Definition error_file (filename : string) : Sys error :=
  fd ← sys_open (c_str filename) O_APPEND_CREAT_RDWR;
  if bool_decide (fd = -1) then
    e ← gets p_errno; throw (mkOSError "File not found: " e)
  else mret (Channel (-1) fd).

(** [error(IOTYPE typ)] *)
Definition error_pipe (ndebug : bool) (typ : IOTYPE) : Sys error :=
  assert ndebug (bool_decide (typ = PIPE));;
  '(rd, wr) ← util.pipe_cloexec;
  mret (Channel rd wr).

(** One argument of the [Popen] constructor's pack. *)
Inductive popen_arg :=
| executable (arg_value : string)
| cwd (arg_value : string)
| bufsize (bufsiz : Z)
| environment (env_ : gmap string string)
| defer_spawn (defer : bool)
| arg_input (inp : input)
| arg_output (out : output)
| arg_error (err : error)
| close_fds (close_all : bool).

(** *** detail::Streams *)

Module detail.

(** A [std::shared_ptr<FILE>]: empty ([None]), or owning a [FILE*]
    together with the deleter [fclose].  The pointer owned is the
    address of a [FILE] in [p_files] or the null pointer.  The header
    makes no copy of these pointers, so the [Streams] object is the only
    owner. *)
Definition shared_FILE := option (option nat).

(** [h.get()] *)
Definition get_ptr (h : shared_FILE) : option nat :=
  match h with
  | Some ptr => ptr
  | None => None
  end.

Record Streams := MkStreams {
  input_ : shared_FILE;
  output_ : shared_FILE;
  error_ : shared_FILE;
  bufsiz_ : Z;
  write_to_child_ : Z;
  read_from_parent_ : Z;
  write_to_parent_ : Z;
  read_from_child_ : Z;
  err_write_ : Z;
  err_read_ : Z
}.

Definition Streams_init : Streams :=
  MkStreams None None None 0 (-1) (-1) (-1) (-1) (-1) (-1).

Definition set_input_ (h : shared_FILE) (s : Streams) : Streams :=
  MkStreams h (output_ s) (error_ s) (bufsiz_ s) (write_to_child_ s)
    (read_from_parent_ s) (write_to_parent_ s) (read_from_child_ s)
    (err_write_ s) (err_read_ s).
Definition set_output_ (h : shared_FILE) (s : Streams) : Streams :=
  MkStreams (input_ s) h (error_ s) (bufsiz_ s) (write_to_child_ s)
    (read_from_parent_ s) (write_to_parent_ s) (read_from_child_ s)
    (err_write_ s) (err_read_ s).
Definition set_error_ (h : shared_FILE) (s : Streams) : Streams :=
  MkStreams (input_ s) (output_ s) h (bufsiz_ s) (write_to_child_ s)
    (read_from_parent_ s) (write_to_parent_ s) (read_from_child_ s)
    (err_write_ s) (err_read_ s).
Definition set_bufsiz_ (n : Z) (s : Streams) : Streams :=
  MkStreams (input_ s) (output_ s) (error_ s) n (write_to_child_ s)
    (read_from_parent_ s) (write_to_parent_ s) (read_from_child_ s)
    (err_write_ s) (err_read_ s).
Definition set_write_to_child_ (fd : Z) (s : Streams) : Streams :=
  MkStreams (input_ s) (output_ s) (error_ s) (bufsiz_ s) fd
    (read_from_parent_ s) (write_to_parent_ s) (read_from_child_ s)
    (err_write_ s) (err_read_ s).
Definition set_read_from_parent_ (fd : Z) (s : Streams) : Streams :=
  MkStreams (input_ s) (output_ s) (error_ s) (bufsiz_ s) (write_to_child_ s)
    fd (write_to_parent_ s) (read_from_child_ s)
    (err_write_ s) (err_read_ s).
Definition set_write_to_parent_ (fd : Z) (s : Streams) : Streams :=
  MkStreams (input_ s) (output_ s) (error_ s) (bufsiz_ s) (write_to_child_ s)
    (read_from_parent_ s) fd (read_from_child_ s)
    (err_write_ s) (err_read_ s).
Definition set_read_from_child_ (fd : Z) (s : Streams) : Streams :=
  MkStreams (input_ s) (output_ s) (error_ s) (bufsiz_ s) (write_to_child_ s)
    (read_from_parent_ s) (write_to_parent_ s) fd
    (err_write_ s) (err_read_ s).
Definition set_err_write_ (fd : Z) (s : Streams) : Streams :=
  MkStreams (input_ s) (output_ s) (error_ s) (bufsiz_ s) (write_to_child_ s)
    (read_from_parent_ s) (write_to_parent_ s) (read_from_child_ s)
    fd (err_read_ s).
Definition set_err_read_ (fd : Z) (s : Streams) : Streams :=
  MkStreams (input_ s) (output_ s) (error_ s) (bufsiz_ s) (write_to_child_ s)
    (read_from_parent_ s) (write_to_parent_ s) (read_from_child_ s)
    (err_write_ s) fd.

(** [close(fd);] as a statement: the result is dropped. *)
Definition close {O} (fd : Z) : Obj O unit := sys (sys_close fd);; mret ().

Definition cleanup_fds : Obj Streams unit :=
  s ← this;
  when (bool_decide (write_to_child_ s ≠ -1) && bool_decide (read_from_parent_ s ≠ -1))
    (close (write_to_child_ s));;
  when (bool_decide (write_to_parent_ s ≠ -1) && bool_decide (read_from_child_ s ≠ -1))
    (close (read_from_child_ s));;
  when (bool_decide (err_write_ s ≠ -1) && bool_decide (err_read_ s ≠ -1))
    (close (err_read_ s)).

Definition close_parent_fds : Obj Streams unit :=
  s ← this;
  when (bool_decide (write_to_child_ s ≠ -1)) (close (write_to_child_ s));;
  when (bool_decide (read_from_child_ s ≠ -1)) (close (read_from_child_ s));;
  when (bool_decide (err_read_ s ≠ -1)) (close (err_read_ s)).

Definition close_child_fds : Obj Streams unit :=
  s ← this;
  when (bool_decide (write_to_parent_ s ≠ -1)) (close (write_to_parent_ s));;
  when (bool_decide (read_from_parent_ s ≠ -1)) (close (read_from_parent_ s));;
  when (bool_decide (err_write_ s ≠ -1)) (close (err_write_ s)).

(** The [switch (bufsiz_)] applied to one handle; the buffer passed to
    [setvbuf] is the null pointer. *)
Definition apply_bufsiz (bufsiz : Z) (h : nat) : Sys unit :=
  (if bool_decide (bufsiz = 0) then sys_setvbuf h None IONBF (to_size_t BUFSIZ)
   else if bool_decide (bufsiz = 1) then sys_setvbuf h None IONBF (to_size_t BUFSIZ)
   else sys_setvbuf h None IOFBF (to_size_t bufsiz));;
  mret ().

(** [member.reset(fdopen(fd, mode), fclose)]: the result of [fdopen],
    null or not, becomes the pointer owned; then the pointer owned so
    far, if the member was not empty, is handed to its deleter. *)
Definition reset_fdopen (member : Streams → shared_FILE)
    (set_member : shared_FILE → Streams → Streams) (fd : Z) (mode : string)
    : Obj Streams unit :=
  ptr ← sys (sys_fdopen fd mode);
  old ← gets (λ s, member s.1);
  update (set_member (Some ptr));;
  match old with
  | Some owned => sys (sys_fclose owned);; mret ()
  | None => mret ()
  end.

(** The three [reset(fdopen(...), fclose)] lines of
    [setup_comm_channels]. *)
Definition wrap_parent_fds : Obj Streams unit :=
  s ← this;
  when (bool_decide (write_to_child_ s ≠ -1))
    (reset_fdopen input_ set_input_ (write_to_child_ s) "wb");;
  when (bool_decide (read_from_child_ s ≠ -1))
    (reset_fdopen output_ set_output_ (read_from_child_ s) "rb");;
  when (bool_decide (err_read_ s ≠ -1))
    (reset_fdopen error_ set_error_ (err_read_ s) "rb").

(** The loop over [handles] of [setup_comm_channels]. *)
Definition set_buffering : Obj Streams unit :=
  s ← this;
  let handles := [get_ptr (input_ s); get_ptr (output_ s); get_ptr (error_ s)] in
  for_each handles (λ h,
    match h with
    | None => mret ()
    | Some a => sys (apply_bufsiz (bufsiz_ s) a)
    end).

Definition setup_comm_channels : Obj Streams unit :=
  wrap_parent_fds;;
  set_buffering.

End detail.
Export detail.

(** *** class Popen *)

(** A [char*] of [cargv_]: the address of the first character of the
    token of [vargs_] with that index, or the null pointer. *)
Definition char_ptr := option nat.

Record Popen := MkPopen {
  stream_ : Streams;
  defer_process_start_ : bool;
  close_fds_ : bool;
  exe_name_ : string;
  cwd_ : string;
  env_ : gmap string string;
  args_ : string;
  vargs_ : list string;
  cargv_ : list char_ptr;
  child_pid_ : Z
}.

Definition Popen_init : Popen :=
  MkPopen Streams_init false false "" "" ∅ "" [] [] (-1).

Definition set_stream_ (s : Streams) (p : Popen) : Popen :=
  MkPopen s (defer_process_start_ p) (close_fds_ p) (exe_name_ p) (cwd_ p)
    (env_ p) (args_ p) (vargs_ p) (cargv_ p) (child_pid_ p).
Definition set_defer_process_start_ (b : bool) (p : Popen) : Popen :=
  MkPopen (stream_ p) b (close_fds_ p) (exe_name_ p) (cwd_ p)
    (env_ p) (args_ p) (vargs_ p) (cargv_ p) (child_pid_ p).
Definition set_close_fds_ (b : bool) (p : Popen) : Popen :=
  MkPopen (stream_ p) (defer_process_start_ p) b (exe_name_ p) (cwd_ p)
    (env_ p) (args_ p) (vargs_ p) (cargv_ p) (child_pid_ p).
Definition set_exe_name_ (s : string) (p : Popen) : Popen :=
  MkPopen (stream_ p) (defer_process_start_ p) (close_fds_ p) s (cwd_ p)
    (env_ p) (args_ p) (vargs_ p) (cargv_ p) (child_pid_ p).
Definition set_cwd_ (s : string) (p : Popen) : Popen :=
  MkPopen (stream_ p) (defer_process_start_ p) (close_fds_ p) (exe_name_ p) s
    (env_ p) (args_ p) (vargs_ p) (cargv_ p) (child_pid_ p).
Definition set_env_ (m : gmap string string) (p : Popen) : Popen :=
  MkPopen (stream_ p) (defer_process_start_ p) (close_fds_ p) (exe_name_ p) (cwd_ p)
    m (args_ p) (vargs_ p) (cargv_ p) (child_pid_ p).
Definition set_args_ (s : string) (p : Popen) : Popen :=
  MkPopen (stream_ p) (defer_process_start_ p) (close_fds_ p) (exe_name_ p) (cwd_ p)
    (env_ p) s (vargs_ p) (cargv_ p) (child_pid_ p).
Definition set_vargs_ (l : list string) (p : Popen) : Popen :=
  MkPopen (stream_ p) (defer_process_start_ p) (close_fds_ p) (exe_name_ p) (cwd_ p)
    (env_ p) (args_ p) l (cargv_ p) (child_pid_ p).
Definition set_cargv_ (l : list char_ptr) (p : Popen) : Popen :=
  MkPopen (stream_ p) (defer_process_start_ p) (close_fds_ p) (exe_name_ p) (cwd_ p)
    (env_ p) (args_ p) (vargs_ p) l (child_pid_ p).
Definition set_child_pid_ (pid : Z) (p : Popen) : Popen :=
  MkPopen (stream_ p) (defer_process_start_ p) (close_fds_ p) (exe_name_ p) (cwd_ p)
    (env_ p) (args_ p) (vargs_ p) (cargv_ p) pid.

(** A method of [stream_], and an assignment to one of its members. *)
Definition on_stream {A} (m : Obj Streams A) : Obj Popen A :=
  within stream_ set_stream_ m.
Definition update_stream (f : Streams → Streams) : Obj Popen unit :=
  update (λ p, set_stream_ (f (stream_ p)) p).

Module ArgumentDeducer.

Definition set_option (a : popen_arg) : Obj Popen unit :=
    match a with
    | executable arg_value => update (set_exe_name_ arg_value)
    | cwd arg_value => update (set_cwd_ arg_value)
    | bufsize bufsiz => update_stream (set_bufsiz_ bufsiz)
    | environment env => update (set_env_ env)
    | defer_spawn defer => update (set_defer_process_start_ defer)
    | arg_input inp =>
        update_stream (set_read_from_parent_ (rd_ch_ inp));;
        when (bool_decide (wr_ch_ inp ≠ -1))
          (update_stream (set_write_to_child_ (wr_ch_ inp)))
    | arg_output out =>
        update_stream (set_write_to_parent_ (wr_ch_ out));;
        when (bool_decide (rd_ch_ out ≠ -1))
          (update_stream (set_read_from_child_ (rd_ch_ out)))
    | arg_error err =>
        update_stream (set_err_write_ (wr_ch_ err));;
        when (bool_decide (rd_ch_ err ≠ -1))
          (update_stream (set_err_read_ (rd_ch_ err)))
    | close_fds close_all => update (set_close_fds_ close_all)
    end.

End ArgumentDeducer.

(** [for (auto& arg : vargs_) cargv_.push_back(&arg[0]);] *)
Definition populate_c_argv : Obj Popen unit :=
  p ← this;
  for_each (seq 0 (length (vargs_ p))) (λ i,
    update (λ p, set_cargv_ (cargv_ p ++ [Some i]) p)).

(** The two overloads of [init_args], over the argument pack. *)
Fixpoint init_args (args : list popen_arg) : Obj Popen unit :=
  match args with
  | [] => populate_c_argv
  | farg :: args' => ArgumentDeducer.set_option farg;; init_args args'
  end.

(** The iteration order of a [std::map<std::string, std::string>]:
    ascending keys. *)
Definition map_items (m : gmap string string) : list (string * string) :=
  merge_sort (λ a b, String.le a.1 b.1) (map_to_list m).

(** What [execvp] finds behind a [char*] of [cargv_]. *)
Definition deref (vargs : list string) (ptr : char_ptr) : option string :=
  i ← ptr; c_str <$> vargs !! i.

Definition EXIT_FAILURE : Z := 1.

(** The [what()] of a caught exception. *)
Definition what (e : exn) : string :=
  match e with
  | CalledProcessError w => w
  | OSError w => w
  | StdException => "std::exception"
  end.

Module Child.

  (** The lambda [_dup2_] of [execute_child]. *)
Definition _dup2_ (fd to_fd : Z) : Sys unit :=
    if bool_decide (fd = to_fd) then util.set_clo_on_exec fd false
    else if bool_decide (fd ≠ -1) then
      res ← sys_dup2 fd to_fd;
      if bool_decide (res = -1) then
        e ← gets p_errno; throw (mkOSError "dup2 failed" e)
      else mret ()
    else mret ().

  (** The two [if]s that open the [try] block. *)
Definition redup_low_fds : Obj Popen unit :=
    stream ← gets (λ s, stream_ s.1);
    when (bool_decide (write_to_parent_ stream = 0))
      (fd ← sys (sys_dup (write_to_parent_ stream));
       update_stream (set_write_to_parent_ fd));;
    stream ← gets (λ s, stream_ s.1);
    when (bool_decide (err_write_ stream = 0) || bool_decide (err_write_ stream = 1))
      (fd ← sys (sys_dup (err_write_ stream));
       update_stream (set_err_write_ fd)).

  (** "Create the standard streams" and "Close the duped descriptors". *)
Definition create_std_streams : Obj Popen unit :=
    stream ← gets (λ s, stream_ s.1);
    sys (_dup2_ (read_from_parent_ stream) 0);;
    sys (_dup2_ (write_to_parent_ stream) 1);;
    sys (_dup2_ (err_write_ stream) 2);;
    when (bool_decide (read_from_parent_ stream ≠ -1)
          && bool_decide (read_from_parent_ stream > 2))
      (close (read_from_parent_ stream));;
    when (bool_decide (write_to_parent_ stream ≠ -1)
          && bool_decide (write_to_parent_ stream > 2))
      (close (write_to_parent_ stream));;
    when (bool_decide (err_write_ stream ≠ -1)
          && bool_decide (err_write_ stream > 2))
      (close (err_write_ stream)).

  (** "Close all the inherited fd's except the error write pipe". *)
Definition close_inherited_fds (err_wr_pipe_ : Z) : Obj Popen unit :=
    parent_ ← this;
    when (close_fds_ parent_)
      (max_fd ← sys sys_sysconf_open_max;
       if bool_decide (max_fd = -1) then
         e ← errno; throw (mkOSError "sysconf failed" e)
       else
         for_each (Z.of_nat <$> seq 3 (Z.to_nat max_fd - 3)) (λ i,
           if bool_decide (i = err_wr_pipe_) then mret () else close i)).

  (** "Change the working directory if provided". *)
Definition change_directory : Obj Popen unit :=
    parent_ ← this;
    when (negb (bool_decide (String.length (cwd_ parent_) = 0%nat)))
      (sys_ret ← sys (sys_chdir (c_str (cwd_ parent_)));
       if bool_decide (sys_ret = -1) then
         e ← errno; throw (mkOSError "chdir failed" e)
       else mret ()).

  (** "Replace the current image with the executable". *)
Definition replace_image : Obj Popen unit :=
    parent_ ← this;
    let argv := deref (vargs_ parent_) <$> cargv_ parent_ in
    sys_ret ←
      (if negb (bool_decide (size (env_ parent_) = 0%nat)) then
         for_each (map_items (env_ parent_)) (λ kv,
           sys (sys_setenv (c_str kv.1) (c_str kv.2) true);; mret ());;
         sys (sys_execvp (c_str (exe_name_ parent_)) argv)
       else
         sys (sys_execvp (c_str (exe_name_ parent_)) argv));
    if bool_decide (sys_ret = -1) then
      e ← errno; throw (mkOSError "execve failed" e)
    else mret ().

Definition execute_child (err_wr_pipe_ : Z) : Obj Popen unit :=
    try_catch
      (redup_low_fds;;
       create_std_streams;;
       close_inherited_fds err_wr_pipe_;;
       change_directory;;
       replace_image)
      is_OSError
      (λ exp,
         let err_msg := what exp in
         sys (util.write_n err_wr_pipe_ err_msg (String.length err_msg));;
         mret ());;
    sys (sys_exit EXIT_FAILURE).

End Child.

(** The exception specification [throw (CalledProcessError, OSError)]. *)
Definition CalledProcessError_or_OSError (e : exn) : bool :=
  match e with
  | CalledProcessError _ | OSError _ => true
  | StdException => false
  end.

(** [catch (std::exception& exp)] matches every exception of the
    header. *)
Definition is_std_exception (e : exn) : bool := true.

(** [throw exp;] with [exp] of static type [std::exception&]: the
    exception object is copy-initialised from the static type of the
    operand, so what is thrown is a plain [std::exception]. *)
Definition throw_copy_of_std_exception {S A} (exp : exn) : M S A :=
  throw StdException.

(** A [char] array read as a C string: the characters before the first
    NUL, if there is one inside the array. *)
Fixpoint c_string_of (buf : list ascii) : option string :=
  match buf with
  | [] => None
  | c :: r => if Ascii.eqb c Ascii.zero then Some EmptyString
              else String c <$> c_string_of r
  end.

(** "Call waitpid to reap the child process" and "Throw whatever
    information we have about child failure".  An array without a NUL
    makes the [std::string] constructor read past its end. *)
Definition reap_and_throw (err_buf : list ascii) : Obj Popen unit :=
  pid ← gets (λ s, child_pid_ s.1);
  sys_ret ← sys (util.wait_for_child_exit pid);
  (if bool_decide (sys_ret = -1) then
     e ← errno; throw (mkOSError "child exit" e)
   else mret ());;
  match c_string_of err_buf with
  | Some msg => throw (CalledProcessError msg)
  | None => halt Undefined
  end.

(** The parent's side of [execute_process], after [fork]. *)
Definition parent_after_fork (err_rd_pipe err_wr_pipe : Z) : Obj Popen unit :=
  close err_wr_pipe;;
  on_stream close_child_fds;;
  try_catch
    (let err_buf := replicate SP_MAX_ERR_BUF_SIZ Ascii.zero in
     '(read_bytes, err_buf) ←
       sys (util.read_atmost_n err_rd_pipe err_buf SP_MAX_ERR_BUF_SIZ);
     close err_rd_pipe;;
     (* [if (read_bytes || strlen(err_buf))] *)
     if negb (bool_decide (read_bytes = 0)) then reap_and_throw err_buf
     else
       match c_string_of err_buf with
       | Some msg =>
           if negb (bool_decide (String.length msg = 0%nat))
           then reap_and_throw err_buf
           else mret ()
       | None => halt Undefined
       end)
    is_std_exception
    (λ exp,
       on_stream cleanup_fds;;
       throw_copy_of_std_exception exp);;
  on_stream setup_comm_channels.

(** The [if (child_pid_ < 0)] block of [execute_process]. *)
Definition fork_failed (err_rd_pipe err_wr_pipe : Z) : Obj Popen unit :=
  close err_rd_pipe;;
  close err_wr_pipe;;
  e ← errno; throw (mkOSError "fork failed" e).

Definition execute_process : Obj Popen unit :=
  exception_spec CalledProcessError_or_OSError
    ('(err_rd_pipe, err_wr_pipe) ← sys util.pipe_cloexec;
     p ← this;
     (if bool_decide (String.length (exe_name_ p) = 0%nat) then
        match vargs_ p with
        | v0 :: _ => update (set_exe_name_ v0)
        | [] => halt Undefined      (* [vargs_[0]] of an empty vector *)
        end
      else mret ());;
     pid ← sys sys_fork;
     update (set_child_pid_ pid);;
     if bool_decide (pid < 0) then fork_failed err_rd_pipe err_wr_pipe
     else if bool_decide (pid = 0) then
       on_stream close_parent_fds;;
       close err_rd_pipe;;
       Child.execute_child err_wr_pipe
     else
       parent_after_fork err_rd_pipe err_wr_pipe).

Definition start_process (ndebug : bool) : Obj Popen unit :=
  exception_spec CalledProcessError_or_OSError
    (p ← this;
     if negb (defer_process_start_ p) then
       assert ndebug false;;
       mret ()
     else execute_process).

(** [Popen(std::initializer_list<const char*> cmd_args, Args&& ...args)],
    run on a freshly initialised object. *)
Definition Popen_ctor (cmd_args : list string) (args : list popen_arg)
    : Obj Popen unit :=
  update (λ p, set_vargs_ (vargs_ p ++ (c_str <$> cmd_args)) p);;
  init_args args;;
  p ← this;
  when (negb (defer_process_start_ p)) execute_process.

(** [Popen(const std::string& cmd_args, Args&& ...args)].  [split]
    always returns a vector, so the second branch is never taken. *)
Definition Popen_ctor_str (cmd_args : string) (args : list popen_arg)
    : Obj Popen unit :=
  update (set_args_ cmd_args);;
  match util.split cmd_args util.split_delims with
  | Some tokens => update (set_vargs_ tokens)
  | None => halt Undefined
  end;;
  init_args args;;
  p ← this;
  when (negb (defer_process_start_ p)) execute_process.

Definition pid (p : Popen) : Z := child_pid_ p.

End subprocess.
Export subprocess.

(** * Reasoning about methods *)

(** Two process states with the same components are the same. *)
Lemma proc_eq (p q : proc) :
  p_host p = p_host q → p_fds p = p_fds q → p_errno p = p_errno q →
  p_environ p = p_environ q → p_cwd p = p_cwd q → p_npipes p = p_npipes q →
  p_files p = p_files q → p_fork p = p_fork q → p_reads p = p_reads q →
  p_waits p = p_waits q → p_trace p = p_trace q →
  p = q.
Proof. destruct p, q. simpl. congruence. Qed.

(** How a computation ends when it does not return. *)
Inductive abnormal :=
| ARaise (e : exn)
| AStop (x : stop).

Definition ending {A} (r : outcome A) : A + abnormal :=
  match r with
  | Return a => inl a
  | Raise e => inr (ARaise e)
  | Stop x => inr (AStop x)
  end.

(** [hoare P m Q E]: from a state in [P], [m] either returns [a] in a
    state with [Q a], or ends abnormally as [x] in a state with [E x]. *)
Definition hoare {S A} (P : S → Prop) (m : M S A)
    (Q : A → S → Prop) (E : abnormal → S → Prop) : Prop :=
  ∀ s, P s →
    match ending (m s).1 with
    | inl a => Q a (m s).2
    | inr x => E x (m s).2
    end.

Section hoare_rules.
Context {S : Type}.
Implicit Types (P : S → Prop) (E : abnormal → S → Prop).

Lemma hoare_conseq {A} P P' (m : M S A) (Q Q' : A → S → Prop) E E' :
    hoare P' m Q' E' →
    (∀ s, P s → P' s) →
    (∀ a s, Q' a s → Q a s) →
    (∀ x s, E' x s → E x s) →
    hoare P m Q E.
Proof.
    intros Hm HP HQ HE s Hs. specialize (Hm s (HP s Hs)).
    destruct (ending (m s).1); auto.
Qed.

Lemma hoare_pure {A} (φ : Prop) P (m : M S A) (Q : A → S → Prop) E :
    (φ → hoare P m Q E) → hoare (λ s, φ ∧ P s) m Q E.
Proof. intros H s [Hφ Hs]. by apply H. Qed.

Lemma hoare_ret {A} P (a : A) (Q : A → S → Prop) E :
    (∀ s, P s → Q a s) → hoare P (mret a) Q E.
Proof. intros H s Hs. simpl. auto. Qed.

Lemma hoare_bind {A B} P (m : M S A) (f : A → M S B) (Qm : A → S → Prop)
      (Q : B → S → Prop) E :
    hoare P m Qm E →
    (∀ a, hoare (Qm a) (f a) Q E) →
    hoare P (m ≫= f) Q E.
Proof.
    intros Hm Hf s Hs. specialize (Hm s Hs).
    unfold mbind, M_bind. destruct (m s) as [[a|e|x] s']; simpl in *; auto.
    apply (Hf a s' Hm).
Qed.

Lemma hoare_gets {A} P (g : S → A) (Q : A → S → Prop) E :
    (∀ s, P s → Q (g s) s) → hoare P (gets g) Q E.
Proof. intros H s Hs. simpl. auto. Qed.

Lemma hoare_modify P (g : S → S) (Q : unit → S → Prop) E :
    (∀ s, P s → Q () (g s)) → hoare P (modify g) Q E.
Proof. intros H s Hs. simpl. auto. Qed.

Lemma hoare_throw {A} P e (Q : A → S → Prop) E :
    (∀ s, P s → E (ARaise e) s) → hoare P (throw e) Q E.
Proof. intros H s Hs. simpl. auto. Qed.

Lemma hoare_halt {A} P x (Q : A → S → Prop) E :
    (∀ s, P s → E (AStop x) s) → hoare P (halt x) Q E.
Proof. intros H s Hs. simpl. auto. Qed.

Lemma hoare_when P (c : bool) (m : M S unit) (Q : unit → S → Prop) E :
    (c = true → hoare P m Q E) →
    (c = false → ∀ s, P s → Q () s) →
    hoare P (when c m) Q E.
Proof.
    intros Ht Hf. destruct c; simpl; [auto|]. apply hoare_ret; auto.
Qed.

Lemma hoare_if {A} P (c : bool) (m1 m2 : M S A) (Q : A → S → Prop) E :
    (c = true → hoare P m1 Q E) →
    (c = false → hoare P m2 Q E) →
    hoare P (if c then m1 else m2) Q E.
Proof. destruct c; auto. Qed.

Lemma hoare_assert P ndebug c (Q : unit → S → Prop) E :
    (∀ s, P s → Q () s) →
    (∀ s, P s → E (AStop AssertFailed) s) →
    hoare P (assert ndebug c) Q E.
Proof.
    intros HQ HE. unfold assert. destruct (ndebug || c).
    - by apply hoare_ret.
    - by apply hoare_halt.
Qed.

Lemma hoare_try_catch {A} P (body : M S A) catches handler
      (Q : A → S → Prop) E Eb :
    hoare P body Q Eb →
    (∀ e, catches e = true → hoare (Eb (ARaise e)) (handler e) Q E) →
    (∀ e s, catches e = false → Eb (ARaise e) s → E (ARaise e) s) →
    (∀ x s, Eb (AStop x) s → E (AStop x) s) →
    hoare P (try_catch body catches handler) Q E.
Proof.
    intros Hb Hh Hr Hx s Hs. specialize (Hb s Hs). unfold try_catch.
    destruct (body s) as [[a|e|x] s']; simpl in *; auto.
    destruct (catches e) eqn:Hc.
    - apply (Hh e Hc s' Hb).
    - simpl. auto.
Qed.

Lemma hoare_exception_spec {A} P allowed (body : M S A) (Q : A → S → Prop) E Eb :
    hoare P body Q Eb →
    (∀ e s, allowed e = true → Eb (ARaise e) s → E (ARaise e) s) →
    (∀ e s, allowed e = false → Eb (ARaise e) s → E (AStop (Unexpected e)) s) →
    (∀ x s, Eb (AStop x) s → E (AStop x) s) →
    hoare P (exception_spec allowed body) Q E.
Proof.
    intros Hb Ha Hu Hx s Hs. specialize (Hb s Hs). unfold exception_spec.
    destruct (body s) as [[a|e|x] s']; simpl in *; auto.
    destruct (allowed e) eqn:Hc; simpl; auto.
Qed.

  (** A loop whose body keeps an invariant. *)
Lemma hoare_for_each {A} (I : S → Prop) (l : list A) (body : A → M S unit) E :
    (∀ x, x ∈ l → hoare I (body x) (λ _, I) E) →
    hoare I (for_each l body) (λ _, I) E.
Proof.
    induction l as [|x l IH]; intros Hb; simpl.
    - by apply hoare_ret.
    - eapply hoare_bind.
      + apply Hb. left.
      + intros []. apply IH. intros y Hy. apply Hb. by right.
Qed.

End hoare_rules.

Section hoare_obj.
Context {O : Type}.

Lemma hoare_sys {A} (P : O * proc → Prop) (m : Sys A)
      (Q : A → O * proc → Prop) E :
    (∀ o, hoare (λ p, P (o, p)) m (λ a p, Q a (o, p)) (λ x p, E x (o, p))) →
    hoare P (sys m) Q E.
Proof.
    intros H [o p] Hs. specialize (H o p Hs). unfold sys.
    destruct (m p) as [r p']. simpl in *. done.
Qed.

Lemma hoare_this (P : O * proc → Prop) (Q : O → O * proc → Prop) E :
    (∀ s, P s → Q s.1 s) → hoare P this Q E.
Proof. intros H. by apply hoare_gets. Qed.

Lemma hoare_update (P : O * proc → Prop) (g : O → O)
      (Q : unit → O * proc → Prop) E :
    (∀ o p, P (o, p) → Q () (g o, p)) → hoare P (update g) Q E.
Proof. intros H. apply hoare_modify. intros [o p]. apply H. Qed.

Lemma hoare_within {I A} (P : O * proc → Prop) (member : O → I) set_member
      (m : Obj I A) (Q : A → O * proc → Prop) E :
    (∀ o, hoare (λ s, s.1 = member o ∧ P (o, s.2)) m
            (λ a s, Q a (set_member s.1 o, s.2))
            (λ x s, E x (set_member s.1 o, s.2))) →
    hoare P (within member set_member m) Q E.
Proof.
    intros H [o p] Hs. specialize (H o (member o, p) (conj eq_refl Hs)).
    unfold within. destruct (m (member o, p)) as [r [i p']]. simpl in *. done.
Qed.

End hoare_obj.

(** [keeps I m]: [m] keeps the invariant [I], however it ends. *)
Definition keeps {S A} (I : S → Prop) (m : M S A) : Prop :=
  hoare I m (λ _, I) (λ _, I).

Section keeps_rules.
Context {S : Type} (I : S → Prop).

Lemma keeps_ret {A} (a : A) : keeps I (mret a).
Proof. by apply hoare_ret. Qed.

Lemma keeps_bind {A B} (m : M S A) (f : A → M S B) :
    keeps I m → (∀ a, keeps I (f a)) → keeps I (m ≫= f).
Proof. intros Hm Hf. eapply hoare_bind; [exact Hm | exact Hf]. Qed.

Lemma keeps_gets {A} (g : S → A) : keeps I (gets g).
Proof. by apply hoare_gets. Qed.

  (** Reading the state first: the value read belongs to a state of
      the invariant. *)
Lemma keeps_gets_bind {A B} (g : S → A) (f : A → M S B) :
    (∀ s0, I s0 → keeps I (f (g s0))) → keeps I (gets g ≫= f).
Proof.
    intros Hf s Hs. unfold mbind, M_bind, gets. apply (Hf s Hs s Hs).
Qed.

Lemma keeps_modify (g : S → S) : (∀ s, I s → I (g s)) → keeps I (modify g).
Proof. intros H. by apply hoare_modify. Qed.

Lemma keeps_throw {A} e : keeps I (throw (A := A) e).
Proof. by apply hoare_throw. Qed.

Lemma keeps_halt {A} x : keeps I (halt (A := A) x).
Proof. by apply hoare_halt. Qed.

Lemma keeps_when (c : bool) (m : M S unit) : keeps I m → keeps I (when c m).
Proof. intros H. apply hoare_when; auto. Qed.

Lemma keeps_if {A} (c : bool) (m1 m2 : M S A) :
    keeps I m1 → keeps I m2 → keeps I (if c then m1 else m2).
Proof. by destruct c. Qed.

Lemma keeps_assert ndebug c : keeps I (assert ndebug c).
Proof. by apply hoare_assert. Qed.

Lemma keeps_try_catch {A} (body : M S A) catches handler :
    keeps I body → (∀ e, keeps I (handler e)) →
    keeps I (try_catch body catches handler).
Proof.
    intros Hb Hh. eapply hoare_try_catch; [exact Hb | | |]; simpl; auto.
    intros e _. apply Hh.
Qed.

Lemma keeps_exception_spec {A} allowed (body : M S A) :
    keeps I body → keeps I (exception_spec allowed body).
Proof. intros Hb. eapply hoare_exception_spec; [exact Hb | | |]; auto. Qed.

Lemma keeps_for_each {A} (l : list A) (body : A → M S unit) :
    (∀ x, keeps I (body x)) → keeps I (for_each l body).
Proof. intros Hb. apply hoare_for_each. intros x _. apply Hb. Qed.

End keeps_rules.

(** An invariant of a method: [K] on the object, [T] on the process. *)
Definition Inv {O} (K : O → Prop) (T : proc → Prop) (s : O * proc) : Prop :=
  K s.1 ∧ T s.2.

Section keeps_obj.
Context {O : Type} (K : O → Prop) (T : proc → Prop).

Lemma keeps_sys {A} (m : Sys A) : keeps T m → keeps (Inv K T) (sys (O := O) m).
Proof.
    intros Hm. apply hoare_sys. intros o p [HK HT]. specialize (Hm p HT).
    unfold Inv. simpl in *. destruct (ending (m p).1); auto.
Qed.

Lemma keeps_this_bind {B} (f : O → Obj O B) :
    (∀ o, K o → keeps (Inv K T) (f o)) → keeps (Inv K T) (this ≫= f).
Proof. intros Hf. apply keeps_gets_bind. intros [o p] [HK _]. by apply Hf. Qed.

Lemma keeps_update (g : O → O) :
    (∀ o, K o → K (g o)) → keeps (Inv K T) (update g).
Proof. intros H. apply keeps_modify. intros [o p] [HK HT]. split; simpl; auto. Qed.

Lemma keeps_errno_bind {B} (f : errno_t → Obj O B) :
    (∀ e, keeps (Inv K T) (f e)) → keeps (Inv K T) (errno ≫= f).
Proof.
    intros Hf. apply keeps_bind; [|done]. apply keeps_sys, keeps_gets.
Qed.

  (** A method of a member that keeps [T] on the process, when putting
      the member back keeps [K]. *)
Lemma keeps_within {I A} (member : O → I) set_member (m : Obj I A) :
    keeps (Inv (λ _, True) T) m →
    (∀ i o, K o → K (set_member i o)) →
    keeps (Inv K T) (within member set_member m).
Proof.
    intros Hm Hset. apply hoare_within. intros o [i p] [_ [HK HT]].
    specialize (Hm (i, p) (conj Logic.I HT)). unfold Inv in *. simpl in *.
    destruct (ending (m (i, p)).1); destruct Hm; auto.
Qed.

End keeps_obj.

(** ** Invariants of the process state *)

(** A predicate on the process that no system call of the model can
    break, as long as the events it logs are in [R]; the calls that
    change the environment are left out. *)
Record stable (T : proc → Prop) (R : syscall → Prop) : Prop := Stable {
  stable_fds f p : T p → T (set_fds f p);
  stable_errno e p : T p → T (set_errno e p);
  stable_cwd d p : T p → T (set_cwd d p);
  stable_npipes n p : T p → T (set_npipes n p);
  stable_files f p : T p → T (set_files f p);
  stable_fork l p : T p → T (set_fork l p);
  stable_reads l p : T p → T (set_reads l p);
  stable_waits l p : T p → T (set_waits l p);
  stable_emit ev p : R ev → T p → T (emit ev p)
}.

(** Every event but those of [setenv] and [execvp]. *)
Definition plain (ev : syscall) : Prop :=
  match ev with
  | SysSetenv _ _ _ | SysExecvp _ _ => False
  | _ => True
  end.

(** The events logged since the trace was [T0] are all in [R]. *)
Definition emitted (R : syscall → Prop) (T0 : list syscall) (p : proc) : Prop :=
  ∃ evs, p_trace p = T0 ++ evs ∧ Forall R evs.

Lemma emitted_stable R T0 : stable (emitted R T0) R.
Proof.
  split; try (intros ? p (evs & Htr & HF); by exists evs).
  intros ev p Hev (evs & Htr & HF). exists (evs ++ [ev]). split.
  - simpl. by rewrite Htr, app_assoc.
  - apply Forall_app; split; [done|]. by constructor.
Qed.

Lemma emitted_stable_environ R T0 f p :
  emitted R T0 p → emitted R T0 (set_environ f p).
Proof. intros (evs & Htr & HF). by exists evs. Qed.

Lemma emitted_refl R p : emitted R (p_trace p) p.
Proof. exists []. by rewrite app_nil_r. Qed.

Lemma environ_stable E : stable (λ p, p_environ p = E) (λ _, True).
Proof. by split. Qed.

Ltac stable_done Hst HR :=
  repeat first
    [ assumption
    | apply (stable_emit _ _ Hst); [first [apply HR; exact Logic.I | assumption] |]
    | apply (stable_fds _ _ Hst) | apply (stable_errno _ _ Hst)
    | apply (stable_cwd _ _ Hst) | apply (stable_npipes _ _ Hst)
    | apply (stable_files _ _ Hst) | apply (stable_fork _ _ Hst)
    | apply (stable_reads _ _ Hst) | apply (stable_waits _ _ Hst) ].

Ltac keeps_prim Hst HR :=
  let p := fresh "p" in let HT := fresh "HT" in
  intros p HT; unfold hoare, fails; simpl;
  repeat case_match; simplify_eq/=; stable_done Hst HR.

Create HintDb keeps.

Ltac keeps_struct :=
  repeat first
    [ solve [eauto 3 with keeps]
    | apply keeps_ret | apply keeps_throw | apply keeps_halt | apply keeps_assert
    | apply keeps_gets
    | apply keeps_when | apply keeps_if
    | apply keeps_bind; [| intros ?] ].

(** The events of reading, waiting and stdio: they change neither the
    descriptor table nor the environment. *)
Definition passive (ev : syscall) : Prop :=
  match ev with
  | SysRead _ _ _ | SysWaitpid _ _ | SysFdopen _ _ _ | SysSetvbuf _ _ _ _ => True
  | _ => False
  end.

Lemma passive_plain ev : passive ev → plain ev.
Proof. by destruct ev. Qed.

(** [steady T m]: [m] always returns, and keeps [T]. *)
Definition steady {S A} (T : S → Prop) (m : M S A) : Prop :=
  hoare T m (λ _, T) (λ _ _, False).

Lemma steady_keeps {S A} (T : S → Prop) (m : M S A) : steady T m → keeps T m.
Proof.
  intros H. eapply hoare_conseq; [exact H | intros ? HP; exact HP
                                 | intros ? ? HQ; exact HQ | by intros].
Qed.

Section steady_rules.
Context {S : Type} (T : S → Prop).

Lemma steady_ret {A} (a : A) : steady T (mret a).
Proof. by apply hoare_ret. Qed.

Lemma steady_bind {A B} (m : M S A) (f : A → M S B) :
    steady T m → (∀ a, steady T (f a)) → steady T (m ≫= f).
Proof. intros Hm Hf. eapply hoare_bind; [exact Hm | exact Hf]. Qed.

Lemma steady_gets {A} (g : S → A) : steady T (gets g).
Proof. by apply hoare_gets. Qed.

Lemma steady_modify (g : S → S) : (∀ s, T s → T (g s)) → steady T (modify g).
Proof. intros H. by apply hoare_modify. Qed.

Lemma steady_if {A} (c : bool) (m1 m2 : M S A) :
    steady T m1 → steady T m2 → steady T (if c then m1 else m2).
Proof. by destruct c. Qed.

Lemma steady_when (c : bool) (m : M S unit) : steady T m → steady T (when c m).
Proof. intros H. apply hoare_when; auto. Qed.

Lemma steady_for_each {A} (l : list A) (body : A → M S unit) :
    (∀ x, steady T (body x)) → steady T (for_each l body).
Proof. intros Hb. apply hoare_for_each. intros x _. apply Hb. Qed.

End steady_rules.

(** What a predicate on the process needs for reading and waiting to
    keep it. *)
Record still (T : proc → Prop) (R : syscall → Prop) : Prop := Still {
  still_errno e p : T p → T (set_errno e p);
  still_reads l p : T p → T (set_reads l p);
  still_waits l p : T p → T (set_waits l p);
  still_emit ev p : R ev → T p → T (emit ev p)
}.

Lemma stable_still T R : stable T R → still T R.
Proof. intros H. split; apply H. Qed.

Section passive_steady.
Context (T : proc → Prop) (R : syscall → Prop).
Context (Hst : still T R) (HR : ∀ ev, passive ev → R ev).

Ltac still_prim :=
  let p := fresh "p" in let HT := fresh "HT" in
  intros p HT; unfold hoare, fails; simpl;
  repeat case_match; simplify_eq/=;
  repeat first
    [ assumption
    | apply (still_emit _ _ Hst); [apply HR; exact Logic.I |]
    | apply (still_errno _ _ Hst) ].

Lemma steady_sys_read r fd buf n : steady T (util.sys_read r fd buf n).
Proof. unfold util.sys_read. still_prim. Qed.

Lemma steady_sys_waitpid w pid : steady T (util.sys_waitpid w pid).
Proof. unfold util.sys_waitpid. destruct w; still_prim. Qed.

Lemma steady_read_atmost_n fd buf n : steady T (util.read_atmost_n fd buf n).
Proof.
    unfold util.read_atmost_n. apply steady_bind; [apply steady_gets|].
    intros answers. generalize 0 at 1 as rbytes. generalize 0 as cnt.
    revert buf. induction answers as [|r answers IH]; intros buf cnt rbytes;
      cbn [util.read_atmost_n_loop].
    - apply steady_bind; [apply steady_sys_read|]. intros [rb b].
      apply steady_if; apply steady_ret.
    - apply steady_bind.
      { apply steady_modify. intros p. apply (still_reads _ _ Hst). }
      intros _. apply steady_bind; [apply steady_sys_read|]. intros [rb b].
      repeat first [apply steady_if | apply steady_ret | apply IH
                   | apply steady_bind; [apply steady_gets | intros ?]].
Qed.

Lemma steady_wait_for_child_exit pid : steady T (util.wait_for_child_exit pid).
Proof.
    unfold util.wait_for_child_exit. apply steady_bind; [apply steady_gets|].
    intros answers.
    induction answers as [|w answers IH]; cbn [util.wait_for_child_exit_loop].
    - apply steady_bind; [apply steady_sys_waitpid|]. intros ?. apply steady_ret.
    - apply steady_bind.
      { apply steady_modify. intros p. apply (still_waits _ _ Hst). }
      intros _. apply steady_bind; [apply steady_sys_waitpid|]. intros ret.
      repeat first [apply steady_if | apply steady_ret | apply IH].
Qed.

End passive_steady.

Section sys_keeps.
Context (T : proc → Prop) (R : syscall → Prop).
Context (Hst : stable T R) (HR : ∀ ev, plain ev → R ev).

Lemma HR_passive ev : passive ev → R ev.
Proof. intros Hev. by apply HR, passive_plain. Qed.

Lemma keeps_sys_close fd : keeps T (sys_close fd).
Proof. unfold sys_close. keeps_prim Hst HR. Qed.

Lemma keeps_sys_dup fd : keeps T (sys_dup fd).
Proof. unfold sys_dup. keeps_prim Hst HR. Qed.

Lemma keeps_sys_dup2 fd to_fd : keeps T (sys_dup2 fd to_fd).
Proof. unfold sys_dup2. keeps_prim Hst HR. Qed.

Lemma keeps_sys_pipe : keeps T sys_pipe.
Proof. unfold sys_pipe. keeps_prim Hst HR. Qed.

Lemma keeps_sys_fcntl_getfd fd : keeps T (sys_fcntl_getfd fd).
Proof. unfold sys_fcntl_getfd. keeps_prim Hst HR. Qed.

Lemma keeps_sys_fcntl_setfd fd flags : keeps T (sys_fcntl_setfd fd flags).
Proof. unfold sys_fcntl_setfd. keeps_prim Hst HR. Qed.

Lemma keeps_sys_open path flags : keeps T (sys_open path flags).
Proof. unfold sys_open. keeps_prim Hst HR. Qed.

Lemma keeps_sys_fork : keeps T sys_fork.
Proof. unfold sys_fork. keeps_prim Hst HR. Qed.

Lemma keeps_sys_write fd data : keeps T (sys_write fd data).
Proof. unfold sys_write. keeps_prim Hst HR. Qed.

Lemma keeps_sys_sysconf_open_max : keeps T sys_sysconf_open_max.
Proof. unfold sys_sysconf_open_max. keeps_prim Hst HR. Qed.

Lemma keeps_sys_chdir path : keeps T (sys_chdir path).
Proof. unfold sys_chdir. keeps_prim Hst HR. Qed.

Lemma keeps_sys_exit {A} status : keeps T (sys_exit (A := A) status).
Proof. apply keeps_halt. Qed.

Lemma keeps_sys_fdopen fd mode : keeps T (sys_fdopen fd mode).
Proof. unfold sys_fdopen. keeps_prim Hst HR. Qed.

Lemma keeps_sys_setvbuf h buf mode size : keeps T (sys_setvbuf h buf mode size).
Proof. unfold sys_setvbuf. keeps_prim Hst HR. Qed.

Lemma keeps_sys_fclose stream : keeps T (sys_fclose stream).
Proof. unfold sys_fclose. keeps_prim Hst HR. Qed.

Lemma keeps_sys_read r fd buf n : keeps T (util.sys_read r fd buf n).
Proof. apply steady_keeps, (steady_sys_read T R (stable_still T R Hst) HR_passive). Qed.

Lemma keeps_sys_waitpid w pid : keeps T (util.sys_waitpid w pid).
Proof. apply steady_keeps, (steady_sys_waitpid T R (stable_still T R Hst) HR_passive). Qed.

Lemma keeps_read_atmost_n fd buf n : keeps T (util.read_atmost_n fd buf n).
Proof. apply steady_keeps, (steady_read_atmost_n T R (stable_still T R Hst) HR_passive). Qed.

Lemma keeps_wait_for_child_exit pid : keeps T (util.wait_for_child_exit pid).
Proof. apply steady_keeps, (steady_wait_for_child_exit T R (stable_still T R Hst) HR_passive). Qed.

Lemma keeps_sys_setenv name value ow :
    (∀ f p, T p → T (set_environ f p)) →
    (∀ res, R (SysSetenv name value res)) →
    keeps T (sys_setenv name value ow).
Proof.
    intros Henv Hev. unfold sys_setenv. intros p HT. unfold hoare, fails; simpl.
    repeat case_match; simplify_eq/=;
      repeat first [assumption | apply (stable_emit _ _ Hst); [apply Hev|]
                   | apply Henv | apply (stable_errno _ _ Hst)].
Qed.

Lemma keeps_sys_execvp file argv :
    R (SysExecvp file argv) → keeps T (sys_execvp file argv).
Proof.
    intros Hev. unfold sys_execvp. intros p HT. unfold hoare, fails; simpl.
    repeat case_match; simplify_eq/=;
      repeat first [assumption | apply (stable_emit _ _ Hst); [apply Hev|]
                   | apply (stable_errno _ _ Hst)].
Qed.

Lemma keeps_set_clo_on_exec fd set : keeps T (util.set_clo_on_exec fd set).
Proof.
    unfold util.set_clo_on_exec.
    apply keeps_bind; [apply keeps_sys_fcntl_getfd|]. intros flags.
    apply keeps_bind; [apply keeps_sys_fcntl_setfd|]. intros _. apply keeps_ret.
Qed.

Lemma keeps_pipe_cloexec : keeps T util.pipe_cloexec.
Proof.
    unfold util.pipe_cloexec. apply keeps_bind; [apply keeps_sys_pipe|].
    intros [[res rd] wr]. apply keeps_if.
    - keeps_struct.
    - apply keeps_bind; [apply keeps_set_clo_on_exec|]. intros _.
      apply keeps_bind; [apply keeps_set_clo_on_exec|]. intros _. apply keeps_ret.
Qed.

Lemma keeps_write_n fd buf len : keeps T (util.write_n fd buf len).
Proof.
    unfold util.write_n. generalize 0. generalize len at 1 as passes.
    induction passes as [|passes IH]; intros nwritten; cbn [util.write_n_loop].
    - keeps_struct.
    - apply keeps_if; [|apply keeps_ret].
      apply keeps_bind; [apply keeps_sys_write|]. intros written.
      apply keeps_if; [apply keeps_ret | apply IH].
Qed.

End sys_keeps.

#[export] Hint Resolve keeps_sys_close keeps_sys_dup keeps_sys_dup2 keeps_sys_pipe
  keeps_sys_fcntl_getfd keeps_sys_fcntl_setfd keeps_sys_open keeps_sys_fork
  keeps_sys_write keeps_sys_sysconf_open_max keeps_sys_chdir keeps_sys_fdopen
  keeps_sys_setvbuf keeps_sys_fclose keeps_sys_exit keeps_sys_read keeps_sys_waitpid
  keeps_set_clo_on_exec keeps_pipe_cloexec keeps_write_n keeps_read_atmost_n
  keeps_wait_for_child_exit : keeps.

Ltac keeps_obj :=
  repeat first
    [ solve [eauto 4 with keeps]
    | apply keeps_ret | apply keeps_throw | apply keeps_halt | apply keeps_assert
    | apply keeps_sys
    | apply keeps_this_bind; intros ? ?
    | apply keeps_errno_bind; intros ?
    | apply keeps_gets_bind; intros ? ?
    | apply keeps_update; intros ? ?
    | apply keeps_when | apply keeps_if
    | apply keeps_for_each; intros ?
    | apply keeps_bind; [| intros ?] ].

Section popen_keeps.
Context (K : Popen → Prop) (T : proc → Prop) (R : syscall → Prop).
Context (Hst : stable T R) (HR : ∀ ev, plain ev → R ev).
Context (HK_stream : ∀ s o, K o → K (set_stream_ s o)).

Lemma keeps_close {O} (K' : O → Prop) fd : keeps (Inv K' T) (close fd).
Proof. unfold close. keeps_obj. Qed.

Lemma keeps_cleanup_fds : keeps (Inv (λ _, True) T) cleanup_fds.
Proof. unfold cleanup_fds. keeps_obj; apply keeps_close. Qed.

Lemma keeps_close_parent_fds : keeps (Inv (λ _, True) T) close_parent_fds.
Proof. unfold close_parent_fds. keeps_obj; apply keeps_close. Qed.

Lemma keeps_close_child_fds : keeps (Inv (λ _, True) T) close_child_fds.
Proof. unfold close_child_fds. keeps_obj; apply keeps_close. Qed.

Lemma keeps_reset_fdopen member set_member fd mode :
    keeps (Inv (λ _, True) T) (reset_fdopen member set_member fd mode).
Proof.
    unfold reset_fdopen. apply keeps_bind; [keeps_obj|]. intros ptr.
    apply keeps_bind; [apply keeps_gets|]. intros old.
    apply keeps_bind; [by apply keeps_update|]. intros _.
    destruct old; keeps_obj.
Qed.

Lemma keeps_setup_comm_channels : keeps (Inv (λ _, True) T) setup_comm_channels.
Proof.
    unfold setup_comm_channels, wrap_parent_fds, set_buffering, apply_bufsiz.
    apply keeps_bind.
    - apply keeps_this_bind. intros s _.
      repeat first [ apply keeps_when | apply keeps_reset_fdopen
                   | apply keeps_bind; [| intros ?] ].
    - intros _. apply keeps_this_bind. intros s _.
      apply keeps_for_each. intros [a|]; keeps_obj.
Qed.

Lemma keeps_on_stream {A} (m : Obj Streams A) :
    keeps (Inv (λ _, True) T) m → keeps (Inv K T) (on_stream m).
Proof. intros Hm. apply keeps_within; auto. Qed.

Lemma keeps_update_stream f : keeps (Inv K T) (update_stream f).
Proof. apply keeps_update. auto. Qed.

Lemma keeps__dup2_ fd to_fd : keeps T (Child._dup2_ fd to_fd).
Proof. unfold Child._dup2_. keeps_struct. Qed.

Lemma keeps_redup_low_fds : keeps (Inv K T) Child.redup_low_fds.
Proof.
    unfold Child.redup_low_fds. keeps_obj; apply keeps_update_stream.
Qed.

Lemma keeps_create_std_streams : keeps (Inv K T) Child.create_std_streams.
Proof.
    unfold Child.create_std_streams.
    keeps_obj; first [apply keeps__dup2_ | apply keeps_close].
Qed.

Lemma keeps_close_inherited_fds err_wr_pipe_ :
    keeps (Inv K T) (Child.close_inherited_fds err_wr_pipe_).
Proof.
    unfold Child.close_inherited_fds. apply keeps_this_bind. intros o Ho.
    apply keeps_when. apply keeps_bind; [keeps_obj|]. intros max_fd.
    apply keeps_if; [keeps_obj|].
    apply keeps_for_each. intros i. apply keeps_if; [apply keeps_ret | apply keeps_close].
Qed.

Lemma keeps_change_directory : keeps (Inv K T) Child.change_directory.
Proof. unfold Child.change_directory. keeps_obj. Qed.

  (** Everything the child does before it replaces its image. *)
Lemma keeps_before_replace_image err_wr_pipe_ :
    keeps (Inv K T)
      (Child.redup_low_fds;; Child.create_std_streams;;
       Child.close_inherited_fds err_wr_pipe_;; Child.change_directory).
Proof.
    apply keeps_bind; [apply keeps_redup_low_fds|]. intros _.
    apply keeps_bind; [apply keeps_create_std_streams|]. intros _.
    apply keeps_bind; [apply keeps_close_inherited_fds|]. intros _.
    apply keeps_change_directory.
Qed.

Context (Henv : ∀ f p, T p → T (set_environ f p)).
Context (HR_setenv : ∀ name value res, R (SysSetenv name value res)).
Context (HR_execvp : ∀ o, K o →
             R (SysExecvp (c_str (exe_name_ o)) (deref (vargs_ o) <$> cargv_ o))).

Lemma keeps_replace_image : keeps (Inv K T) Child.replace_image.
Proof.
    unfold Child.replace_image. apply keeps_this_bind. intros o Ho.
    apply keeps_bind; [|intros ?; keeps_obj].
    apply keeps_if.
    - apply keeps_bind.
      + apply keeps_for_each. intros kv. apply keeps_bind; [|intros ?; apply keeps_ret].
        apply keeps_sys. by apply (keeps_sys_setenv T R).
      + intros _. apply keeps_sys. apply (keeps_sys_execvp T R); auto.
    - apply keeps_sys. apply (keeps_sys_execvp T R); auto.
Qed.

Lemma keeps_execute_child err_wr_pipe_ :
    keeps (Inv K T) (Child.execute_child err_wr_pipe_).
Proof.
    unfold Child.execute_child. apply keeps_bind; [|intros ?; keeps_obj].
    apply keeps_try_catch.
    - apply keeps_bind; [apply keeps_redup_low_fds|]. intros _.
      apply keeps_bind; [apply keeps_create_std_streams|]. intros _.
      apply keeps_bind; [apply keeps_close_inherited_fds|]. intros _.
      apply keeps_bind; [apply keeps_change_directory|]. intros _.
      apply keeps_replace_image.
    - intros e. keeps_obj.
Qed.

Lemma keeps_reap_and_throw err_buf : keeps (Inv K T) (reap_and_throw err_buf).
Proof. unfold reap_and_throw. keeps_obj. destruct (c_string_of _); keeps_obj. Qed.

Lemma keeps_parent_after_fork err_rd_pipe err_wr_pipe :
    keeps (Inv K T) (parent_after_fork err_rd_pipe err_wr_pipe).
Proof.
    unfold parent_after_fork.
    apply keeps_bind; [apply keeps_close|]. intros _.
    apply keeps_bind; [apply keeps_on_stream, keeps_close_child_fds|]. intros _.
    apply keeps_bind; [|intros _; apply keeps_on_stream, keeps_setup_comm_channels].
    apply keeps_try_catch.
    - apply keeps_bind; [keeps_obj|]. intros [read_bytes err_buf].
      apply keeps_bind; [apply keeps_close|]. intros _.
      apply keeps_if; [apply keeps_reap_and_throw|].
      destruct (c_string_of _); [|apply keeps_halt].
      apply keeps_if; [apply keeps_reap_and_throw | apply keeps_ret].
    - intros e. apply keeps_bind; [apply keeps_on_stream, keeps_cleanup_fds|].
      intros _. apply keeps_throw.
Qed.

Context (HK_exe : ∀ v o, K o → K (set_exe_name_ v o)).
Context (HK_pid : ∀ v o, K o → K (set_child_pid_ v o)).

Lemma keeps_execute_process : keeps (Inv K T) execute_process.
Proof.
    unfold execute_process. apply keeps_exception_spec.
    apply keeps_bind; [keeps_obj|]. intros [err_rd_pipe err_wr_pipe].
    apply keeps_this_bind. intros o Ho.
    apply keeps_bind.
    { apply keeps_if; [|apply keeps_ret].
      destruct (vargs_ o); [apply keeps_halt|]. apply keeps_update. auto. }
    intros _. apply keeps_bind; [keeps_obj|]. intros pid.
    apply keeps_bind; [apply keeps_update; auto|]. intros _.
    apply keeps_if; [|apply keeps_if].
    - unfold fork_failed. apply keeps_bind; [apply keeps_close|]. intros _.
      apply keeps_bind; [apply keeps_close|]. intros _. keeps_obj.
    - apply keeps_bind; [apply keeps_on_stream, keeps_close_parent_fds|]. intros _.
      apply keeps_bind; [apply keeps_close|]. intros _.
      apply keeps_execute_child.
    - apply keeps_parent_after_fork.
Qed.

Lemma keeps_start_process ndebug : keeps (Inv K T) (start_process ndebug).
Proof.
    unfold start_process. apply keeps_exception_spec.
    apply keeps_this_bind. intros o Ho. apply keeps_if.
    - keeps_obj.
    - apply keeps_execute_process.
Qed.

End popen_keeps.

(** ** Single steps *)

(** Running a bind whose first part is known. *)
Lemma bind_run {S A B} (m : M S A) (f : A → M S B) s a s' :
  m s = (Return a, s') → (m ≫= f) s = f a s'.
Proof. intros H. unfold mbind, M_bind. by rewrite H. Qed.

Lemma bind_raise {S A B} (m : M S A) (f : A → M S B) s e s' :
  m s = (Raise e, s') → (m ≫= f) s = (Raise e, s').
Proof. intros H. unfold mbind, M_bind. by rewrite H. Qed.


Lemma sys_run {O A} (m : Sys A) (o : O) p r p' :
  m p = (r, p') → sys m (o, p) = (r, (o, p')).
Proof. intros H. unfold sys. by rewrite H. Qed.

Lemma lowest_free_spec t limit fd :
  lowest_free t limit = Some fd → 0 ≤ fd ∧ t !! fd = None.
Proof.
  unfold lowest_free. intros H. apply fmap_Some in H as (n & Hn & ->).
  apply find_some in Hn as [_ Hn]. apply bool_decide_eq_true in Hn. split; [lia|done].
Qed.

(** Single calls on an open descriptor. *)
Lemma sys_close_run fd d p :
  p_fds p !! fd = Some d →
  sys_close fd p = (Return 0, emit (SysClose fd 0) (set_fds (delete fd) p)).
Proof. intros H. unfold sys_close. by rewrite H. Qed.

Lemma sys_close_closed fd p :
  p_fds p !! fd = None →
  sys_close fd p = (Return (-1), emit (SysClose fd (-1)) (set_errno EBADF p)).
Proof. intros H. unfold sys_close. by rewrite H. Qed.

Lemma close_run {O} (o : O) fd d p :
  p_fds p !! fd = Some d →
  close fd (o, p) = (Return (), (o, emit (SysClose fd 0) (set_fds (delete fd) p))).
Proof.
  intros H. unfold close. erewrite bind_run by (eapply sys_run, sys_close_run, H).
  reflexivity.
Qed.

Lemma close_closed {O} (o : O) fd p :
  p_fds p !! fd = None →
  close fd (o, p) = (Return (), (o, emit (SysClose fd (-1)) (set_errno EBADF p))).
Proof.
  intros H. unfold close. erewrite bind_run by (apply sys_run, sys_close_closed, H).
  reflexivity.
Qed.

(** * The argument vector *)

Lemma c_str_idemp s : c_str (c_str s) = c_str s.
Proof.
  induction s as [|c s IH]; simpl; [done|].
  destruct (Ascii.eqb c Ascii.zero) eqn:Hc; simpl; [done|]. by rewrite Hc, IH.
Qed.

(** The object keeps its tokens [V] and its pointers [C]. *)
Definition has_args (V : list string) (C : list char_ptr) (o : Popen) : Prop :=
  vargs_ o = V ∧ cargv_ o = C.

Lemma keeps_set_option V C T a :
  keeps (Inv (has_args V C) T) (ArgumentDeducer.set_option a).
Proof.
  destruct a; simpl; unfold update_stream;
    repeat first [ apply keeps_update; intros o Ho; exact Ho
                 | apply keeps_when
                 | apply keeps_bind; [|intros ?] ].
Qed.

Lemma for_each_push_back (l : list nat) (o : Popen) (p : proc) :
  for_each l (λ i, update (λ o, set_cargv_ (cargv_ o ++ [Some i]) o)) (o, p)
  = (Return (), (set_cargv_ (cargv_ o ++ (Some <$> l)) o, p)).
Proof.
  revert o. induction l as [|i l IH]; intros o; simpl.
  - rewrite app_nil_r. by destruct o.
  - unfold mbind, M_bind. simpl. rewrite IH. simpl.
    by rewrite <- app_assoc.
Qed.

Lemma populate_c_argv_spec V C T :
  hoare (Inv (has_args V C) T) populate_c_argv
    (λ _, Inv (has_args V (C ++ (Some <$> seq 0 (length V)))) T)
    (λ _ _, False).
Proof.
  intros [o p] [[HV HC] HT]. unfold populate_c_argv, mbind, M_bind, this, gets.
  simpl. rewrite for_each_push_back. simpl in *. rewrite HV, HC. by repeat split.
Qed.

Lemma init_args_spec V C T args :
  hoare (Inv (has_args V C) T) (init_args args)
    (λ _, Inv (has_args V (C ++ (Some <$> seq 0 (length V)))) T)
    (λ _ _, False).
Proof.
  induction args as [|a args IH]; simpl; [apply populate_c_argv_spec|].
  eapply hoare_bind with (Qm := λ _, Inv (has_args V C) T); [|intros []; apply IH].
  (* [set_option] always returns *)
  intros [o p] [[HV HC] HT].
  destruct a; simpl;
    unfold update_stream, update, modify, when, mbind, M_bind; simpl;
    repeat case_match; simplify_eq/=; done.
Qed.

(** The argument vectors of the [execvp] calls of a trace. *)
Definition execvp_argvs (tr : list syscall) : list (list (option string)) :=
  omap (λ ev, match ev with SysExecvp _ argv => Some argv | _ => None end) tr.

(** What a run logged: the trace after it, less the trace before it. *)
Definition new_events (before after : proc) : list syscall :=
  drop (length (p_trace before)) (p_trace after).

Definition argv_is (argv : list (option string)) (ev : syscall) : Prop :=
  match ev with SysExecvp _ a => a = argv | _ => True end.

Lemma deref_tokens (V : list string) :
  deref (c_str <$> V) <$> (Some <$> seq 0 (length (c_str <$> V)))
  = Some <$> (c_str <$> V).
Proof.
  rewrite length_fmap. apply list_eq. intros i.
  rewrite !list_lookup_fmap.
  destruct (decide (i < length V)%nat) as [Hi|Hi].
  - rewrite lookup_seq_lt by done. simpl.
    destruct (V !! i) as [v|] eqn:Hv; simpl.
    + unfold deref. simpl. rewrite list_lookup_fmap, Hv. simpl. by rewrite c_str_idemp.
    + apply lookup_ge_None in Hv. lia.
  - rewrite lookup_seq_ge by lia. simpl.
    by rewrite (proj2 (lookup_ge_None V i)) by lia.
Qed.

Lemma emitted_new_events R p0 p :
  emitted R (p_trace p0) p → Forall R (new_events p0 p).
Proof.
  intros (evs & Htr & HF). unfold new_events. by rewrite Htr, drop_app_length.
Qed.

Lemma execvp_argvs_Forall argv evs :
  Forall (argv_is argv) evs → Forall (λ a, a = argv) (execvp_argvs evs).
Proof.
  induction 1 as [|ev evs Hev _ IH]; simpl; [constructor|].
  unfold execvp_argvs in *. simpl. destruct ev; simpl in *; auto.
Qed.

(** A caller's use of the class: construction, then perhaps the
    explicit trigger. *)
Definition construct_and_trigger (ndebug trigger : bool) (cmd_args : list string)
    (args : list popen_arg) : Obj Popen unit :=
  Popen_ctor cmd_args args;;
  when trigger (start_process ndebug).

(** C10.  Whatever options the constructor is given, and whether the
    launch happens in the constructor or through the explicit trigger,
    [cargv_] holds exactly one pointer per token of the command, in
    order, none of them null, and every [execvp] call receives exactly
    these entries: no terminating null pointer is appended. *)
Theorem cargv_has_one_pointer_per_token_and_no_null
    (ndebug trigger : bool) (cmd_args : list string) (args : list popen_arg)
    (p0 : proc) :
  let s := (construct_and_trigger ndebug trigger cmd_args args (Popen_init, p0)).2 in
  vargs_ s.1 = c_str <$> cmd_args
  ∧ cargv_ s.1 = Some <$> seq 0 (length cmd_args)
  ∧ (None ∉ cargv_ s.1)
  ∧ Forall (λ argv, argv = Some <$> (c_str <$> cmd_args) ∧ (None ∉ argv)
                    ∧ length argv = length cmd_args)
      (execvp_argvs (new_events p0 s.2)).
Proof.
  set (V := c_str <$> cmd_args).
  set (C := Some <$> seq 0 (length V)).
  set (R := argv_is (deref V <$> C)).
  set (T := emitted R (p_trace p0)).
  assert (Hst : stable T R) by apply emitted_stable.
  assert (HR : ∀ ev, plain ev → R ev) by (by intros []).
  assert (Hrun : hoare (Inv (has_args [] []) T)
            (construct_and_trigger ndebug trigger cmd_args args)
            (λ _, Inv (has_args V C) T) (λ _, Inv (has_args V C) T)).
  { unfold construct_and_trigger, Popen_ctor.
    assert (Hk : ∀ A (m : Obj Popen A),
              (∀ K, (∀ s o, K o → K (set_stream_ s o)) →
                    (∀ v o, K o → K (set_exe_name_ v o)) →
                    (∀ v o, K o → K (set_child_pid_ v o)) →
                    (∀ o, K o → R (SysExecvp (c_str (exe_name_ o))
                                     (deref (vargs_ o) <$> cargv_ o))) →
                    keeps (Inv K T) m) →
              keeps (Inv (has_args V C) T) m).
    { intros A m Hm. apply Hm; try (by intros ? o [? ?]).
      intros o [-> ->]. done. }
    eapply hoare_bind with (Qm := λ _, Inv (has_args V C) T).
    - eapply hoare_bind with (Qm := λ _, Inv (has_args V []) T).
      { apply hoare_update. intros o p [[HV HC] HT]. simpl in *.
        repeat split; simpl; auto. by rewrite HV. }
      intros []. eapply hoare_bind with (Qm := λ _, Inv (has_args V C) T).
      { eapply hoare_conseq; [apply (init_args_spec V [] T args) | auto ..].
        by intros [] ? ?. }
      intros []. apply keeps_this_bind. intros o Ho. apply keeps_when.
      apply Hk. intros K ? ? ? ?.
      apply (keeps_execute_process K T R); auto using emitted_stable_environ.
      by intros.
    - intros []. apply keeps_when. apply Hk. intros K ? ? ? ?.
      apply (keeps_start_process K T R); auto using emitted_stable_environ.
      by intros. }
  intros s.
  assert (Hs : Inv (has_args V C) T s).
  { specialize (Hrun (Popen_init, p0)). subst s.
    destruct (ending _); apply Hrun; (split; [done | apply emitted_refl]). }
  destruct Hs as [[HV HC] HT].
  assert (HCV : C = Some <$> seq 0 (length cmd_args)).
  { subst C V. by rewrite length_fmap. }
  repeat split; [done | by rewrite HC | |].
  - rewrite HC, HCV. intros Hin. apply list_elem_of_fmap in Hin as (i & Hi & _). done.
  - apply emitted_new_events, execvp_argvs_Forall in HT.
    eapply Forall_impl; [exact HT|]. intros argv ->. simpl.
    subst C V. rewrite deref_tokens. repeat split.
    + intros Hin. apply list_elem_of_fmap in Hin as (i & Hi & _). done.
    + by rewrite !length_fmap.
Qed.

(** * The explicit trigger *)

Lemma exception_spec_idemp {S A} allowed (m : M S A) s :
  exception_spec allowed (exception_spec allowed m) s = exception_spec allowed m s.
Proof.
  unfold exception_spec. destruct (m s) as [[a|e|x] s']; try done.
  destruct (allowed e) eqn:He; [by rewrite He | done].
Qed.

(** An object whose launch has happened: [fork] gave the parent a
    child's pid. *)
Definition already_started (o : Popen) : Prop := 0 < child_pid_ o.

(** The contract as the specification words it, for a header compiled
    with assertions on. *)
Definition trigger_contract (o : Popen) (p : proc) : Prop :=
  defer_process_start_ o = false ∨ already_started o →
  (start_process false (o, p)).1 = Stop AssertFailed.

(** A terminal process with the three standard descriptors, in which
    the next two [fork] calls succeed and each child replaces its image
    (the error pipe is at end of data at once). *)
Definition two_forks : proc :=
  Proc (Host 16 16 ∅ ∅ ∅ {["ls"]} ∅ (Some []))
       {[0 := FDesc Tty false; 1 := FDesc Tty false; 2 := FDesc Tty false]}
       ENONE ∅ "/" 0 ∅ [1234; 1235] [] [] [].

Definition after_first_trigger : Popen * proc :=
  ((Popen_ctor ["ls"] [defer_spawn true];; start_process false)
     (Popen_init, two_forks)).2.

Definition fork_results (tr : list syscall) : list Z :=
  omap (λ ev, match ev with SysFork r => Some r | _ => None end) tr.

(** C5, as stated, fails: after a deferred launch has started, a second
    call of the trigger is no assertion failure; it forks again. *)
Lemma second_trigger_spawns_again :
  already_started after_first_trigger.1
  ∧ ¬ trigger_contract after_first_trigger.1 after_first_trigger.2
  ∧ (start_process false after_first_trigger).1 = Return ()
  ∧ fork_results (p_trace (start_process false after_first_trigger).2.2)
    = [1234; 1235]
  ∧ child_pid_ (start_process false after_first_trigger).2.1 = 1235.
Proof.
  assert (Hrun : (start_process false after_first_trigger).1 = Return ())
    by (vm_compute; reflexivity).
  split; [by vm_compute|]. split; [|split; [exact Hrun|by vm_compute]].
  intros Hc. unfold trigger_contract in Hc.
  assert (Hrun' : (start_process false
                     (after_first_trigger.1, after_first_trigger.2)).1 = Return ())
    by (vm_compute; reflexivity).
  rewrite Hrun' in Hc. discriminate Hc. right. by vm_compute.
Qed.

(** C5, amended.  With assertions on, the trigger fails an assertion
    exactly when defer-start was not requested, and then nothing has
    happened; when defer-start was requested, the trigger runs the
    launch, whether or not the process has started before. *)
Theorem start_process_asserts_iff_not_deferred (o : Popen) (p : proc) :
  (defer_process_start_ o = false →
     start_process false (o, p) = (Stop AssertFailed, (o, p)))
  ∧ (defer_process_start_ o = true →
     ∀ ndebug, start_process ndebug (o, p) = execute_process (o, p)).
Proof.
  split; intros Hd.
  - unfold start_process, exception_spec, mbind, M_bind, this, gets. simpl.
    by rewrite Hd.
  - intros ndebug. unfold start_process.
    transitivity (exception_spec CalledProcessError_or_OSError execute_process (o, p)).
    + unfold exception_spec, mbind, M_bind, this, gets. simpl. by rewrite Hd.
    + unfold execute_process at 1. apply exception_spec_idemp.
Qed.

Lemma start_process_asserts_iff_not_deferred_witness :
  start_process false (Popen_init, two_forks) = (Stop AssertFailed, (Popen_init, two_forks))
  ∧ start_process false (after_first_trigger.1, after_first_trigger.2)
    = execute_process (after_first_trigger.1, after_first_trigger.2).
Proof.
  split.
  - apply (start_process_asserts_iff_not_deferred Popen_init two_forks). reflexivity.
  - apply (start_process_asserts_iff_not_deferred
             after_first_trigger.1 after_first_trigger.2).
    vm_compute. reflexivity.
Defined.

(** * The stream handles *)

(** The three roles of the stream set, and the members of each. *)
Inductive stream_role := ForInput | ForOutput | ForError.

Global Instance stream_role_eq_dec : EqDecision stream_role.
Proof. solve_decision. Defined.

Definition all_roles : list stream_role := [ForInput; ForOutput; ForError].

Definition parent_slot (r : stream_role) (s : Streams) : Z :=
  match r with
  | ForInput => write_to_child_ s
  | ForOutput => read_from_child_ s
  | ForError => err_read_ s
  end.

Definition child_slot (r : stream_role) (s : Streams) : Z :=
  match r with
  | ForInput => read_from_parent_ s
  | ForOutput => write_to_parent_ s
  | ForError => err_write_ s
  end.

Definition handle (r : stream_role) (s : Streams) : shared_FILE :=
  match r with
  | ForInput => input_ s
  | ForOutput => output_ s
  | ForError => error_ s
  end.

Definition set_handle (r : stream_role) (h : shared_FILE) (s : Streams) : Streams :=
  match r with
  | ForInput => set_input_ h s
  | ForOutput => set_output_ h s
  | ForError => set_error_ h s
  end.

(** The mode [setup_comm_channels] passes to [fdopen]. *)
Definition fdopen_mode (r : stream_role) : string :=
  match r with
  | ForInput => "wb"
  | ForOutput => "rb"
  | ForError => "rb"
  end.

(** One line of [setup_comm_channels]. *)
Definition wrap_role (s0 : Streams) (r : stream_role) : Obj Streams unit :=
  when (bool_decide (parent_slot r s0 ≠ -1))
    (reset_fdopen (handle r) (set_handle r) (parent_slot r s0) (fdopen_mode r)).

Lemma wrap_parent_fds_roles (s : Streams) (p : proc) :
  wrap_parent_fds (s, p)
  = (wrap_role s ForInput;; wrap_role s ForOutput;; wrap_role s ForError) (s, p).
Proof. reflexivity. Qed.

Lemma handle_set_handle r h s : handle r (set_handle r h s) = h.
Proof. by destruct r. Qed.

Lemma handle_set_handle_ne r r' h s : r ≠ r' → handle r' (set_handle r h s) = handle r' s.
Proof. by destruct r, r'. Qed.

Lemma parent_slot_set_handle r r' h s : parent_slot r' (set_handle r h s) = parent_slot r' s.
Proof. by destruct r, r'. Qed.

Lemma child_slot_set_handle r r' h s : child_slot r' (set_handle r h s) = child_slot r' s.
Proof. by destruct r, r'. Qed.

Lemma bufsiz_set_handle r h s : bufsiz_ (set_handle r h s) = bufsiz_ s.
Proof. by destruct r. Qed.

(** The streams a trace destroys with [fclose], and the descriptors
    closed with them. *)
Definition fclosed (tr : list syscall) : list (nat * Z) :=
  omap (λ ev, match ev with SysFclose a fd _ => Some (a, fd) | _ => None end) tr.

(** The [fdopen] calls of a trace, with their results. *)
Definition fdopened (tr : list syscall) : list (Z * string * option nat) :=
  omap (λ ev, match ev with SysFdopen fd mode ptr => Some (fd, mode, ptr) | _ => None end) tr.

(** The [setvbuf] calls of a trace: stream, buffer, mode and size. *)
Definition setvbuf_calls (tr : list syscall) : list (nat * option nat * bufmode * Z) :=
  omap (λ ev, match ev with
              | SysSetvbuf a buf mode size => Some (a, buf, mode, size)
              | _ => None
              end) tr.

(** The events of stdio. *)
Definition stdio_event (ev : syscall) : Prop :=
  match ev with
  | SysFdopen _ _ _ | SysFclose _ _ _ | SysSetvbuf _ _ _ _ => True
  | _ => False
  end.

Lemma Forall2_impl_elem {A B} (P Q : A → B → Prop) (l : list A) (k : list B) :
  Forall2 P l k → (∀ x y, x ∈ l → P x y → Q x y) → Forall2 Q l k.
Proof.
  induction 1 as [|x y l k HP _ IH]; intros HPQ; constructor.
  - apply HPQ; [left | done].
  - apply IH. intros x' y' Hx'. apply HPQ. by right.
Qed.

(** ** Single calls *)

Lemma sys_fdopen_open fd mode d p :
  p_fds p !! fd = Some d →
  sys_fdopen fd mode p
  = (Return (Some (fresh (dom (p_files p)))),
     emit (SysFdopen fd mode (Some (fresh (dom (p_files p)))))
       (set_files <[fresh (dom (p_files p)) := MkFILE fd mode None]> p)).
Proof. intros H. unfold sys_fdopen. by rewrite H. Qed.

Lemma sys_fdopen_closed fd mode p :
  p_fds p !! fd = None →
  sys_fdopen fd mode p
  = (Return None, emit (SysFdopen fd mode None) (set_errno EBADF p)).
Proof. intros H. unfold sys_fdopen. by rewrite H. Qed.

Lemma fresh_file (F : gmap nat FILE) : F !! fresh (dom F) = None.
Proof. apply not_elem_of_dom, is_fresh. Qed.

(** What [fclose] of the stream [b], which is [f], leaves. *)
Definition fclose_step (p p' : proc) (b : nat) (f : FILE) : Prop :=
  (∃ res, p_trace p' = p_trace p ++ [SysFclose b (f_fd f) res])
  ∧ p_files p' = delete b (p_files p)
  ∧ p_fds p' = delete (f_fd f) (p_fds p).

Lemma sys_fclose_run b f p :
  p_files p !! b = Some f →
  ∃ res p', sys_fclose (Some b) p = (Return res, p') ∧ fclose_step p p' b f.
Proof.
  intros Hf. unfold sys_fclose, fails. rewrite Hf.
  destruct (p_fds p !! f_fd f) as [d|] eqn:Hd.
  - eexists _, _. split; [done|]. split; [by exists 0|]. done.
  - eexists _, _. split; [done|]. split; [by exists (-1)|]. split; [done|].
    simpl. symmetry. by apply delete_id.
Qed.

(** ** [reset(fdopen(fd, mode), fclose)] *)

(** A handle that [reset] can take over: it is empty, or owns a stream
    of the process. *)
Definition handle_ok (h : shared_FILE) (p : proc) : Prop :=
  match h with
  | None => True
  | Some None => False
  | Some (Some b) => is_Some (p_files p !! b)
  end.

(** What one [reset] leaves: the result [ptr] of [fdopen] is a new
    stream on [fd], or null; the stream owned before is destroyed and
    its descriptor closed. *)
Definition reset_step (p p' : proc) (fd : Z) (mode : string) (old : shared_FILE)
    (ptr : option nat) : Prop :=
  match ptr with
  | Some a => p_files p !! a = None ∧ p_files p' !! a = Some (MkFILE fd mode None)
  | None => True
  end
  ∧ match old with
    | Some (Some b) =>
        ∃ f res, p_files p !! b = Some f
          ∧ p_trace p' = p_trace p ++ [SysFdopen fd mode ptr; SysFclose b (f_fd f) res]
          ∧ p_files p' !! b = None
          ∧ (∀ c, c ≠ b → Some c ≠ ptr → p_files p' !! c = p_files p !! c)
          ∧ p_fds p' = delete (f_fd f) (p_fds p)
    | _ =>
        p_trace p' = p_trace p ++ [SysFdopen fd mode ptr]
        ∧ (∀ c, Some c ≠ ptr → p_files p' !! c = p_files p !! c)
        ∧ p_fds p' = p_fds p
    end.

Lemma reset_fdopen_run (r : stream_role) (s : Streams) (p : proc) (fd : Z) :
  handle_ok (handle r s) p →
  ∃ ptr p',
    reset_fdopen (handle r) (set_handle r) fd (fdopen_mode r) (s, p)
    = (Return (), (set_handle r (Some ptr) s, p'))
    ∧ reset_step p p' fd (fdopen_mode r) (handle r s) ptr.
Proof.
  intros Hok. unfold reset_fdopen.
  set (mode := fdopen_mode r).
  assert (Hopen : ∃ ptr p1,
            sys_fdopen fd mode p = (Return ptr, p1)
            ∧ p_trace p1 = p_trace p ++ [SysFdopen fd mode ptr]
            ∧ p_fds p1 = p_fds p
            ∧ (∀ c, Some c ≠ ptr → p_files p1 !! c = p_files p !! c)
            ∧ match ptr with
              | Some a => p_files p !! a = None
                          ∧ p_files p1 !! a = Some (MkFILE fd mode None)
              | None => True
              end).
  { destruct (p_fds p !! fd) as [d|] eqn:Hd.
    - rewrite (sys_fdopen_open fd mode d p Hd). eexists _, _. split; [done|].
      simpl. split; [done|]. split; [done|]. split.
      + intros c Hc. rewrite lookup_insert_ne; [done|]. congruence.
      + split; [apply fresh_file | apply lookup_insert_eq].
    - rewrite (sys_fdopen_closed fd mode p Hd). eexists _, _. split; [done|].
      simpl. done. }
  destruct Hopen as (ptr & p1 & Hrun & Htr & Hfds & Hframe & Hnew).
  erewrite bind_run by (apply sys_run, Hrun).
  erewrite bind_run by reflexivity. cbn [fst].
  erewrite bind_run by reflexivity.
  destruct (handle r s) as [[b|]|] eqn:Hold; simpl in Hok.
  - destruct Hok as [f Hf].
    assert (Hb : Some b ≠ ptr).
    { intros <-. destruct Hnew as [Hnone _]. congruence. }
    assert (Hf1 : p_files p1 !! b = Some f) by (by rewrite Hframe).
    destruct (sys_fclose_run b f p1 Hf1) as (res & p2 & Hrun2 & (res' & Htr2) & Hfiles2 & Hfds2).
    erewrite bind_run by (apply sys_run, Hrun2).
    exists ptr, p2. split; [done|]. split.
    + destruct ptr as [a|]; [|done]. destruct Hnew as [Hnone Hsome].
      split; [done|]. rewrite Hfiles2, lookup_delete_ne; [done|]. congruence.
    + exists f, res'. split; [done|]. split.
      { rewrite Htr2, Htr, <- app_assoc. done. }
      split; [by rewrite Hfiles2, lookup_delete_eq|]. split.
      * intros c Hc Hc'. rewrite Hfiles2, lookup_delete_ne by done. by apply Hframe.
      * by rewrite Hfds2, Hfds.
  - done.
  - exists ptr, p1. split; [done|]. split; [|done].
    destruct ptr as [a|]; done.
Qed.

Section wrap_parent_fds.
Context (s : Streams) (p : proc).

(** The handles of [s] are sound: each is empty or owns a stream of the
    process, and no two own the same stream. *)
Definition sound_handles : Prop :=
  (∀ r, handle_ok (handle r s) p)
  ∧ ∀ r r' b, r ≠ r' → handle r s = Some (Some b) → handle r' s ≠ Some (Some b).

(** The events of one line of [setup_comm_channels], and the handle
    [h'] it leaves. *)
Definition role_events (r : stream_role) (h' : shared_FILE) (l : list syscall) : Prop :=
  if bool_decide (parent_slot r s ≠ -1) then
    ∃ ptr, h' = Some ptr ∧
      match handle r s with
      | Some (Some b) =>
          ∃ f res, p_files p !! b = Some f
                   ∧ l = [SysFdopen (parent_slot r s) (fdopen_mode r) ptr;
                          SysFclose b (f_fd f) res]
      | _ => l = [SysFdopen (parent_slot r s) (fdopen_mode r) ptr]
      end
  else h' = handle r s ∧ l = [].

(** The state after the lines of the roles [done], the lines of
    [pending] being still to come. *)
Definition wrapped (done pending : list stream_role) (st : Streams * proc) : Prop :=
  (∀ r, parent_slot r st.1 = parent_slot r s ∧ child_slot r st.1 = child_slot r s)
  ∧ bufsiz_ st.1 = bufsiz_ s
  ∧ (∀ r, r ∈ pending → handle r st.1 = handle r s)
  ∧ (∀ r b, r ∈ pending → handle r s = Some (Some b) →
            p_files st.2 !! b = p_files p !! b)
  ∧ (∀ r b, handle r st.1 = Some (Some b) → is_Some (p_files st.2 !! b))
  ∧ (∀ r r' b, r ≠ r' → handle r st.1 = Some (Some b) → handle r' st.1 ≠ Some (Some b))
  ∧ (∀ r a, r ∈ done → parent_slot r s ≠ -1 → handle r st.1 = Some (Some a) →
            p_files st.2 !! a = Some (MkFILE (parent_slot r s) (fdopen_mode r) None))
  ∧ ∃ parts,
      p_trace st.2 = p_trace p ++ concat parts
      ∧ Forall2 (λ r l, role_events r (handle r st.1) l) done parts
      ∧ ∀ k, p_fds st.2 !! k
             = if bool_decide (k ∈ (fclosed (concat parts)).*2) then None
               else p_fds p !! k.

Lemma wrapped_start : sound_handles → wrapped [] all_roles (s, p).
Proof.
  intros [Hok Hapart]. unfold wrapped. cbn [fst snd].
  split; [done|]. split; [done|]. split; [done|]. split; [done|]. split.
  { intros r b Hr. specialize (Hok r). rewrite Hr in Hok. exact Hok. }
  split; [exact Hapart|]. split.
  { intros r a Hin. by apply elem_of_nil in Hin. }
  exists []. cbn [concat]. rewrite app_nil_r. split; [done|]. split; [constructor|].
  intros k. rewrite bool_decide_false; [done|]. apply not_elem_of_nil.
Qed.

Lemma wrap_role_step (done pending : list stream_role) (r : stream_role)
    (st : Streams * proc) :
  sound_handles →
  r ∉ done → r ∉ pending →
  wrapped done (r :: pending) st →
  ∃ st', wrap_role s r st = (Return (), st') ∧ wrapped (done ++ [r]) pending st'.
Proof.
  intros [Hok Hapart0] Hrd Hrp (Hslots & Hbuf & Hsame & Hframe & Hlive & Hapart & Hnew
                                 & parts & Htr & Hparts & Hfds).
  destruct st as [s1 p1]. simpl in *. unfold wrap_role.
  assert (Hr : r ∈ r :: pending) by left.
  assert (Hpend : ∀ r', r' ∈ pending → r' ∈ r :: pending) by (intros; by right).
  assert (Hne : ∀ r', r' ∈ pending → r ≠ r') by (intros r' H ->; done).
  assert (Hne' : ∀ r', r' ∈ done → r ≠ r') by (intros r' H ->; done).
  case_bool_decide as Hset; simpl.
  - (* the slot is set: [reset] *)
    assert (Hok1 : handle_ok (handle r s1) p1).
    { rewrite (Hsame r Hr). specialize (Hok r).
      destruct (handle r s) as [[b|]|] eqn:Hold; simpl in *; try done.
      by rewrite (Hframe r b Hr Hold). }
    destruct (reset_fdopen_run r s1 p1 (parent_slot r s) Hok1)
      as (ptr & p2 & Hrun & Hnewptr & Hstep).
    exists (set_handle r (Some ptr) s1, p2). split; [exact Hrun|].
    rewrite (Hsame r Hr) in Hstep.
    (* streams other than the new and the destroyed one are as they were *)
    assert (Hkeep : ∀ c, Some c ≠ ptr → handle r s ≠ Some (Some c) →
              p_files p2 !! c = p_files p1 !! c).
    { intros c Hc Hc'. destruct (handle r s) as [[b|]|].
      - destruct Hstep as (f & res & _ & _ & _ & Hfr & _). apply Hfr; congruence.
      - destruct Hstep as (_ & Hfr & _). by apply Hfr.
      - destruct Hstep as (_ & Hfr & _). by apply Hfr. }
    (* a stream of another role is neither *)
    assert (Hother : ∀ r' b, r ≠ r' → handle r' s1 = Some (Some b) →
              Some b ≠ ptr ∧ handle r s ≠ Some (Some b)).
    { intros r' b Hrr Hb. split.
      - intros <-. destruct Hnewptr as [Hnone _].
        destruct (Hlive r' b Hb) as [f Hf]. congruence.
      - intros Hb'. rewrite <- (Hsame r Hr) in Hb'.
        by apply (Hapart r r' b Hrr Hb'). }
    unfold wrapped. cbn [fst snd].
    split; [|split; [|split; [|split; [|split; [|split; [|split]]]]]].
    + intros r'. by rewrite parent_slot_set_handle, child_slot_set_handle.
    + by rewrite bufsiz_set_handle.
    + intros r' Hr'. rewrite handle_set_handle_ne by auto. auto.
    + intros r' b Hr' Hb.
      assert (Hb1 : handle r' s1 = Some (Some b)) by (by rewrite (Hsame r' (Hpend r' Hr'))).
      destruct (Hother r' b (Hne r' Hr') Hb1) as [H1 H2].
      rewrite (Hkeep b H1 H2). exact (Hframe r' b (Hpend r' Hr') Hb).
    + intros r' b Hb. destruct (decide (r = r')) as [<-|Hrr].
      * rewrite handle_set_handle in Hb. injection Hb as ->.
        destruct Hnewptr as [_ Hnew']. rewrite Hnew'. eauto.
      * rewrite handle_set_handle_ne in Hb by done.
        destruct (Hother r' b Hrr Hb) as [H1 H2]. rewrite (Hkeep b H1 H2).
        by apply (Hlive r').
    + intros r1 r2 b Hr12 Hb1 Hb2.
      destruct (decide (r = r1)) as [<-|Hr1].
      * rewrite handle_set_handle in Hb1. rewrite handle_set_handle_ne in Hb2 by done.
        destruct (Hother r2 b Hr12 Hb2) as [H1 _]. congruence.
      * rewrite handle_set_handle_ne in Hb1 by done.
        destruct (decide (r = r2)) as [<-|Hr2].
        -- rewrite handle_set_handle in Hb2.
           destruct (Hother r1 b Hr1 Hb1) as [H1 _]. congruence.
        -- rewrite handle_set_handle_ne in Hb2 by done. by apply (Hapart r1 r2 b).
    + intros r' a Hr' Hset' Ha. apply elem_of_app in Hr' as [Hr'|Hr'].
      * rewrite handle_set_handle_ne in Ha by auto.
        destruct (Hother r' a (Hne' r' Hr') Ha) as [H1 H2]. rewrite (Hkeep a H1 H2).
        by apply (Hnew r').
      * apply list_elem_of_singleton in Hr' as ->.
        rewrite handle_set_handle in Ha. injection Ha as ->. by destruct Hnewptr.
    + (* the trace and the descriptor table *)
      assert (Hev : ∃ l, p_trace p2 = p_trace p1 ++ l
                ∧ role_events r (Some ptr) l
                ∧ ∀ k, p_fds p2 !! k
                       = if bool_decide (k ∈ (fclosed l).*2) then None else p_fds p1 !! k).
      { unfold role_events. rewrite bool_decide_true by done.
        destruct (handle r s) as [[b|]|] eqn:Hold.
        - destruct Hstep as (f & res & Hf & Htr2 & _ & _ & Hfds2).
          rewrite (Hframe r b Hr Hold) in Hf.
          eexists. split; [exact Htr2|]. split; [exists ptr; split; [done|]; by exists f, res|].
          intros k. rewrite Hfds2.
          change ((fclosed _).*2) with [f_fd f].
          destruct (decide (k = f_fd f)) as [->|Hk].
          + rewrite bool_decide_true by set_solver. apply lookup_delete_eq.
          + rewrite bool_decide_false by set_solver. by apply lookup_delete_ne.
        - destruct Hstep as (Htr2 & _ & Hfds2).
          eexists. split; [exact Htr2|]. split; [by exists ptr|].
          intros k. rewrite Hfds2. change ((fclosed _).*2) with (@nil Z).
          rewrite bool_decide_false; [done|set_solver].
        - destruct Hstep as (Htr2 & _ & Hfds2).
          eexists. split; [exact Htr2|]. split; [by exists ptr|].
          intros k. rewrite Hfds2. change ((fclosed _).*2) with (@nil Z).
          rewrite bool_decide_false; [done|set_solver]. }
      destruct Hev as (l & Htr2 & Hl & Hfds2).
      exists (parts ++ [l]). rewrite concat_app. simpl. rewrite app_nil_r.
      split; [by rewrite Htr2, Htr, app_assoc|]. split.
      * apply Forall2_app.
        -- eapply Forall2_impl_elem; [exact Hparts|]. intros r' l' Hr' Hl'.
           rewrite handle_set_handle_ne by auto. exact Hl'.
        -- constructor; [|constructor]. by rewrite handle_set_handle.
      * intros k. rewrite Hfds2, Hfds. unfold fclosed. rewrite omap_app, fmap_app.
        repeat case_bool_decide; try done; set_solver.
  - (* the slot is unset: nothing happens *)
    exists (s1, p1). split; [done|]. unfold wrapped. cbn [fst snd].
    split; [done|]. split; [done|]. split; [auto|]. split; [eauto|].
    split; [done|]. split; [done|]. split.
    + intros r' a Hr' Hset' Ha. apply elem_of_app in Hr' as [Hr'|Hr'].
      * by apply (Hnew r').
      * apply list_elem_of_singleton in Hr' as ->. by destruct Hset'.
    + exists (parts ++ [[]]). rewrite concat_app. simpl. rewrite app_nil_r.
      split; [done|]. split; [|done].
      apply Forall2_app; [done|]. constructor; [|constructor].
      unfold role_events. rewrite bool_decide_false by (intros H; by apply H).
      split; [|done]. by apply Hsame.
Qed.

End wrap_parent_fds.

(** ** The loop over the handles *)

(** What [setvbuf] with a null buffer leaves in a [FILE]. *)
Definition set_buf (mode : bufmode) (f : FILE) : FILE :=
  MkFILE (f_fd f) (f_mode f) (Some (mode, None)).

(** The mode and the size the [switch] passes to [setvbuf]. *)
Definition setvbuf_mode (bufsiz : Z) : bufmode :=
  if bool_decide (bufsiz = 0 ∨ bufsiz = 1) then IONBF else IOFBF.

Definition setvbuf_size (bufsiz : Z) : Z :=
  if bool_decide (bufsiz = 0 ∨ bufsiz = 1) then to_size_t BUFSIZ else to_size_t bufsiz.

Definition setvbuf_event (bufsiz : Z) (a : nat) : syscall :=
  SysSetvbuf a None (setvbuf_mode bufsiz) (setvbuf_size bufsiz).

Lemma apply_bufsiz_run N a f p :
  p_files p !! a = Some f →
  apply_bufsiz N a p
  = (Return (), emit (setvbuf_event N a)
                  (set_files <[a := set_buf (setvbuf_mode N) f]> p)).
Proof.
  intros Hf.
  unfold apply_bufsiz, setvbuf_event, setvbuf_mode, setvbuf_size.
  repeat case_bool_decide; try (exfalso; naive_solver);
    unfold mbind, M_bind, sys_setvbuf; by rewrite Hf.
Qed.

Definition buffer_handle (N : Z) (h : option nat) : Obj Streams unit :=
  match h with
  | None => mret ()
  | Some a => sys (apply_bufsiz N a)
  end.

Lemma set_buf_idemp mode (o : option FILE) :
  set_buf mode <$> (set_buf mode <$> o) = set_buf mode <$> o.
Proof. by destruct o. Qed.

(** The loop applies [setvbuf] to the [FILE] of every handle of the
    list, in order, and to nothing else. *)
Lemma set_buffering_loop N (l : list (option nat)) (s : Streams) (p : proc) :
  (∀ a, Some a ∈ l → is_Some (p_files p !! a)) →
  ∃ p', for_each l (buffer_handle N) (s, p) = (Return (), (s, p'))
    ∧ p_fds p' = p_fds p
    ∧ p_trace p' = p_trace p ++ (setvbuf_event N <$> omap id l)
    ∧ ∀ a, p_files p' !! a
           = if bool_decide (Some a ∈ l) then set_buf (setvbuf_mode N) <$> p_files p !! a
             else p_files p !! a.
Proof.
  revert p. induction l as [|h l IH]; intros p Hlive.
  - exists p. split; [done|]. split; [done|]. split; [by rewrite app_nil_r|]. intros a.
    rewrite bool_decide_false; [done|]. apply not_elem_of_nil.
  - cbn [for_each]. destruct h as [b|]; cbn [buffer_handle].
    + destruct (Hlive b) as [f Hf]; [left|].
      erewrite bind_run by (apply sys_run, (apply_bufsiz_run N b f p Hf)).
      set (p1 := emit (setvbuf_event N b)
                   (set_files <[b := set_buf (setvbuf_mode N) f]> p)).
      destruct (IH p1) as (p' & Hrun & Hfds & Htr & Hfiles).
      { intros a Ha. simpl. destruct (decide (a = b)) as [->|Hab].
        - rewrite lookup_insert_eq. eauto.
        - rewrite lookup_insert_ne by done. apply Hlive. by right. }
      exists p'. split; [exact Hrun|]. split; [by rewrite Hfds|]. split.
      { rewrite Htr. simpl. by rewrite <- app_assoc. }
      intros a. rewrite Hfiles. simpl.
      destruct (decide (a = b)) as [->|Hab].
      * rewrite lookup_insert_eq, Hf. rewrite (bool_decide_true (Some b ∈ Some b :: l)) by left.
        case_bool_decide; done.
      * rewrite lookup_insert_ne by done.
        apply (f_equal (λ c : bool, if c then _ else _)).
        apply bool_decide_ext. rewrite elem_of_cons. naive_solver.
    + erewrite bind_run by reflexivity.
      destruct (IH p) as (p' & Hrun & Hfds & Htr & Hfiles).
      { intros a Ha. apply Hlive. by right. }
      exists p'. split; [exact Hrun|]. split; [done|]. split; [done|].
      intros a. rewrite Hfiles.
      apply (f_equal (λ c : bool, if c then _ else _)).
      apply bool_decide_ext. rewrite elem_of_cons. naive_solver.
Qed.

(** The pointers [setup_comm_channels] collects with [get()]. *)
Definition handles (s : Streams) : list (option nat) :=
  [get_ptr (input_ s); get_ptr (output_ s); get_ptr (error_ s)].

Lemma elem_of_handles a s :
  Some a ∈ handles s ↔ ∃ r, handle r s = Some (Some a).
Proof.
  unfold handles. split.
  - intros H. repeat (apply elem_of_cons in H as [H|H]).
    + exists ForInput. simpl. by destruct (input_ s) as [[]|]; simplify_eq/=.
    + exists ForOutput. simpl. by destruct (output_ s) as [[]|]; simplify_eq/=.
    + exists ForError. simpl. by destruct (error_ s) as [[]|]; simplify_eq/=.
    + by apply elem_of_nil in H.
  - intros [[] H]; simpl in H; rewrite H; simpl; set_solver.
Qed.

Lemma set_buffering_handles (s : Streams) (p : proc) :
  set_buffering (s, p) = for_each (handles s) (buffer_handle (bufsiz_ s)) (s, p).
Proof. reflexivity. Qed.

(** ** [setup_comm_channels] *)

(** [setup_comm_channels] on sound handles: it returns; the slots and
    the selector are as before; every line whose slot is set calls
    [fdopen] and then destroys the stream the handle owned; the loop
    calls [setvbuf] once for every handle that is not null; a
    descriptor is closed exactly when a destroyed stream wrapped it; and
    every stream a handle owns has got its buffering, the new ones on
    the descriptor of their slot. *)
Lemma setup_comm_channels_spec (s : Streams) (p : proc) :
  sound_handles s p →
  ∃ s' p' parts,
    setup_comm_channels (s, p) = (Return (), (s', p'))
    ∧ (∀ r, parent_slot r s' = parent_slot r s ∧ child_slot r s' = child_slot r s)
    ∧ bufsiz_ s' = bufsiz_ s
    ∧ Forall2 (λ r l, role_events s p r (handle r s') l) all_roles parts
    ∧ p_trace p' = p_trace p ++ concat parts
                     ++ (setvbuf_event (bufsiz_ s) <$> omap id (handles s'))
    ∧ (∀ k, p_fds p' !! k
            = if bool_decide (k ∈ (fclosed (concat parts)).*2) then None
              else p_fds p !! k)
    ∧ ∀ r a, handle r s' = Some (Some a) →
        ∃ f, p_files p' !! a = Some (set_buf (setvbuf_mode (bufsiz_ s)) f)
             ∧ (parent_slot r s ≠ -1 →
                f = MkFILE (parent_slot r s) (fdopen_mode r) None).
Proof.
  intros Hsound.
  destruct (wrap_role_step s p [] [ForOutput; ForError] ForInput (s, p) Hsound)
    as (st1 & Hrun1 & H1); [set_solver | set_solver | by apply wrapped_start |].
  destruct (wrap_role_step s p [ForInput] [ForError] ForOutput st1 Hsound)
    as (st2 & Hrun2 & H2); [set_solver | set_solver | exact H1 |].
  destruct (wrap_role_step s p [ForInput; ForOutput] [] ForError st2 Hsound)
    as ([s3 p3] & Hrun3 & H3); [set_solver | set_solver | exact H2 |].
  destruct H3 as (Hslots & Hbuf & _ & _ & Hlive & _ & Hnew & parts & Htr & Hparts & Hfds).
  cbn [fst snd] in *.
  destruct (set_buffering_loop (bufsiz_ s3) (handles s3) s3 p3)
    as (p' & Hrun4 & Hfds4 & Htr4 & Hfiles4).
  { intros a Ha. apply elem_of_handles in Ha as [r Hr]. by apply (Hlive r). }
  exists s3, p', parts. split.
  { unfold setup_comm_channels.
    assert (Hwrap : wrap_parent_fds (s, p) = (Return (), (s3, p3))).
    { rewrite wrap_parent_fds_roles.
      erewrite bind_run by exact Hrun1. erewrite bind_run by exact Hrun2.
      exact Hrun3. }
    erewrite bind_run by exact Hwrap. rewrite set_buffering_handles. exact Hrun4. }
  split; [exact Hslots|]. split; [exact Hbuf|]. split; [exact Hparts|].
  rewrite Hbuf in *. split.
  { by rewrite Htr4, Htr, <- app_assoc. }
  split.
  { intros k. by rewrite Hfds4. }
  intros r a Ha. destruct (Hlive r a Ha) as [f Hf].
  exists f. split.
  - rewrite Hfiles4, bool_decide_true, Hf; [done|].
    apply elem_of_handles. by exists r.
  - intros Hset. assert (Hr : r ∈ [ForInput; ForOutput] ++ [ForError]) by (destruct r; set_solver).
    rewrite (Hnew r a Hr Hset Ha) in Hf. by injection Hf as <-.
Qed.

Lemma role_events_calls s p r h l :
  role_events s p r h l →
  setvbuf_calls l = []
  ∧ Forall stdio_event l
  ∧ (parent_slot r s ≠ -1 →
     ∃ ptr, h = Some ptr ∧ (parent_slot r s, fdopen_mode r, ptr) ∈ fdopened l).
Proof.
  unfold role_events. case_bool_decide as Hset.
  - intros (ptr & -> & Hl). destruct (handle r s) as [[b|]|].
    + destruct Hl as (f & res & _ & ->). split; [done|]. split; [by repeat constructor|].
      intros _. exists ptr. split; [done|]. simpl. set_solver.
    + subst l. split; [done|]. split; [by repeat constructor|].
      intros _. exists ptr. split; [done|]. simpl. set_solver.
    + subst l. split; [done|]. split; [by repeat constructor|].
      intros _. exists ptr. split; [done|]. simpl. set_solver.
  - intros [-> ->]. split; [done|]. split; [constructor|]. done.
Qed.


Lemma fdopened_setvbuf_events N (l : list nat) : fdopened (setvbuf_event N <$> l) = [].
Proof. by induction l. Qed.

(** * The buffering selector *)

(** The discipline of a stream handle, as the specification names it;
    [LibraryBuffered] is block buffering with a block of the size the
    library chooses. *)
Inductive buffering :=
| Unbuffered
| LineBuffered
| BlockBuffered (block : Z)
| LibraryBuffered.



(** The selector as the [switch] reads it. *)
Definition installed (N : Z) : buffering :=
  if bool_decide (N = 0 ∨ N = 1) then Unbuffered else LibraryBuffered.











(** * Opening the error pipe *)

(** The descriptor table once [pipe_cloexec] has returned [(rd, wr)]. *)
Definition with_pipe (t : gmap Z fdesc) (id : nat) (rd wr : Z) : gmap Z fdesc :=
  <[wr := FDesc (PipeWr id) true]> (<[rd := FDesc (PipeRd id) true]> t).

Definition pipe_cloexec_events (rd wr : Z) : list syscall :=
  [SysPipe 0 rd wr; SysFcntlGetfd rd 0; SysFcntlSetfd rd 1 0;
   SysFcntlGetfd wr 0; SysFcntlSetfd wr 1 0].

Definition after_pipe_cloexec (p : proc) (rd wr : Z) : proc :=
  Proc (p_host p) (with_pipe (p_fds p) (p_npipes p) rd wr) (p_errno p)
       (p_environ p) (p_cwd p) (S (p_npipes p)) (p_files p) (p_fork p)
       (p_reads p) (p_waits p) (p_trace p ++ pipe_cloexec_events rd wr).

(** There is room for the two ends of a pipe. *)
Definition pipe_room (p : proc) (rd wr : Z) : Prop :=
  lowest_free (p_fds p) (rlimit_nofile (p_host p)) = Some rd
  ∧ lowest_free (<[rd := FDesc (PipeRd (p_npipes p)) false]> (p_fds p))
      (rlimit_nofile (p_host p)) = Some wr.

Lemma pipe_room_fresh p rd wr :
  pipe_room p rd wr → p_fds p !! rd = None ∧ p_fds p !! wr = None ∧ rd ≠ wr.
Proof.
  intros [H1 H2]. apply lowest_free_spec in H1 as [_ H1].
  apply lowest_free_spec in H2 as [_ H2].
  destruct (decide (rd = wr)) as [->|Hne].
  - by rewrite lookup_insert_eq in H2.
  - by rewrite lookup_insert_ne in H2.
Qed.

Definition cloexec_flags (d : fdesc) : Z := if fd_cloexec d then FD_CLOEXEC else 0.

Definition new_flags (set : bool) (flags : Z) : Z :=
  if set then Z.lor flags FD_CLOEXEC else Z.land flags (Z.lnot FD_CLOEXEC).

Lemma new_flags_bit set d : Z.testbit (new_flags set (cloexec_flags d)) 0 = set.
Proof. by destruct set, d as [f []]. Qed.

Lemma set_clo_on_exec_run fd set d p :
  p_fds p !! fd = Some d →
  util.set_clo_on_exec fd set p
  = (Return (),
     emit (SysFcntlSetfd fd (new_flags set (cloexec_flags d)) 0)
       (set_fds <[fd := FDesc (fd_file d) set]>
          (emit (SysFcntlGetfd fd (cloexec_flags d)) p))).
Proof.
  intros H. unfold util.set_clo_on_exec, mbind, M_bind, sys_fcntl_getfd.
  rewrite H. unfold sys_fcntl_setfd. simpl. rewrite H.
  by destruct set, d as [f []].
Qed.

Lemma pipe_cloexec_run p rd wr :
  pipe_room p rd wr →
  util.pipe_cloexec p = (Return (rd, wr), after_pipe_cloexec p rd wr).
Proof.
  intros Hroom. pose proof (pipe_room_fresh p rd wr Hroom) as (Hrd & Hwr & Hne).
  destruct Hroom as [H1 H2].
  unfold util.pipe_cloexec, mbind, M_bind, sys_pipe.
  rewrite H1, H2. cbn beta iota.
  rewrite bool_decide_false by (intros H; by apply H).
  erewrite set_clo_on_exec_run
    by (cbn [p_fds emit set_npipes set_fds];
        rewrite lookup_insert_ne, lookup_insert_eq by done; reflexivity).
  erewrite set_clo_on_exec_run
    by (cbn [p_fds emit set_npipes set_fds];
        rewrite lookup_insert_ne, lookup_insert_eq by done; reflexivity).
  cbn [fd_file cloexec_flags new_flags fd_cloexec].
  unfold mret, M_ret. f_equal. apply proc_eq; simpl; try reflexivity.
  - unfold with_pipe. apply map_eq. intros i.
    destruct (decide (i = wr)) as [->|Hiw]; [by rewrite !lookup_insert_eq|].
    rewrite !(lookup_insert_ne _ wr) by done.
    destruct (decide (i = rd)) as [->|Hir]; [by rewrite !lookup_insert_eq|].
    by rewrite !lookup_insert_ne by done.
  - by rewrite <- !app_assoc.
Qed.

Lemma pipe_cloexec_full p :
  (∀ rd wr, ¬ pipe_room p rd wr) →
  util.pipe_cloexec p
  = (Raise (mkOSError "pipe failure" EMFILE),
     emit (SysPipe (-1) 0 0) (set_errno EMFILE p)).
Proof.
  intros Hfull. unfold util.pipe_cloexec, mbind, M_bind, sys_pipe.
  destruct (lowest_free (p_fds p) _) as [rd|] eqn:H1; [|done].
  destruct (lowest_free (<[rd:=_]> (p_fds p)) _) as [wr|] eqn:H2; [|done].
  destruct (Hfull rd wr). by split.
Qed.

Lemma with_pipe_closed t id rd wr :
  t !! rd = None → t !! wr = None →
  delete wr (delete rd (with_pipe t id rd wr)) = t.
Proof.
  intros Hrd Hwr. unfold with_pipe. apply map_eq. intros i.
  destruct (decide (i = wr)) as [->|Hiw]; [by rewrite lookup_delete_eq|].
  rewrite lookup_delete_ne by done.
  destruct (decide (i = rd)) as [->|Hir]; [by rewrite lookup_delete_eq|].
  rewrite lookup_delete_ne by done. by rewrite !lookup_insert_ne.
Qed.

(** * Parent-owned and child-owned slots *)








(** The two ends of a specification, as its role sees them. *)
Definition child_end (r : stream_role) (ch : channel) : Z :=
  match r with
  | ForInput => rd_ch_ ch
  | ForOutput | ForError => wr_ch_ ch
  end.

Definition parent_end (r : stream_role) (ch : channel) : Z :=
  match r with
  | ForInput => wr_ch_ ch
  | ForOutput | ForError => rd_ch_ ch
  end.











(** * Failure of [fork] *)

(** The next [fork] fails. *)
Definition fork_fails (p : proc) : Prop :=
  match p_fork p with
  | [] => True
  | r :: _ => r < 0
  end.

Definition fork_result (p : proc) : Z :=
  match p_fork p with
  | [] => -1
  | r :: _ => r
  end.

(** "Resolve the executable name if unset". *)
Definition resolve_exe_name (o : Popen) : Popen :=
  if bool_decide (String.length (exe_name_ o) = 0%nat) then
    match vargs_ o with
    | v0 :: _ => set_exe_name_ v0 o
    | [] => o
    end
  else o.

(** The descriptors of the [close] calls of a trace. *)
Definition closed_fds (tr : list syscall) : list Z :=
  omap (λ ev, match ev with SysClose fd _ => Some fd | _ => None end) tr.

(** The specification's wording: the launcher is as before the call. *)
Definition launcher_untouched (o : Popen) (p : proc) : Prop :=
  (execute_process (o, p)).2.1 = o.

(** A launcher for [ls] built with no option and not yet launched, in a
    terminal process whose next [fork] fails. *)
Definition ls_launcher : Popen :=
  MkPopen Streams_init false false "" "" ∅ "" ["ls"] [Some 0%nat] (-1).

Definition no_more_processes : proc :=
  Proc (Host 16 16 ∅ ∅ ∅ {["ls"]} ∅ (Some []))
       {[0 := FDesc Tty false; 1 := FDesc Tty false; 2 := FDesc Tty false]}
       ENONE ∅ "/" 0 ∅ [-1] [] [] [].

(** C3, as stated, fails: the executable name is resolved before
    [fork] is called, and stays resolved when [fork] fails. *)
Lemma fork_failure_keeps_resolved_name :
  ¬ launcher_untouched ls_launcher no_more_processes
  ∧ (execute_process (ls_launcher, no_more_processes)).1
    = Raise (OSError "fork failed : Resource temporarily unavailable")
  ∧ exe_name_ ls_launcher = ""
  ∧ exe_name_ (execute_process (ls_launcher, no_more_processes)).2.1 = "ls".
Proof.
  split; [|by vm_compute].
  unfold launcher_untouched. intros H.
  apply (f_equal exe_name_) in H. vm_compute in H. discriminate H.
Qed.

Lemma fork_fails_result p : fork_fails p → fork_result p < 0.
Proof. unfold fork_fails, fork_result. by destruct (p_fork p). Qed.

(** The process after a failed [fork]. *)
Definition after_failed_fork (p : proc) : proc :=
  emit (SysFork (fork_result p)) (set_errno EAGAIN (set_fork (tail (p_fork p)) p)).

Lemma sys_fork_fails_run p :
  fork_fails p → sys_fork p = (Return (fork_result p), after_failed_fork p).
Proof.
  unfold after_failed_fork, fork_fails, fork_result, sys_fork, fails.
  destruct (p_fork p) as [|r rest] eqn:Hf; intros Hr.
  - f_equal. apply proc_eq; simpl; rewrite ?Hf; auto.
  - by rewrite bool_decide_true.
Qed.

Lemma resolve_exe_name_run (o : Popen) (p : proc) :
  exe_name_ o ≠ "" ∨ vargs_ o ≠ [] →
  (if bool_decide (String.length (exe_name_ o) = 0%nat) then
     match vargs_ o with
     | v0 :: _ => update (set_exe_name_ v0)
     | [] => halt Undefined
     end
   else mret ()) (o, p) = (Return (), (resolve_exe_name o, p)).
Proof.
  intros Hexe. unfold resolve_exe_name. case_bool_decide as Hlen; [|done].
  destruct (vargs_ o) as [|v0 vs]; [|done].
  destruct Hexe as [Hexe|Hexe]; [|done].
  destruct (exe_name_ o); [done | discriminate Hlen].
Qed.

Lemma fork_failed_run (o : Popen) (p : proc) rd wr d1 d2 :
  p_fds p !! rd = Some d1 →
  delete rd (p_fds p) !! wr = Some d2 →
  fork_failed rd wr (o, p)
  = (Raise (mkOSError "fork failed" (p_errno p)),
     (o, emit (SysClose wr 0) (set_fds (delete wr)
           (emit (SysClose rd 0) (set_fds (delete rd) p))))).
Proof.
  intros H1 H2. unfold fork_failed.
  erewrite bind_run by (eapply close_run, H1).
  erewrite bind_run by (eapply close_run; simpl; apply H2).
  reflexivity.
Qed.

(** C3, amended.  When [fork] fails, both ends of the error pipe are
    closed (the descriptor table is as before the call), an [OSError]
    is raised, and the launcher is as before the call but for two
    members: the executable name, resolved to the first token if it was
    empty, and the process identifier, which holds the negative result
    of [fork]: no process exists. *)
Theorem fork_failure_closes_pipe_and_raises (o : Popen) (p : proc) (rd wr : Z) :
  pipe_room p rd wr →
  fork_fails p →
  exe_name_ o ≠ "" ∨ vargs_ o ≠ [] →
  ∃ p',
    execute_process (o, p)
    = (Raise (OSError "fork failed : Resource temporarily unavailable"),
       (set_child_pid_ (fork_result p) (resolve_exe_name o), p'))
    ∧ fork_result p < 0
    ∧ p_fds p' = p_fds p
    ∧ closed_fds (new_events p p') = [rd; wr].
Proof.
  intros Hroom Hfork Hexe.
  pose proof (pipe_room_fresh p rd wr Hroom) as (Hrd & Hwr & Hne).
  eexists. split; [|split; [|split]].
  - unfold execute_process, exception_spec.
    erewrite bind_run by (apply sys_run, pipe_cloexec_run, Hroom).
    cbn beta iota. erewrite bind_run by reflexivity.
    erewrite bind_run by (apply resolve_exe_name_run, Hexe).
    erewrite bind_run by (apply sys_run, sys_fork_fails_run, Hfork).
    erewrite bind_run by reflexivity.
    rewrite bool_decide_true by (by apply fork_fails_result).
    erewrite fork_failed_run; [reflexivity | |].
    + simpl. unfold with_pipe. rewrite lookup_insert_ne by done.
      by rewrite lookup_insert_eq.
    + simpl. unfold with_pipe. rewrite lookup_delete_ne by done.
      by rewrite lookup_insert_eq.
  - by apply fork_fails_result.
  - simpl. apply with_pipe_closed; done.
  - unfold new_events. simpl. rewrite <- !app_assoc, drop_app_length. reflexivity.
Qed.

Lemma fork_failure_closes_pipe_and_raises_witness :
  ∃ p',
    execute_process (ls_launcher, no_more_processes)
    = (Raise (OSError "fork failed : Resource temporarily unavailable"),
       (set_child_pid_ (fork_result no_more_processes) (resolve_exe_name ls_launcher), p'))
    ∧ fork_result no_more_processes < 0
    ∧ p_fds p' = p_fds no_more_processes
    ∧ closed_fds (new_events no_more_processes p') = [3; 4].
Proof.
  apply (fork_failure_closes_pipe_and_raises ls_launcher no_more_processes 3 4).
  - split; vm_compute; reflexivity.
  - vm_compute. reflexivity.
  - right. discriminate.
Defined.

(** * The child's descriptor rewiring *)

(** The [dup2] calls of a trace, as (source, target). *)
Definition dup2_calls (tr : list syscall) : list (Z * Z) :=
  omap (λ ev, match ev with SysDup2 fd to_fd _ => Some (fd, to_fd) | _ => None end) tr.

(** The rewiring of one role, as the specification words it. *)
Definition spec_dup2 (fd to_fd : Z) : list (Z * Z) :=
  if bool_decide (fd = to_fd) then []
  else if bool_decide (fd ≠ -1) then [(fd, to_fd)] else [].

Definition spec_close (fd : Z) : list Z :=
  if bool_decide (fd ≠ -1 ∧ fd > 2) then [fd] else [].

(** The descriptor is unset or open. *)
Definition usable (p : proc) (fd : Z) : Prop :=
  fd = -1 ∨ is_Some (p_fds p !! fd).

Lemma set_clo_on_exec_closed fd set p :
  p_fds p !! fd = None →
  util.set_clo_on_exec fd set p
  = (Return (),
     emit (SysFcntlSetfd fd (new_flags set (-1)) (-1))
       (set_errno EBADF (emit (SysFcntlGetfd fd (-1)) (set_errno EBADF p)))).
Proof.
  intros H. unfold util.set_clo_on_exec, mbind, M_bind, sys_fcntl_getfd.
  rewrite H. unfold sys_fcntl_setfd, fails. simpl. rewrite H. by destruct set.
Qed.

Lemma sys_dup2_run fd to_fd d p :
  p_fds p !! fd = Some d →
  0 ≤ to_fd < Z.of_nat (rlimit_nofile (p_host p)) →
  fd ≠ to_fd →
  sys_dup2 fd to_fd p
  = (Return to_fd, emit (SysDup2 fd to_fd to_fd)
                     (set_fds <[to_fd := FDesc (fd_file d) false]> p)).
Proof.
  intros Hd Hlim Hne. unfold sys_dup2. rewrite Hd.
  rewrite bool_decide_true by done. by rewrite bool_decide_false.
Qed.

Lemma sys_dup2_closed fd to_fd p :
  p_fds p !! fd = None →
  sys_dup2 fd to_fd p
  = (Return (-1), emit (SysDup2 fd to_fd (-1)) (set_errno EBADF p)).
Proof. intros Hd. unfold sys_dup2. by rewrite Hd. Qed.

(** One system call of the rewiring: which call it is and, for
    [dup2], whether it works. *)
Inductive rewire_call :=
| GetFlags (fd : Z)                      (* [fcntl(fd, F_GETFD)] *)
| ClearCloexec (fd : Z)                  (* [fcntl(fd, F_SETFD, flags)], [FD_CLOEXEC] not in [flags] *)
| Dup2 (fd to_fd : Z) (works : bool)     (* [dup2(fd, to_fd)] *)
| Close (fd : Z).                        (* [close(fd)] *)

Definition is_call (c : rewire_call) (ev : syscall) : Prop :=
  match c, ev with
  | GetFlags fd, SysFcntlGetfd fd' _ => fd' = fd
  | ClearCloexec fd, SysFcntlSetfd fd' flags _ => fd' = fd ∧ Z.testbit flags 0 = false
  | Dup2 fd to_fd works, SysDup2 fd' to_fd' res =>
      fd' = fd ∧ to_fd' = to_fd ∧ res = (if works then to_fd else -1)
  | Close fd, SysClose fd' _ => fd' = fd
  | _, _ => False
  end.

(** Since the trace was [T0], the process has made the calls [plan],
    in this order, and no other system call. *)
Definition called (T0 : list syscall) (plan : list rewire_call) (p : proc) : Prop :=
  ∃ evs, p_trace p = T0 ++ evs ∧ Forall2 is_call plan evs.

Lemma called_refl p : called (p_trace p) [] p.
Proof. exists []. rewrite app_nil_r. split; [done|constructor]. Qed.

Lemma called_extend T0 plan plan' p q evs :
  p_trace q = p_trace p ++ evs →
  Forall2 is_call plan' evs →
  called T0 plan p →
  called T0 (plan ++ plan') q.
Proof.
  intros Hq Hev (evs0 & Htr & Hpl). exists (evs0 ++ evs). split.
  - by rewrite Hq, Htr, app_assoc.
  - by apply Forall2_app.
Qed.

(** The calls of one role, when its [dup2] works. *)
Definition rewire (role : Z * Z) : list rewire_call :=
  if bool_decide (role.1 = role.2) then [GetFlags role.1; ClearCloexec role.1]
  else if bool_decide (role.1 ≠ -1) then [Dup2 role.1 role.2 true] else [].

(** The role needs no [dup2], or its source is open in [p]. *)
Definition can_rewire (p : proc) (role : Z * Z) : Prop :=
  role.1 = role.2 ∨ usable p role.1.

(** The [dup2] of the role fails: its source is set, is not its target,
    is closed in [p], and is no target of the roles [done] before it. *)
Definition cannot_rewire (p : proc) (done : list (Z * Z)) (role : Z * Z) : Prop :=
  role.1 ≠ role.2 ∧ role.1 ≠ -1 ∧ p_fds p !! role.1 = None ∧ role.1 ∉ done.*2.

(** What the lambda leaves of the state [p0] in which the rewiring
    began, after the roles [done]. *)
Definition rewired (p0 : proc) (done : list (Z * Z)) (p : proc) : Prop :=
  p_host p = p_host p0
  ∧ (∀ k, is_Some (p_fds p0 !! k) → is_Some (p_fds p !! k))
  ∧ (∀ k, k ∉ done.*2 → p_fds p !! k = p_fds p0 !! k).

Lemma rewired_refl p : rewired p [] p.
Proof. by split. Qed.

Lemma _dup2__called (o : Popen) T0 plan p0 done (role : Z * Z) p :
  0 ≤ role.2 < Z.of_nat (rlimit_nofile (p_host p0)) →
  can_rewire p0 role →
  called T0 plan p → rewired p0 done p →
  ∃ p', sys (Child._dup2_ role.1 role.2) (o, p) = (Return (), (o, p'))
        ∧ called T0 (plan ++ rewire role) p'
        ∧ rewired p0 (done ++ [role]) p'.
Proof.
  destruct role as [fd to_fd]. cbn [fst snd].
  intros Hto Hcan Hcalled (Hhost & Hopen & Hsame).
  assert (Hdone : ∀ k, k ∉ (done ++ [(fd, to_fd)]).*2 → k ∉ done.*2 ∧ k ≠ to_fd).
  { intros k Hk. rewrite fmap_app, elem_of_app in Hk. simpl in Hk. set_solver. }
  unfold Child._dup2_, rewire. cbn [fst snd]. case_bool_decide as Heq.
  - (* source = target: F_GETFD, then F_SETFD without FD_CLOEXEC *)
    subst to_fd. destruct (p_fds p !! fd) as [d|] eqn:Hd.
    + erewrite sys_run by (apply (set_clo_on_exec_run fd false d p Hd)).
      eexists. split; [done|]. split; [|split; [done|split]].
      * eapply called_extend; [| |exact Hcalled].
        { simpl. by rewrite <- app_assoc. }
        repeat constructor. apply (new_flags_bit false d).
      * intros k Hk. simpl. destruct (decide (fd = k)) as [->|Hne].
        -- rewrite lookup_insert_eq. eauto.
        -- rewrite lookup_insert_ne by done. by apply Hopen.
      * intros k Hk. apply Hdone in Hk as [Hk Hne]. simpl.
        rewrite lookup_insert_ne by done. by apply Hsame.
    + erewrite sys_run by (apply (set_clo_on_exec_closed fd false p Hd)).
      eexists. split; [done|]. split; [|split; [done|split]].
      * eapply called_extend; [| |exact Hcalled].
        { simpl. by rewrite <- app_assoc. }
        repeat constructor.
      * intros k Hk. simpl. by apply Hopen.
      * intros k Hk. apply Hdone in Hk as [Hk Hne]. simpl. by apply Hsame.
  - case_bool_decide as Hset.
    + destruct Hcan as [Hcan|[Hcan|Hcan]]; [done | done |]. cbn [fst] in Hcan.
      destruct (Hopen fd Hcan) as [d Hd].
      assert (Hrun : Child._dup2_ fd to_fd p
                = (Return (), emit (SysDup2 fd to_fd to_fd)
                                (set_fds <[to_fd := FDesc (fd_file d) false]> p))).
      { unfold Child._dup2_. rewrite bool_decide_false, bool_decide_true by done.
        erewrite bind_run by (apply sys_dup2_run; [done | by rewrite Hhost | done]).
        rewrite bool_decide_false; [done|lia]. }
      unfold Child._dup2_ in Hrun. rewrite bool_decide_false, bool_decide_true in Hrun by done.
      erewrite sys_run by exact Hrun.
      eexists. split; [done|]. split; [|split; [done|split]].
      * eapply called_extend; [| |exact Hcalled]; [done|]. by repeat constructor.
      * intros k Hk. simpl. destruct (decide (to_fd = k)) as [->|Hne].
        -- rewrite lookup_insert_eq. eauto.
        -- rewrite lookup_insert_ne by done. by apply Hopen.
      * intros k Hk. apply Hdone in Hk as [Hk Hne]. simpl.
        rewrite lookup_insert_ne by done. by apply Hsame.
    + exists p. split; [done|]. rewrite app_nil_r. split; [done|]. split; [done|].
      split; [done|]. intros k Hk. apply Hdone in Hk as [Hk _]. by apply Hsame.
Qed.

Lemma _dup2__fails (o : Popen) T0 plan p0 done (role : Z * Z) p :
  cannot_rewire p0 done role →
  called T0 plan p → rewired p0 done p →
  ∃ p', sys (Child._dup2_ role.1 role.2) (o, p)
        = (Raise (OSError "dup2 failed : Bad file descriptor"), (o, p'))
        ∧ called T0 (plan ++ [Dup2 role.1 role.2 false]) p'.
Proof.
  destruct role as [fd to_fd]. cbn [fst snd].
  intros (Hne & Hset & Hclosed & Hnot) Hcalled (_ & _ & Hsame). cbn [fst snd] in *.
  assert (Hd : p_fds p !! fd = None) by (by rewrite Hsame).
  assert (Hrun : Child._dup2_ fd to_fd p
            = (Raise (OSError "dup2 failed : Bad file descriptor"),
               emit (SysDup2 fd to_fd (-1)) (set_errno EBADF p))).
  { unfold Child._dup2_. rewrite bool_decide_false, bool_decide_true by done.
    erewrite bind_run by (apply sys_dup2_closed, Hd).
    rewrite bool_decide_true by done. reflexivity. }
  erewrite sys_run by exact Hrun. eexists. split; [done|].
  eapply called_extend; [| |exact Hcalled]; [done|]. by repeat constructor.
Qed.

(** "Close the duped descriptors": one of the three [if]s. *)
Lemma close_duped_called (o : Popen) T0 plan fd p :
  called T0 plan p →
  ∃ p', when (bool_decide (fd ≠ -1) && bool_decide (fd > 2)) (close fd) (o, p)
        = (Return (), (o, p'))
        ∧ called T0 (plan ++ (Close <$> spec_close fd)) p'.
Proof.
  intros Hcalled. unfold spec_close.
  destruct (bool_decide (fd ≠ -1) && bool_decide (fd > 2)) eqn:Hc; cbn [when].
  - apply andb_true_iff in Hc as [H1 H2]. apply bool_decide_eq_true in H1, H2.
    rewrite bool_decide_true by done.
    destruct (p_fds p !! fd) as [d|] eqn:Hd.
    + rewrite (close_run o fd d p Hd). eexists. split; [done|].
      eapply called_extend; [| |exact Hcalled]; [done|]. by repeat constructor.
    + rewrite (close_closed o fd p Hd). eexists. split; [done|].
      eapply called_extend; [| |exact Hcalled]; [done|]. by repeat constructor.
  - rewrite bool_decide_false.
    + exists p. split; [done|]. by rewrite app_nil_r.
    + intros [H1 H2]. apply andb_false_iff in Hc as [Hc|Hc];
        apply bool_decide_eq_false in Hc; done.
Qed.

(** The three roles: the source slot and the target of each. *)
Definition roles (s : Streams) : list (Z * Z) :=
  [(read_from_parent_ s, 0); (write_to_parent_ s, 1); (err_write_ s, 2)].

(** The calls of the rewiring when the roles [good] are rewired and the
    first of [bad], if there is one, is where a [dup2] fails: the
    closes come after the last role, and only then. *)
Definition rewiring_plan (good bad : list (Z * Z)) : list rewire_call :=
  (good ≫= rewire)
  ++ match bad with
     | [] => Close <$> (good ≫= λ role, spec_close role.1)
     | role :: _ => [Dup2 role.1 role.2 false]
     end.

Definition rewiring_outcome (bad : list (Z * Z)) : outcome unit :=
  match bad with
  | [] => Return ()
  | _ :: _ => Raise (OSError "dup2 failed : Bad file descriptor")
  end.

(** The rewiring as the specification words it: every set source that
    is not its target is duplicated onto it, and afterwards every set
    source greater than 2 is closed. *)
Definition rewired_as_specified (o : Popen) (p : proc) : Prop :=
  let r := read_from_parent_ (stream_ o) in
  let w := write_to_parent_ (stream_ o) in
  let e := err_write_ (stream_ o) in
  let evs := new_events p (Child.create_std_streams (o, p)).2.2 in
  dup2_calls evs = spec_dup2 r 0 ++ spec_dup2 w 1 ++ spec_dup2 e 2
  ∧ closed_fds evs = spec_close r ++ spec_close w ++ spec_close e.

(** A child whose stdout goes to the pipe end 5 and whose stderr is
    descriptor 2 itself. *)
Definition stdout_pipe_child : Popen :=
  MkPopen (MkStreams None None None 0 (-1) (-1) 5 4 2 (-1))
          false false "ls" "" ∅ "" ["ls"] [Some 0%nat] 0.

Definition stdout_pipe_proc : proc :=
  Proc (Host 16 16 ∅ ∅ ∅ {["ls"]} ∅ (Some []))
       {[0 := FDesc Tty false; 1 := FDesc Tty false; 2 := FDesc Tty false;
         5 := FDesc (PipeWr 0) true; 7 := FDesc (PipeWr 1) true]}
       ENONE ∅ "/" 2 ∅ [] [] [] [].

(** The same child, but its stdin slot holds 9, a descriptor that is
    not open. *)
Definition stale_stdin_child : Popen :=
  MkPopen (MkStreams None None None 0 (-1) 9 5 4 2 (-1))
          false false "ls" "" ∅ "" ["ls"] [Some 0%nat] 0.

(** C8, as stated, fails: when the stdin source is set but not open,
    its [dup2] fails and the child throws; the stdout source 5 is not
    duplicated onto 1, and neither 9 nor 5 is closed. *)
Lemma closed_source_stops_the_rewiring :
  ¬ rewired_as_specified stale_stdin_child stdout_pipe_proc
  ∧ (Child.create_std_streams (stale_stdin_child, stdout_pipe_proc)).1
    = Raise (OSError "dup2 failed : Bad file descriptor")
  ∧ p_trace (Child.create_std_streams (stale_stdin_child, stdout_pipe_proc)).2.2
    = [SysDup2 9 0 (-1)].
Proof.
  split; [|by vm_compute].
  intros [H _]. vm_compute in H. discriminate H.
Qed.

(** C8, amended.  The rewiring handles the three roles in the order
    stdin, stdout, stderr, as long as no [dup2] fails: for a source
    equal to its target it reads the descriptor flags and writes them
    back without close-on-exec, and duplicates nothing; for any other
    set source it calls [dup2] onto the target; for an unset source it
    does nothing.  When the [dup2] of a role fails because its source
    is not open, the child throws "dup2 failed" at once: the roles
    after it are not rewired and nothing is closed.  When no [dup2]
    fails, the rewiring then closes the sources that are set and
    greater than 2, in the same order, and returns.  It makes no other
    system call and leaves the launcher as it is. *)
Theorem create_std_streams_rewires_until_a_dup2_fails
    (o : Popen) (p : proc) (good bad : list (Z * Z)) :
  roles (stream_ o) = good ++ bad →
  (3 ≤ rlimit_nofile (p_host p))%nat →
  Forall (can_rewire p) good →
  match bad with [] => True | role :: _ => cannot_rewire p good role end →
  ∃ p',
    Child.create_std_streams (o, p) = (rewiring_outcome bad, (o, p'))
    ∧ Forall2 is_call (rewiring_plan good bad) (new_events p p').
Proof.
  intros Hroles Hlim Hgood Hbad. unfold roles in Hroles.
  assert (Hfin : ∀ plan p', called (p_trace p) plan p' →
            Forall2 is_call plan (new_events p p')).
  { intros plan p' (evs & Htr & Hpl). unfold new_events.
    by rewrite Htr, drop_app_length. }
  pose proof (called_refl p) as Hc0. pose proof (rewired_refl p) as Hr0.
  assert (Hto : ∀ k, 0 ≤ k ≤ 2 → 0 ≤ k < Z.of_nat (rlimit_nofile (p_host p))) by lia.
  unfold Child.create_std_streams. erewrite bind_run by reflexivity.
  cbn [fst snd].
  set (r := read_from_parent_ (stream_ o)) in *.
  set (w := write_to_parent_ (stream_ o)) in *.
  set (e := err_write_ (stream_ o)) in *.
  destruct good as [|g1 [|g2 [|g3 [|g4 good]]]]; cbn [app] in Hroles; simplify_eq.
  - (* the [dup2] of stdin fails *)
    destruct (_dup2__fails o _ _ p [] (r, 0) p Hbad Hc0 Hr0) as (p1 & Hrun1 & Hc1).
    erewrite bind_raise by exact Hrun1.
    exists p1. split; [done|]. by apply Hfin.
  - (* the [dup2] of stdout fails *)
    apply Forall_cons in Hgood as [Hg1 _].
    destruct (_dup2__called o _ _ p _ (r, 0) p (Hto 0 ltac:(lia)) Hg1 Hc0 Hr0)
      as (p1 & Hrun1 & Hc1 & Hr1).
    erewrite bind_run by exact Hrun1.
    destruct (_dup2__fails o _ _ p _ (w, 1) p1 Hbad Hc1 Hr1) as (p2 & Hrun2 & Hc2).
    erewrite bind_raise by exact Hrun2.
    exists p2. split; [done|]. apply Hfin.
    match type of Hc2 with
    | called _ ?pl _ =>
        match goal with |- called _ ?g _ => replace g with pl; [exact Hc2|] end
    end.
    unfold rewiring_plan. cbn [mbind list_bind fst snd app].
    by rewrite ?app_nil_r, <- ?app_assoc.
  - (* the [dup2] of stderr fails *)
    apply Forall_cons in Hgood as [Hg1 Hgood]. apply Forall_cons in Hgood as [Hg2 _].
    destruct (_dup2__called o _ _ p _ (r, 0) p (Hto 0 ltac:(lia)) Hg1 Hc0 Hr0)
      as (p1 & Hrun1 & Hc1 & Hr1).
    erewrite bind_run by exact Hrun1.
    destruct (_dup2__called o _ _ p _ (w, 1) p1 (Hto 1 ltac:(lia)) Hg2 Hc1 Hr1)
      as (p2 & Hrun2 & Hc2 & Hr2).
    erewrite bind_run by exact Hrun2.
    destruct (_dup2__fails o _ _ p _ (e, 2) p2 Hbad Hc2 Hr2) as (p3 & Hrun3 & Hc3).
    erewrite bind_raise by exact Hrun3.
    exists p3. split; [done|]. apply Hfin.
    match type of Hc3 with
    | called _ ?pl _ =>
        match goal with |- called _ ?g _ => replace g with pl; [exact Hc3|] end
    end.
    unfold rewiring_plan. cbn [mbind list_bind fst snd app].
    by rewrite ?app_nil_r, <- ?app_assoc.
  - (* no [dup2] fails *)
    apply Forall_cons in Hgood as [Hg1 Hgood]. apply Forall_cons in Hgood as [Hg2 Hgood].
    apply Forall_cons in Hgood as [Hg3 _].
    destruct (_dup2__called o _ _ p _ (r, 0) p (Hto 0 ltac:(lia)) Hg1 Hc0 Hr0)
      as (p1 & Hrun1 & Hc1 & Hr1).
    erewrite bind_run by exact Hrun1.
    destruct (_dup2__called o _ _ p _ (w, 1) p1 (Hto 1 ltac:(lia)) Hg2 Hc1 Hr1)
      as (p2 & Hrun2 & Hc2 & Hr2).
    erewrite bind_run by exact Hrun2.
    destruct (_dup2__called o _ _ p _ (e, 2) p2 (Hto 2 ltac:(lia)) Hg3 Hc2 Hr2)
      as (p3 & Hrun3 & Hc3 & Hr3).
    erewrite bind_run by exact Hrun3.
    destruct (close_duped_called o _ _ r p3 Hc3) as (p4 & Hrun4 & Hc4).
    erewrite bind_run by exact Hrun4.
    destruct (close_duped_called o _ _ w p4 Hc4) as (p5 & Hrun5 & Hc5).
    erewrite bind_run by exact Hrun5.
    destruct (close_duped_called o _ _ e p5 Hc5) as (p6 & Hrun6 & Hc6).
    rewrite Hrun6. exists p6. split; [done|]. apply Hfin.
    match type of Hc6 with
    | called _ ?pl _ =>
        match goal with |- called _ ?g _ => replace g with pl; [exact Hc6|] end
    end.
    unfold rewiring_plan. cbn [mbind list_bind fst app].
    by rewrite ?app_nil_r, ?fmap_app, <- ?app_assoc.
Qed.

Lemma create_std_streams_rewires_until_a_dup2_fails_witness :
  (∃ p',
     Child.create_std_streams (stdout_pipe_child, stdout_pipe_proc)
     = (Return (), (stdout_pipe_child, p'))
     ∧ Forall2 is_call
         [Dup2 5 1 true; GetFlags 2; ClearCloexec 2; Close 5]
         (new_events stdout_pipe_proc p'))
  ∧ (∃ p',
       Child.create_std_streams (stale_stdin_child, stdout_pipe_proc)
       = (Raise (OSError "dup2 failed : Bad file descriptor"), (stale_stdin_child, p'))
       ∧ Forall2 is_call [Dup2 9 0 false] (new_events stdout_pipe_proc p')).
Proof.
  split.
  - apply (create_std_streams_rewires_until_a_dup2_fails stdout_pipe_child stdout_pipe_proc
             [(-1, 0); (5, 1); (2, 2)] []).
    + reflexivity.
    + vm_compute. lia.
    + apply Forall_cons. split; [right; by left|].
      apply Forall_cons. split; [right; right; vm_compute; eauto|].
      apply Forall_cons. split; [by left|]. constructor.
    + exact I.
  - apply (create_std_streams_rewires_until_a_dup2_fails stale_stdin_child stdout_pipe_proc
             [] [(9, 0); (5, 1); (2, 2)]).
    + reflexivity.
    + vm_compute. lia.
    + constructor.
    + unfold cannot_rewire. simpl. split; [lia|]. split; [lia|]. split; [by vm_compute|].
      apply not_elem_of_nil.
Defined.

(** * Re-duplication of low descriptors *)

(** What [dup(fd)] does when it returns [res]: the call is made; when
    [fd] is open and a descriptor below the limit is unused, [res] is
    the lowest such descriptor, which now refers to the open file of
    [fd], without close-on-exec; otherwise [res] is -1 and the table is
    as before. *)
Definition dup_result (before after : proc) (fd res : Z) : Prop :=
  p_trace after = p_trace before ++ [SysDup fd res]
  ∧ match p_fds before !! fd,
          lowest_free (p_fds before) (rlimit_nofile (p_host before)) with
    | Some d, Some n =>
        res = n ∧ p_fds before !! n = None
        ∧ p_fds after = <[n := FDesc (fd_file d) false]> (p_fds before)
    | _, _ => res = -1 ∧ p_fds after = p_fds before
    end.

Lemma sys_dup_spec (fd : Z) (p : proc) :
  ∃ res p', sys_dup fd p = (Return res, p') ∧ dup_result p p' fd res.
Proof.
  unfold sys_dup, dup_result, fails. destruct (p_fds p !! fd) as [d|] eqn:Hd.
  - destruct (lowest_free _ _) as [n|] eqn:Hn.
    + apply lowest_free_spec in Hn as [Hn0 Hn]. eexists _, _. split; [done|]. done.
    + eexists _, _. split; [done|]. done.
  - eexists _, _. split; [done|]. done.
Qed.

(** The slot [fd'] after the re-duplication step of a slot that held
    [fd]: when the step applies ([low]), [dup(fd)] is called and the
    slot gets its result; otherwise nothing happens. *)
Definition redup_of (before after : proc) (low : bool) (fd fd' : Z) : Prop :=
  if low then dup_result before after fd fd' else fd' = fd ∧ after = before.

(** The specification's wording of C7, for an error channel whose write
    end is [err_wr_pipe_]: after the normalisation no stream-role slot
    holds that number, and the rewiring that follows leaves the
    descriptor in place. *)
Definition error_channel_protected (err_wr_pipe_ : Z) (o : Popen) (p : proc) : Prop :=
  let s1 := (Child.redup_low_fds (o, p)).2 in
  let s2 := ((Child.redup_low_fds;; Child.create_std_streams) (o, p)).2 in
  Forall (λ fd, fd ≠ err_wr_pipe_)
    [read_from_parent_ (stream_ s1.1); write_to_parent_ (stream_ s1.1);
     err_write_ (stream_ s1.1)]
  ∧ p_fds s2.2 !! err_wr_pipe_ = p_fds p !! err_wr_pipe_.

(** A child whose stdout slot holds 7, the number of the error
    channel's write end, and which is to run a program that does not
    exist. *)
Definition colliding_child : Popen :=
  MkPopen (MkStreams None None None 0 (-1) (-1) 7 4 (-1) (-1))
          false false "no-such-program" "" ∅ "" ["no-such-program"] [Some 0%nat] 0.

(** C7, as stated, fails: the slot equal to the error channel's number
    is not re-duplicated, the rewiring closes descriptor 7, and the
    child's report of the failed [execvp] cannot be written. *)
Lemma error_channel_number_is_not_compared :
  ¬ error_channel_protected 7 colliding_child stdout_pipe_proc
  ∧ write_to_parent_ (stream_ (Child.redup_low_fds (colliding_child, stdout_pipe_proc)).2.1) = 7
  ∧ p_fds (Child.execute_child 7 (colliding_child, stdout_pipe_proc)).2.2 !! 7 = None
  ∧ last (p_trace (Child.execute_child 7 (colliding_child, stdout_pipe_proc)).2.2)
    = Some (SysWriteFd 7 "execve failed : No such file or directory" (-1)).
Proof.
  split; [|by vm_compute].
  intros [H _]. apply Forall_cons in H as [_ H]. apply Forall_cons in H as [H _].
  apply H. by vm_compute.
Qed.

(** One re-duplication step: [if (low) slot = dup(slot);]. *)
Lemma redup_step (low : bool) (fd : Z) (set : Z → Streams → Streams)
    (o : Popen) (p : proc) :
  ∃ fd' p',
    when low (fd' ← sys (sys_dup fd); update_stream (set fd')) (o, p)
    = (Return (), (if low then set_stream_ (set fd' (stream_ o)) o else o, p'))
    ∧ redup_of p p' low fd fd'.
Proof.
  destruct low; simpl.
  - destruct (sys_dup_spec fd p) as (res & p' & Hrun & Hres).
    exists res, p'. split; [|done].
    erewrite bind_run by (apply sys_run, Hrun). reflexivity.
  - by exists fd, p.
Qed.

(** C7, amended.  Before the duplication onto 0/1/2 the child
    re-duplicates the stdout slot when it holds 0 and then the stderr
    slot when it holds 0 or 1, the targets of the duplications that
    come before theirs.  For such a slot it calls [dup] once and stores
    the result in the slot: the lowest unused descriptor, now open on
    the same file without close-on-exec, or -1 when the slot's
    descriptor is not open or no descriptor is free.  Every other
    slot, also one that holds the number of the error channel, is left
    as it is, and no system call is made for it. *)
Theorem redup_low_fds_compares_with_targets (o : Popen) (p : proc) :
  let w := write_to_parent_ (stream_ o) in
  let e := err_write_ (stream_ o) in
  ∃ w' e' p1 p',
    Child.redup_low_fds (o, p)
    = (Return (),
       (set_stream_ (set_err_write_ e' (set_write_to_parent_ w' (stream_ o))) o, p'))
    ∧ redup_of p p1 (bool_decide (w = 0)) w w'
    ∧ redup_of p1 p' (bool_decide (e = 0) || bool_decide (e = 1)) e e'.
Proof.
  intros w e. unfold Child.redup_low_fds.
  erewrite bind_run by reflexivity. cbn beta. fold w.
  destruct (redup_step (bool_decide (w = 0)) w set_write_to_parent_ o p)
    as (w' & p1 & Hrun1 & Hw).
  erewrite bind_run by exact Hrun1.
  erewrite bind_run by reflexivity. cbn beta.
  set (o1 := if bool_decide (w = 0)
             then set_stream_ (set_write_to_parent_ w' (stream_ o)) o else o).
  assert (He1 : err_write_ (stream_ (o1, p1).1) = e).
  { subst o1. by destruct (bool_decide (w = 0)). }
  rewrite He1.
  destruct (redup_step (bool_decide (e = 0) || bool_decide (e = 1)) e
              set_err_write_ o1 p1) as (e' & p' & Hrun2 & He).
  rewrite Hrun2. exists w', e', p1, p'. split; [|done].
  f_equal. f_equal. subst o1.
  destruct (bool_decide (w = 0)) eqn:Hw0, (bool_decide (e = 0) || bool_decide (e = 1)) eqn:He0;
    simpl in Hw, He |- *.
  - done.
  - destruct He as [-> _]. by destruct o as [[]].
  - destruct Hw as [-> _]. by destruct o as [[]].
  - destruct Hw as [-> _], He as [-> _]. by destruct o as [[]].
Qed.

(** A child whose stdout is to go to descriptor 0 and whose stderr to
    descriptor 1, in a terminal process. *)
Definition crossed_child : Popen :=
  MkPopen (MkStreams None None None 0 (-1) (-1) 0 (-1) 1 (-1))
          false false "ls" "" ∅ "" ["ls"] [Some 0%nat] 0.

Definition terminal_proc : proc :=
  Proc (Host 16 16 ∅ ∅ ∅ {["ls"]} ∅ (Some []))
       {[0 := FDesc Tty false; 1 := FDesc Tty false; 2 := FDesc Tty false]}
       ENONE ∅ "/" 0 ∅ [] [] [] [].

Lemma redup_low_fds_compares_with_targets_witness :
  ∃ p1 p',
    Child.redup_low_fds (crossed_child, terminal_proc)
    = (Return (),
       (set_stream_ (set_err_write_ 4 (set_write_to_parent_ 3 (stream_ crossed_child)))
          crossed_child, p'))
    ∧ redup_of terminal_proc p1 true 0 3
    ∧ redup_of p1 p' true 1 4.
Proof.
  destruct (redup_low_fds_compares_with_targets crossed_child terminal_proc)
    as (w' & e' & p1 & p' & Hrun & Hw & He).
  assert (Hslots : w' = 3 ∧ e' = 4).
  { apply (f_equal (λ r, (write_to_parent_ (stream_ r.2.1), err_write_ (stream_ r.2.1))))
      in Hrun.
    vm_compute in Hrun. by injection Hrun as <- <-. }
  destruct Hslots as [-> ->]. by exists p1, p'.
Defined.

(** * The child's environment *)

(** [quiet m]: [m] returns or throws; it never stops the process. *)
Definition raises (x : abnormal) : Prop :=
  match x with ARaise _ => True | AStop _ => False end.

Definition quiet {S A} (m : M S A) : Prop :=
  hoare (λ _, True) m (λ _ _, True) (λ x _, raises x).

Section quiet_rules.
Context {S : Type}.

Lemma quiet_ret {A} (a : A) : quiet (mret (M := M S) a).
Proof. by apply hoare_ret. Qed.

Lemma quiet_bind {A B} (m : M S A) (f : A → M S B) :
    quiet m → (∀ a, quiet (f a)) → quiet (m ≫= f).
Proof. intros Hm Hf. eapply hoare_bind; [exact Hm|]. intros a. apply Hf. Qed.

Lemma quiet_gets {A} (g : S → A) : quiet (gets g).
Proof. by apply hoare_gets. Qed.

Lemma quiet_modify (g : S → S) : quiet (modify g).
Proof. by apply hoare_modify. Qed.

Lemma quiet_throw {A} e : quiet (throw (S := S) (A := A) e).
Proof. by apply hoare_throw. Qed.

Lemma quiet_when (c : bool) (m : M S unit) : quiet m → quiet (when c m).
Proof. intros H. apply hoare_when; auto. Qed.

Lemma quiet_if {A} (c : bool) (m1 m2 : M S A) :
    quiet m1 → quiet m2 → quiet (if c then m1 else m2).
Proof. by destruct c. Qed.

Lemma quiet_for_each {A} (l : list A) (body : A → M S unit) :
    (∀ x, quiet (body x)) → quiet (for_each l body).
Proof. intros Hb. apply hoare_for_each. intros x _. apply Hb. Qed.

End quiet_rules.

Lemma quiet_sys {O A} (m : Sys A) : quiet m → quiet (sys (O := O) m).
Proof. intros Hm. apply hoare_sys. intros o. exact Hm. Qed.

Ltac quiet_prim :=
  let p := fresh "p" in
  intros p _; unfold hoare, fails; simpl; repeat case_match; simplify_eq/=; done.

Lemma quiet_sys_close fd : quiet (sys_close fd).
Proof. unfold sys_close. quiet_prim. Qed.

Lemma quiet_sys_dup fd : quiet (sys_dup fd).
Proof. unfold sys_dup. quiet_prim. Qed.

Lemma quiet_sys_dup2 fd to_fd : quiet (sys_dup2 fd to_fd).
Proof. unfold sys_dup2. quiet_prim. Qed.

Lemma quiet_sys_fcntl_getfd fd : quiet (sys_fcntl_getfd fd).
Proof. unfold sys_fcntl_getfd. quiet_prim. Qed.

Lemma quiet_sys_fcntl_setfd fd flags : quiet (sys_fcntl_setfd fd flags).
Proof. unfold sys_fcntl_setfd. quiet_prim. Qed.

Lemma quiet_sys_sysconf_open_max : quiet sys_sysconf_open_max.
Proof. unfold sys_sysconf_open_max. quiet_prim. Qed.

Lemma quiet_sys_chdir path : quiet (sys_chdir path).
Proof. unfold sys_chdir. quiet_prim. Qed.

Lemma quiet_sys_write fd data : quiet (sys_write fd data).
Proof. unfold sys_write. quiet_prim. Qed.

Lemma quiet_sys_setenv name value ow : quiet (sys_setenv name value ow).
Proof. unfold sys_setenv. quiet_prim. Qed.

Ltac quiet_go :=
  repeat first
    [ apply quiet_ret | apply quiet_throw | apply quiet_gets | apply quiet_modify
    | apply quiet_sys_close | apply quiet_sys_dup | apply quiet_sys_dup2
    | apply quiet_sys_fcntl_getfd | apply quiet_sys_fcntl_setfd
    | apply quiet_sys_sysconf_open_max | apply quiet_sys_chdir
    | apply quiet_sys_write | apply quiet_sys_setenv
    | apply quiet_sys
    | apply quiet_when | apply quiet_if
    | apply quiet_bind; [| intros ?] ].

Lemma quiet_close {O} fd : quiet (close (O := O) fd).
Proof. unfold close. quiet_go. Qed.

Lemma quiet__dup2_ fd to_fd : quiet (Child._dup2_ fd to_fd).
Proof. unfold Child._dup2_, util.set_clo_on_exec. quiet_go. Qed.

Lemma quiet_redup_low_fds : quiet Child.redup_low_fds.
Proof. unfold Child.redup_low_fds, update_stream, update. quiet_go. Qed.

Lemma quiet_create_std_streams : quiet Child.create_std_streams.
Proof.
  unfold Child.create_std_streams.
  repeat first [ apply quiet_gets | apply quiet_sys, quiet__dup2_
               | apply quiet_when, quiet_close
               | apply quiet_bind; [| intros ?] ].
Qed.

Lemma quiet_close_inherited_fds err_wr_pipe_ :
  quiet (Child.close_inherited_fds err_wr_pipe_).
Proof.
  unfold Child.close_inherited_fds, this, errno.
  apply quiet_bind; [apply quiet_gets|]. intros o. apply quiet_when.
  apply quiet_bind; [quiet_go|]. intros max_fd. apply quiet_if; [quiet_go|].
  apply quiet_for_each. intros i. apply quiet_if; [apply quiet_ret | apply quiet_close].
Qed.

Lemma quiet_change_directory : quiet Child.change_directory.
Proof. unfold Child.change_directory, this, errno. quiet_go. Qed.

Lemma quiet_write_n fd buf len : quiet (util.write_n fd buf len).
Proof.
  unfold util.write_n. generalize 0. generalize len at 1 as passes.
  induction passes as [|passes IH]; intros nwritten; cbn [util.write_n_loop].
  - quiet_go.
  - apply quiet_if; [|apply quiet_ret].
    apply quiet_bind; [apply quiet_sys_write|]. intros written.
    apply quiet_if; [apply quiet_ret | apply IH].
Qed.

Lemma hoare_keeps_quiet {S A} (I : S → Prop) (m : M S A) :
  keeps I m → quiet m → hoare I m (λ _, I) (λ x _, raises x).
Proof.
  intros Hk Hq s Hs. specialize (Hk s Hs). specialize (Hq s Logic.I).
  destruct (ending (m s).1); done.
Qed.

(** What one [setenv(name, value, 1)] of the loop does to the
    environment. *)
Definition setenv_step (E : gmap string string) (kv : string * string)
    : gmap string string :=
  if env_name_ok (c_str kv.1) then <[c_str kv.1 := c_str kv.2]> E else E.

(** The environment the mapping [m] leaves, starting from [E]. *)
Definition apply_env (m : gmap string string) (E : gmap string string)
    : gmap string string :=
  foldl setenv_step E (map_items m).

Lemma for_each_setenv_run (l : list (string * string)) (o : Popen) (p : proc) :
  ∃ p',
    for_each l (λ kv, sys (sys_setenv (c_str kv.1) (c_str kv.2) true);; mret ()) (o, p)
    = (Return (), (o, p'))
    ∧ p_environ p' = foldl setenv_step (p_environ p) l
    ∧ p_host p' = p_host p.
Proof.
  revert p. induction l as [|kv l IH]; intros p; [by exists p|].
  cbn [for_each foldl]. unfold setenv_step at 2.
  assert (Hstep : ∃ p1, (sys (O := Popen) (sys_setenv (c_str kv.1) (c_str kv.2) true);; mret ())
                          (o, p) = (Return (), (o, p1))
                        ∧ p_environ p1 = setenv_step (p_environ p) kv
                        ∧ p_host p1 = p_host p).
  { unfold setenv_step, mbind, M_bind, sys, sys_setenv, fails.
    destruct (env_name_ok (c_str kv.1)); simpl; by eexists. }
  destruct Hstep as (p1 & Hrun1 & Henv1 & Hhost1).
  erewrite bind_run by exact Hrun1.
  destruct (IH p1) as (p' & Hrun & Henv & Hhost). exists p'.
  split; [exact Hrun|]. rewrite Henv, Henv1, Hhost, Hhost1. split; [|done].
  reflexivity.
Qed.

(** The environment of the image, if the ending is a new image. *)
Definition image_environ_is (X : gmap string string) (x : abnormal) : Prop :=
  match x with
  | AStop (Replaced img) => img_environ img = X
  | _ => True
  end.

Lemma replace_image_environ (m E : gmap string string) :
  size m ≠ 0%nat →
  hoare (λ s, env_ s.1 = m ∧ p_environ s.2 = E)
    Child.replace_image
    (λ _ _, True)
    (λ x _, image_environ_is (apply_env m E) x).
Proof.
  intros Hsz [o p] [Hm HE]. simpl in Hm, HE. unfold Child.replace_image.
  erewrite bind_run by reflexivity. cbn [fst]. rewrite Hm.
  rewrite (bool_decide_false (size m = 0%nat)) by done. cbn [negb].
  destruct (for_each_setenv_run (map_items m) o p) as (p' & Hrun & Henv & Hhost).
  unfold mbind at 1, M_bind at 1. unfold mbind at 1, M_bind at 1. rewrite Hrun.
  unfold sys, sys_execvp, fails.
  case_bool_decide; simpl; [|done].
  destruct (until_null _ _); simpl; [|done].
  unfold apply_env. by rewrite Henv, HE.
Qed.

Lemma execute_child_environ (err_wr_pipe_ : Z) (m E : gmap string string) :
  size m ≠ 0%nat →
  hoare (λ s, env_ s.1 = m ∧ p_environ s.2 = E)
    (Child.execute_child err_wr_pipe_)
    (λ _ _, True)
    (λ x _, image_environ_is (apply_env m E) x).
Proof.
  intros Hsz. unfold Child.execute_child.
  set (K := λ o : Popen, env_ o = m). set (T := λ p : proc, p_environ p = E).
  assert (Hst : stable T (λ _, True)) by apply environ_stable.
  assert (HK : ∀ s o, K o → K (set_stream_ s o)) by done.
  assert (Hpre : ∀ A (step : Obj Popen A),
            keeps (Inv K T) step → quiet step →
            hoare (Inv K T) step (λ _, Inv K T)
              (λ x _, image_environ_is (apply_env m E) x)).
  { intros A step Hk Hq. eapply hoare_conseq;
      [apply (hoare_keeps_quiet _ _ Hk Hq) | intros ? HP; exact HP
      | intros ? ? HQ; exact HQ | ].
    by intros [e|x] _ Hx. }
  eapply hoare_bind with (Qm := λ _ _, True).
  - eapply hoare_try_catch with (Eb := λ x _, image_environ_is (apply_env m E) x).
    + eapply hoare_bind;
        [apply Hpre; [by apply (keeps_redup_low_fds K T (λ _, True)) | apply quiet_redup_low_fds]|].
      intros []. eapply hoare_bind;
        [apply Hpre; [by apply (keeps_create_std_streams K T (λ _, True))
                     | apply quiet_create_std_streams]|].
      intros []. eapply hoare_bind;
        [apply Hpre; [by apply (keeps_close_inherited_fds K T (λ _, True))
                     | apply quiet_close_inherited_fds]|].
      intros []. eapply hoare_bind;
        [apply Hpre; [by apply (keeps_change_directory K T (λ _, True))
                     | apply quiet_change_directory]|].
      intros []. by apply replace_image_environ.
    + intros e _. eapply hoare_conseq with (P' := λ _, True) (Q' := λ _ _, True)
                    (E' := λ x _, raises x); [| done | done |].
      * apply quiet_bind; [apply quiet_sys, quiet_write_n | intros; apply quiet_ret].
      * by intros [e'|x] _ Hx.
    + done.
    + done.
  - intros []. apply hoare_sys. intros o. by apply hoare_halt.
Qed.

Lemma map_items_elem_of (m : gmap string string) k v :
  (k, v) ∈ map_items m ↔ m !! k = Some v.
Proof.
  unfold map_items. rewrite merge_sort_Permutation. apply elem_of_map_to_list.
Qed.

Lemma map_items_NoDup (m : gmap string string) : NoDup (map_items m).*1.
Proof.
  unfold map_items. rewrite merge_sort_Permutation. apply NoDup_fst_map_to_list.
Qed.

(** A variable that no entry names is left alone. *)
Lemma foldl_setenv_other (l : list (string * string)) E n :
  (∀ kv, kv ∈ l → c_str kv.1 ≠ n) →
  foldl setenv_step E l !! n = E !! n.
Proof.
  revert E. induction l as [|kv l IH]; intros E Hl; [done|]. simpl.
  rewrite IH by (intros kv' Hkv'; apply Hl; by right).
  unfold setenv_step. destruct (env_name_ok (c_str kv.1)); [|done].
  apply lookup_insert_ne, Hl. by left.
Qed.

(** A valid name that one entry gives gets that entry's value. *)
Lemma foldl_setenv_key (l : list (string * string)) E k v :
  NoDup l.*1 →
  (∀ kv, kv ∈ l → c_str kv.1 = kv.1) →
  (k, v) ∈ l →
  env_name_ok k = true →
  foldl setenv_step E l !! k = Some (c_str v).
Proof.
  revert E. induction l as [|kv l IH]; intros E Hnd Hc Hin Hok.
  { by apply elem_of_nil in Hin. }
  simpl in Hnd. apply NoDup_cons in Hnd as [Hnotin Hnd]. simpl.
  apply elem_of_cons in Hin as [<-|Hin].
  - rewrite foldl_setenv_other.
    + pose proof (Hc (k, v) ltac:(left)) as Hck. simpl in Hck.
      unfold setenv_step. simpl. rewrite Hck, Hok. apply lookup_insert_eq.
    + intros kv' Hkv' Heq. apply Hnotin. simpl.
      rewrite (Hc kv') in Heq by (by right). rewrite <- Heq.
      apply list_elem_of_fmap. by exists kv'.
  - apply IH; auto. intros kv' Hkv'. apply Hc. by right.
Qed.

(** The specification's wording of C1: the image sees the mapping and
    nothing else. *)
Definition sees_exactly (m : gmap string string) (img : image) : Prop :=
  (∀ k v, m !! k = Some v → img_environ img !! k = Some v)
  ∧ (∀ n, m !! n = None → img_environ img !! n = None).

(** The image a stopped run leaves, if any. *)
Definition image_of {A} (r : outcome A) : option image :=
  match r with
  | Stop (Replaced img) => Some img
  | _ => None
  end.

(** The child of a terminal process whose environment holds [HOME]:
    [fork] returns 0 in it. *)
Definition child_with_home : proc :=
  Proc (Host 16 16 ∅ ∅ ∅ {["ls"]} ∅ (Some []))
       {[0 := FDesc Tty false; 1 := FDesc Tty false; 2 := FDesc Tty false]}
       ENONE {["HOME" := "/root"]} "/" 0 ∅ [0] [] [] [].

Definition ls_with_X : Obj Popen unit :=
  Popen_ctor ["ls"] [environment {["X" := "1"]}].

(** C1, as stated, fails: launched with the mapping [{X: 1}], [ls]
    still sees the parent's [HOME]. *)
Lemma parent_variable_stays_visible :
  ∃ img,
    image_of (ls_with_X (Popen_init, child_with_home)).1 = Some img
    ∧ env_ (ls_with_X (Popen_init, child_with_home)).2.1 = {["X" := "1"]}
    ∧ img_environ img !! "X" = Some "1"
    ∧ img_environ img !! "HOME" = Some "/root"
    ∧ ¬ sees_exactly {["X" := "1"]} img.
Proof.
  eexists. split; [vm_compute; reflexivity|].
  split; [by vm_compute|]. split; [by vm_compute|]. split; [by vm_compute|].
  intros [_ H]. specialize (H "HOME" eq_refl). vm_compute in H. discriminate H.
Qed.

(** C1, amended.  With a non-empty mapping whose keys are variable
    names (not empty, without ['='] or NUL), the image that replaces
    the child sees the parent's environment overridden by the mapping:
    every mapped key has its mapped value (up to its first NUL), and a
    variable that is not a key of the mapping is as in the parent's
    environment, so a parent's variable absent from the mapping stays
    visible. *)
Theorem child_environment_overrides_parent
    (err_wr_pipe_ : Z) (o : Popen) (p : proc) (img : image) :
  size (env_ o) ≠ 0%nat →
  (∀ k, is_Some (env_ o !! k) → c_str k = k ∧ env_name_ok k = true) →
  (Child.execute_child err_wr_pipe_ (o, p)).1 = Stop (Replaced img) →
  (∀ k v, env_ o !! k = Some v → img_environ img !! k = Some (c_str v))
  ∧ (∀ n, env_ o !! n = None → img_environ img !! n = p_environ p !! n).
Proof.
  intros Hsz Hkeys Hrun.
  pose proof (execute_child_environ err_wr_pipe_ (env_ o) (p_environ p) Hsz (o, p)
                (conj eq_refl eq_refl)) as H.
  rewrite Hrun in H. simpl in H. rewrite H. unfold apply_env. split.
  - intros k v Hkv. apply foldl_setenv_key.
    + apply map_items_NoDup.
    + intros [k' v'] Hin. apply map_items_elem_of in Hin. simpl.
      by apply Hkeys.
    + by apply map_items_elem_of.
    + by apply Hkeys.
  - intros n Hn. apply foldl_setenv_other. intros [k' v'] Hin Heq.
    apply map_items_elem_of in Hin. simpl in Heq.
    destruct (Hkeys k') as [Hc _]; [by eexists|]. congruence.
Qed.

(** The child of [child_with_home] once the constructor has called
    [fork]: the error pipe is open on 3 and 4. *)
Definition forked_child : Popen * proc :=
  ((Popen_ctor ["ls"] [executable "ls"; environment {["X" := "1"]}; defer_spawn true]
    ≫= λ _, sys util.pipe_cloexec) (Popen_init, child_with_home)).2.

Definition image_of_forked_child : image :=
  default (Image "" [] ∅ ∅)
    (image_of (Child.execute_child 4 (forked_child.1, forked_child.2)).1).

Lemma child_environment_overrides_parent_witness :
  (∀ k v, env_ forked_child.1 !! k = Some v →
          img_environ image_of_forked_child !! k = Some (c_str v))
  ∧ (∀ n, env_ forked_child.1 !! n = None →
          img_environ image_of_forked_child !! n = p_environ forked_child.2 !! n).
Proof.
  apply (child_environment_overrides_parent 4 forked_child.1 forked_child.2).
  - vm_compute. lia.
  - intros k Hk. assert (Henv : env_ forked_child.1 = {["X" := "1"]}) by (by vm_compute).
    rewrite Henv in Hk. destruct (decide (k = "X")) as [->|Hne].
    + by vm_compute.
    + rewrite lookup_singleton_ne in Hk by done. by destruct Hk.
  - vm_compute. reflexivity.
Defined.

(** * The launch error *)

(** [calm m]: [m] always returns. *)
Definition calm {S A} (m : M S A) : Prop :=
  hoare (λ _, True) m (λ _ _, True) (λ _ _, False).

Section calm_rules.
Context {S : Type}.

Lemma calm_ret {A} (a : A) : calm (mret (M := M S) a).
Proof. by apply hoare_ret. Qed.

Lemma calm_bind {A B} (m : M S A) (f : A → M S B) :
    calm m → (∀ a, calm (f a)) → calm (m ≫= f).
Proof. intros Hm Hf. eapply hoare_bind; [exact Hm|]. intros a. apply Hf. Qed.

Lemma calm_gets {A} (g : S → A) : calm (gets g).
Proof. by apply hoare_gets. Qed.

Lemma calm_modify (g : S → S) : calm (modify g).
Proof. by apply hoare_modify. Qed.

Lemma calm_when (c : bool) (m : M S unit) : calm m → calm (when c m).
Proof. intros H. apply hoare_when; auto. Qed.

Lemma calm_for_each {A} (l : list A) (body : A → M S unit) :
    (∀ x, calm (body x)) → calm (for_each l body).
Proof. intros Hb. apply hoare_for_each. intros x _. apply Hb. Qed.

End calm_rules.

Lemma calm_sys {O A} (m : Sys A) : calm m → calm (sys (O := O) m).
Proof. intros Hm. apply hoare_sys. intros o. exact Hm. Qed.

Lemma calm_within {O I A} (member : O → I) set_member (m : Obj I A) :
  calm m → calm (within member set_member m).
Proof.
  intros Hm. apply hoare_within. intros o s _. specialize (Hm s Logic.I).
  by destruct (ending (m s).1).
Qed.

Ltac calm_prim :=
  let p := fresh "p" in
  intros p _; unfold hoare, fails; simpl; repeat case_match; simplify_eq/=; done.

Lemma calm_sys_close fd : calm (sys_close fd).
Proof. unfold sys_close. calm_prim. Qed.

Lemma calm_sys_fdopen fd mode : calm (sys_fdopen fd mode).
Proof. unfold sys_fdopen. calm_prim. Qed.

Ltac calm_go :=
  repeat first
    [ apply calm_ret | apply calm_gets | apply calm_modify
    | apply calm_sys_close | apply calm_sys_fdopen
    | apply calm_sys | apply calm_when
    | apply calm_bind; [| intros ?] ].

Lemma calm_close {O} fd : calm (close (O := O) fd).
Proof. unfold close. calm_go. Qed.

Lemma calm_cleanup_fds : calm cleanup_fds.
Proof. unfold cleanup_fds, close, this. calm_go. Qed.

Lemma calm_close_child_fds : calm close_child_fds.
Proof. unfold close_child_fds, close, this. calm_go. Qed.

(** [no_throw m]: [m] throws nothing; it returns or stops the
    process. *)
Definition stops (x : abnormal) : Prop :=
  match x with ARaise _ => False | AStop _ => True end.

Definition no_throw {S A} (m : M S A) : Prop :=
  hoare (λ _, True) m (λ _ _, True) (λ x _, stops x).

Lemma no_throw_calm {S A} (m : M S A) : calm m → no_throw m.
Proof. intros Hm. eapply hoare_conseq; [exact Hm | done..]. Qed.

Lemma no_throw_bind {S A B} (m : M S A) (f : A → M S B) :
  no_throw m → (∀ a, no_throw (f a)) → no_throw (m ≫= f).
Proof. intros Hm Hf. eapply hoare_bind; [exact Hm|]. intros a. apply Hf. Qed.

Lemma no_throw_when {S} (c : bool) (m : M S unit) : no_throw m → no_throw (when c m).
Proof. intros H. apply hoare_when; auto. Qed.

Lemma no_throw_for_each {S A} (l : list A) (body : A → M S unit) :
  (∀ x, no_throw (body x)) → no_throw (for_each l body).
Proof. intros Hb. apply hoare_for_each. intros x _. apply Hb. Qed.

Lemma no_throw_sys {O A} (m : Sys A) : no_throw m → no_throw (sys (O := O) m).
Proof. intros Hm. apply hoare_sys. intros o. exact Hm. Qed.

Lemma no_throw_within {O I A} (member : O → I) set_member (m : Obj I A) :
  no_throw m → no_throw (within member set_member m).
Proof.
  intros Hm. apply hoare_within. intros o s _. specialize (Hm s Logic.I).
  by destruct (ending (m s).1).
Qed.

Lemma no_throw_sys_setvbuf h buf mode size : no_throw (sys_setvbuf h buf mode size).
Proof. intros p _. unfold sys_setvbuf. by destruct (p_files p !! h). Qed.

Lemma no_throw_sys_fclose stream : no_throw (sys_fclose stream).
Proof.
  intros p _. unfold sys_fclose, fails. destruct stream as [a|]; [|done].
  destruct (p_files p !! a) as [f|]; [|done]. by destruct (p_fds p !! f_fd f).
Qed.

Lemma no_throw_reset_fdopen member set_member fd mode :
  no_throw (reset_fdopen member set_member fd mode).
Proof.
  unfold reset_fdopen.
  apply no_throw_bind; [apply no_throw_calm, calm_sys, calm_sys_fdopen|]. intros ptr.
  apply no_throw_bind; [apply no_throw_calm, calm_gets|]. intros old.
  apply no_throw_bind; [apply no_throw_calm, calm_modify|]. intros _.
  destruct old; [|apply no_throw_calm, calm_ret].
  apply no_throw_bind; [apply no_throw_sys, no_throw_sys_fclose|]. intros _.
  apply no_throw_calm, calm_ret.
Qed.

(** [setup_comm_channels] throws nothing. *)
Lemma no_throw_setup_comm_channels : no_throw setup_comm_channels.
Proof.
  unfold setup_comm_channels, wrap_parent_fds, set_buffering, this.
  apply no_throw_bind.
  - apply no_throw_bind; [apply no_throw_calm, calm_gets|]. intros s.
    repeat first [ apply no_throw_when | apply no_throw_reset_fdopen
                 | apply no_throw_bind; [| intros ?] ].
  - intros _. apply no_throw_bind; [apply no_throw_calm, calm_gets|]. intros s.
    apply no_throw_for_each. intros [a|]; [|apply no_throw_calm, calm_ret].
    unfold apply_bufsiz. apply no_throw_sys.
    apply no_throw_bind; [|intros ?; apply no_throw_calm, calm_ret].
    repeat case_bool_decide; apply no_throw_sys_setvbuf.
Qed.

(** Whatever the [try] block of the parent throws, the handler throws a
    plain [std::exception] in its place: no [CalledProcessError] and no
    [OSError] leaves the parent's side of the launch. *)
Lemma parent_after_fork_throws_only_std_exception (err_rd_pipe err_wr_pipe : Z)
    (s : Popen * proc) (e : exn) :
  (parent_after_fork err_rd_pipe err_wr_pipe s).1 = Raise e → e = StdException.
Proof.
  assert (H : hoare (λ _, True) (parent_after_fork err_rd_pipe err_wr_pipe)
                (λ _ _, True)
                (λ x _, match x with ARaise e => e = StdException | AStop _ => True end)).
  { assert (Hcalm : ∀ A (m : Obj Popen A), calm m →
              hoare (λ _, True) m (λ _ _, True)
                (λ x _, match x with ARaise e => e = StdException | AStop _ => True end)).
    { intros A m Hm. eapply hoare_conseq; [exact Hm | done | done | done]. }
    unfold parent_after_fork.
    eapply hoare_bind; [apply Hcalm, calm_close|]. intros [].
    eapply hoare_bind;
      [apply Hcalm, (calm_within stream_ set_stream_ _ calm_close_child_fds)|].
    intros []. eapply hoare_bind with (Qm := λ _ _, True).
    { eapply hoare_try_catch with (Eb := λ _ _, True); try done.
      - intros s0 _. by destruct (ending _).
      - intros e0 _. eapply hoare_bind;
          [apply Hcalm, (calm_within stream_ set_stream_ _ calm_cleanup_fds)|].
        intros []. by apply hoare_throw. }
    intros []. eapply hoare_conseq;
      [apply (no_throw_within stream_ set_stream_ _ no_throw_setup_comm_channels)
      | done | done |].
    by intros [e0|x] s0. }
  intros Hrun. specialize (H s Logic.I). rewrite Hrun in H. exact H.
Qed.

(** What a child writes to the error pipe when its program does not
    exist. *)
Definition exec_failure_report : string :=
  "execve failed : No such file or directory".

(** The parent of such a child: [fork] returns the child's pid 1234,
    the error pipe delivers the report in one piece, and the child is
    reaped at the second [waitpid]. *)
Definition parent_of_failed_child : proc :=
  Proc (Host 16 16 ∅ ∅ ∅ ∅ ∅ (Some []))
       {[0 := FDesc Tty false; 1 := FDesc Tty false; 2 := FDesc Tty false]}
       ENONE ∅ "/" 0 ∅ [1234]
       [RdData (list_ascii_of_string exec_failure_report)]
       [WRunning; WReaped] [].

Definition failed_launch : outcome unit * (Popen * proc) :=
  Popen_ctor ["no-such-program"] [] (Popen_init, parent_of_failed_child).

Definition waitpid_results (tr : list syscall) : list Z :=
  omap (λ ev, match ev with SysWaitpid _ r => Some r | _ => None end) tr.

Definition read_results (tr : list syscall) : list Z :=
  omap (λ ev, match ev with SysRead _ _ r => Some r | _ => None end) tr.

(** The error buffer of [execute_process] after the report was read. *)
Definition err_buf_with_report : list ascii :=
  list_ascii_of_string exec_failure_report
  ++ replicate (SP_MAX_ERR_BUF_SIZ - String.length exec_failure_report) Ascii.zero.

(** C2 at a child's report of a failed [execvp].  The parent reads the
    41 bytes and then end of data, polls [waitpid] until the child is
    reaped, and builds a [CalledProcessError] with the report; but the
    handler of the [try] block rethrows it as a plain [std::exception],
    which the exception specification of [execute_process] does not
    allow: the call ends in [std::unexpected()], and no error carrying
    the report reaches the caller. *)
Theorem launch_error_loses_child_report :
  failed_launch.1 = Stop (Unexpected StdException)
  ∧ failed_launch.1 ≠ Raise (CalledProcessError exec_failure_report)
  ∧ read_results (p_trace failed_launch.2.2) = [41; 0]
  ∧ waitpid_results (p_trace failed_launch.2.2) = [0; 1234]
  ∧ (reap_and_throw err_buf_with_report
       (set_child_pid_ 1234 Popen_init, parent_of_failed_child)).1
    = Raise (CalledProcessError exec_failure_report).
Proof.
  assert (H : failed_launch.1 = Stop (Unexpected StdException))
    by (vm_compute; reflexivity).
  split; [exact H|]. split; [by rewrite H|]. by vm_compute.
Qed.

(** A report that arrives in two pieces: every [read] stores at the
    start of the buffer, so the second piece overwrites the first. *)
Lemma chunked_report_is_overwritten :
  let p := set_reads [RdData (list_ascii_of_string "execve failed");
                      RdData (list_ascii_of_string " : No such file or directory")]
             (set_fds <[3 := FDesc (PipeRd 0) true]> parent_of_failed_child) in
  let r := util.read_atmost_n 3 (replicate SP_MAX_ERR_BUF_SIZ Ascii.zero)
             SP_MAX_ERR_BUF_SIZ p in
  (λ x, match x with Return (n, buf) => Some (n, c_string_of buf) | _ => None end) r.1
  = Some (41, Some " : No such file or directory").
Proof. by vm_compute. Qed.

(** * Closing the descriptor slots *)

(** Since the trace was [T0], the process has closed the descriptors
    [C] with [close], has destroyed no stream, and its streams are
    [F]. *)
Definition closing (T0 : list syscall) (C : list Z) (F : gmap nat FILE)
    (p : proc) : Prop :=
  ∃ evs, p_trace p = T0 ++ evs ∧ closed_fds evs = C ∧ fclosed evs = []
         ∧ p_files p = F.


Lemma closing_extend T0 C F p q evs :
  p_trace q = p_trace p ++ evs → fclosed evs = [] → p_files q = p_files p →
  closing T0 C F p → closing T0 (C ++ closed_fds evs) F q.
Proof.
  intros Hq Hev Hfiles (evs0 & Htr & <- & Hf & <-). exists (evs0 ++ evs).
  unfold closed_fds, fclosed in *. rewrite !omap_app, Hf, Hev.
  by rewrite Hq, Htr, app_assoc.
Qed.


Lemma close_closing {O} (o : O) T0 C F fd :
  hoare (λ s, s.1 = o ∧ closing T0 C F s.2)
    (close fd)
    (λ _ s, s.1 = o ∧ closing T0 (C ++ [fd]) F s.2)
    (λ _ _, False).
Proof.
  intros [o' p] [Ho Hlog]. simpl in *. subst o'.
  destruct (p_fds p !! fd) as [d|] eqn:Hd.
  - rewrite (close_run o fd d p Hd). simpl. split; [done|].
    by apply (closing_extend _ _ _ p _ [SysClose fd 0]).
  - rewrite (close_closed o fd p Hd). simpl. split; [done|].
    by apply (closing_extend _ _ _ p _ [SysClose fd (-1)]).
Qed.

(** [if (c) close(fd);] *)
Lemma when_close_closing {O} (o : O) T0 C F (c : bool) fd :
  hoare (λ s, s.1 = o ∧ closing T0 C F s.2)
    (when c (close fd))
    (λ _ s, s.1 = o ∧ closing T0 (C ++ if c then [fd] else []) F s.2)
    (λ _ _, False).
Proof.
  destruct c; simpl; [apply close_closing|].
  apply hoare_ret. intros s Hs. by rewrite app_nil_r.
Qed.

(** The descriptors each close path closes, slot by slot. *)
Definition if_set (fd : Z) : list Z :=
  if bool_decide (fd ≠ -1) then [fd] else [].


Definition child_side_fds (s : Streams) : list Z :=
  if_set (write_to_parent_ s) ++ if_set (read_from_parent_ s) ++ if_set (err_write_ s).

Definition parent_side_fds (s : Streams) : list Z :=
  if_set (write_to_child_ s) ++ if_set (read_from_child_ s) ++ if_set (err_read_ s).


(** The three guarded [close] calls of a close path. *)
Lemma three_closes_closing (s : Streams) T0 C F (c1 c2 c3 : bool) fd1 fd2 fd3 :
  hoare (λ st, st.1 = s ∧ closing T0 C F st.2)
    (when c1 (close fd1);; when c2 (close fd2);; when c3 (close fd3))
    (λ _ st, st.1 = s
             ∧ closing T0 (C ++ (if c1 then [fd1] else [])
                             ++ (if c2 then [fd2] else [])
                             ++ (if c3 then [fd3] else [])) F st.2)
    (λ _ _, False).
Proof.
  eapply hoare_bind; [apply when_close_closing|]. intros [].
  eapply hoare_bind; [apply when_close_closing|]. intros [].
  eapply hoare_conseq;
    [apply when_close_closing | intros ? HP; exact HP | | intros ? ? HE; exact HE].
  intros _ st [Hs Hlog]. split; [exact Hs|]. by rewrite <- !app_assoc in Hlog.
Qed.

Ltac close_path_closing s T0 C F :=
  eapply hoare_bind with
    (Qm := λ s' st, s' = s ∧ (st.1 = s ∧ closing T0 C F st.2));
    [apply hoare_this; intros st Hst; split; [apply Hst | exact Hst]|];
  intros s0; apply hoare_pure; intros ->; apply three_closes_closing.


Lemma close_parent_fds_closing (s : Streams) T0 C F :
  hoare (λ st, st.1 = s ∧ closing T0 C F st.2)
    close_parent_fds
    (λ _ st, st.1 = s ∧ closing T0 (C ++ parent_side_fds s) F st.2)
    (λ _ _, False).
Proof. unfold close_parent_fds, parent_side_fds, if_set. close_path_closing s T0 C F. Qed.


Section steady_obj.
Context {O : Type} (K : O → Prop) (T : proc → Prop).


Lemma steady_update (g : O → O) :
    (∀ o, K o → K (g o)) → steady (Inv K T) (update g).
Proof. intros H. apply steady_modify. intros [o p] [HK HT]. split; simpl; auto. Qed.

Lemma steady_this_bind {B} (f : O → Obj O B) :
    (∀ o, steady (Inv K T) (f o)) → steady (Inv K T) (this ≫= f).
Proof. intros Hf. apply steady_bind; [apply steady_gets | exact Hf]. Qed.

End steady_obj.

(** The six descriptor slots of a stream set. *)
Definition fd_slots (s : Streams) : list Z :=
  [write_to_child_ s; read_from_parent_ s; write_to_parent_ s;
   read_from_child_ s; err_write_ s; err_read_ s].

Lemma fd_slots_roles s s' :
  (∀ r, parent_slot r s' = parent_slot r s ∧ child_slot r s' = child_slot r s) →
  fd_slots s' = fd_slots s.
Proof.
  intros H. unfold fd_slots.
  destruct (H ForInput) as [H1 H2], (H ForOutput) as [H3 H4], (H ForError) as [H5 H6].
  simpl in *. congruence.
Qed.

(** The streams the handles of [s] hold while their parent-owned slot
    is set, with the descriptor each wraps. *)
Definition held_stream (s : Streams) (p : proc) (r : stream_role) : list (nat * Z) :=
  if bool_decide (parent_slot r s ≠ -1) then
    match handle r s with
    | Some (Some b) =>
        match p_files p !! b with
        | Some f => [(b, f_fd f)]
        | None => []
        end
    | _ => []
    end
  else [].

Definition held_streams (s : Streams) (p : proc) : list (nat * Z) :=
  all_roles ≫= held_stream s p.

Lemma role_events_fclosed s p r h l :
  role_events s p r h l → fclosed l = held_stream s p r.
Proof.
  unfold role_events, held_stream. case_bool_decide as Hset.
  - intros (ptr & -> & Hl). destruct (handle r s) as [[b|]|].
    + destruct Hl as (f & res & -> & ->). done.
    + by subst l.
    + by subst l.
  - by intros [_ ->].
Qed.


Lemma setvbuf_events_stdio N (l : list nat) :
  Forall stdio_event (setvbuf_event N <$> l) ∧ fclosed (setvbuf_event N <$> l) = [].
Proof. induction l as [|a l [IH1 IH2]]; [done|]. simpl. split; [by constructor | done]. Qed.

(** What [setup_comm_channels] closes: no descriptor with [close]; with
    [fclose], the streams its handles held. *)
Lemma setup_comm_channels_closes (s : Streams) (p : proc) :
  sound_handles s p →
  ∃ s' p' evs,
    setup_comm_channels (s, p) = (Return (), (s', p'))
    ∧ fd_slots s' = fd_slots s
    ∧ p_trace p' = p_trace p ++ evs
    ∧ Forall stdio_event evs
    ∧ fclosed evs = held_streams s p
    ∧ ∀ k, p_fds p !! k = None → p_fds p' !! k = None.
Proof.
  intros Hsound.
  destruct (setup_comm_channels_spec s p Hsound)
    as (s' & p' & parts & Hrun & Hslots & _ & Hparts & Htr & Hfds & _).
  exists s', p'. eexists. split; [exact Hrun|]. split; [by apply fd_slots_roles|].
  split; [exact Htr|].
  assert (Hclosed : ∀ k, p_fds p !! k = None → p_fds p' !! k = None).
  { intros k Hk. rewrite Hfds. by case_bool_decide. }
  apply and_assoc. split; [|exact Hclosed].
  destruct (setvbuf_events_stdio (bufsiz_ s) (omap id (handles s'))) as [Hs1 Hs2].
  split.
  - apply Forall_app. split; [|done].
    clear -Hparts. induction Hparts as [|r l rs ls Hl _ IH]; [constructor|].
    simpl. apply Forall_app. split; [|done].
    by destruct (role_events_calls _ _ _ _ _ Hl) as (_ & Hl' & _).
  - unfold fclosed at 1. rewrite omap_app. fold (fclosed (concat parts)).
    fold (fclosed (setvbuf_event (bufsiz_ s) <$> omap id (handles s'))).
    rewrite Hs2, app_nil_r. unfold held_streams.
    clear -Hparts. induction Hparts as [|r l rs ls Hl _ IH]; [done|].
    simpl. unfold fclosed in *. rewrite omap_app, IH.
    f_equal. exact (role_events_fclosed _ _ _ _ _ Hl).
Qed.

Lemma sound_handles_files s p p' :
  p_files p' = p_files p → sound_handles s p → sound_handles s p'.
Proof.
  intros Hf [Hok Hapart]. split; [|exact Hapart]. intros r. specialize (Hok r).
  unfold handle_ok in *. by rewrite Hf.
Qed.

















(** The parent of a second launch of a launcher whose stdout is a pipe
    (3 is the parent's end, 4 the child's), just after [fork]: the
    stdout handle holds the stream of the first launch, on descriptor
    3, and the error pipe is open on 5 and 6. *)
Definition stdout_pipe_launcher : Popen :=
  MkPopen (MkStreams None (Some (Some 0%nat)) None 0 (-1) (-1) 4 3 (-1) (-1))
          true false "ls" "" ∅ "" ["ls"] [Some 0%nat] 1234.

Definition stdout_pipe_parent : proc :=
  Proc (Host 16 16 ∅ ∅ ∅ {["ls"]} ∅ (Some []))
       {[0 := FDesc Tty false; 1 := FDesc Tty false; 2 := FDesc Tty false;
         3 := FDesc (PipeRd 0) true; 4 := FDesc (PipeWr 0) true;
         5 := FDesc (PipeRd 1) true; 6 := FDesc (PipeWr 1) true]}
       ENONE ∅ "/" 2 {[0%nat := MkFILE 3 "rb" (Some (IONBF, None))]} [] [] [] [].



(** In that launch the parent closes 6, 4 and 5 with [close]; the
    launch returns, and [fclose] of the stream held from the first
    launch closes 3, the descriptor the parent-owned slot still holds
    and the new stream wraps. *)
Lemma relaunch_closes_the_parents_end :
  (parent_after_fork 5 6 (stdout_pipe_launcher, stdout_pipe_parent)).1 = Return ()
  ∧ closed_fds (p_trace (parent_after_fork 5 6
                           (stdout_pipe_launcher, stdout_pipe_parent)).2.2) = [6; 4; 5]
  ∧ fclosed (p_trace (parent_after_fork 5 6
                        (stdout_pipe_launcher, stdout_pipe_parent)).2.2) = [(0%nat, 3)]
  ∧ read_from_child_
      (stream_ (parent_after_fork 5 6 (stdout_pipe_launcher, stdout_pipe_parent)).2.1) = 3
  ∧ p_fds (parent_after_fork 5 6 (stdout_pipe_launcher, stdout_pipe_parent)).2.2 !! 3 = None
  ∧ fdopened (p_trace (parent_after_fork 5 6
                         (stdout_pipe_launcher, stdout_pipe_parent)).2.2)
    = [(3, "rb", Some 1%nat)].
Proof. by vm_compute. Qed.

(** * Further properties of the header *)

(** * Splitting a command into tokens *)

(** [str] without its first [n] characters. *)
Fixpoint str_from (n : nat) (str : string) : string :=
  match n, str with
  | O, _ => str
  | S n', EmptyString => EmptyString
  | S n', String _ r => str_from n' r
  end.

(** The tokens of [str]: the runs of characters between two delimiters,
    the empty ones too. *)
Fixpoint tokens (str delims : string) : list string :=
  match str with
  | EmptyString => [EmptyString]
  | String c r =>
      if has_char c delims then EmptyString :: tokens r delims
      else match tokens r delims with
           | t :: ts => String c t :: ts
           | [] => [String c EmptyString]
           end
  end.

(** The number of characters of [str] that are delimiters. *)
Fixpoint count_delims (str delims : string) : nat :=
  match str with
  | EmptyString => O
  | String c r => (if has_char c delims then 1 else 0) + count_delims r delims
  end.

(** [str] with every delimiter replaced by [c]. *)
Fixpoint replace_delims (str delims : string) (c : ascii) : string :=
  match str with
  | EmptyString => EmptyString
  | String a r => String (if has_char a delims then c else a) (replace_delims r delims c)
  end.

Lemma find_first_of_shift str delims n :
  (n ≤ String.length str)%nat →
  find_first_of str delims n = (λ k, n + k)%nat <$> find_first_of (str_from n str) delims 0.
Proof.
  revert n. induction str as [|c r IH]; intros n Hn.
  - by destruct n.
  - destruct n as [|n]; simpl.
    + by destruct (if has_char c delims then _ else _).
    + simpl in Hn. rewrite IH by lia.
      by destruct (find_first_of (str_from n r) delims 0).
Qed.

Lemma substring_str_from n m str : substring n m str = substring 0 m (str_from n str).
Proof.
  revert n. induction str as [|c r IH]; intros n.
  - by destruct n, m.
  - destruct n as [|n]; [done|]. simpl. apply IH.
Qed.

Lemma str_from_add n k str : str_from (n + k) str = str_from k (str_from n str).
Proof.
  revert str. induction n as [|n IH]; intros str; [done|].
  destruct str as [|c r]; simpl; [by destruct k | apply IH].
Qed.

Lemma length_str_from n str : String.length (str_from n str) = (String.length str - n)%nat.
Proof.
  revert str. induction n as [|n IH]; intros str; simpl; [lia|].
  destruct str as [|c r]; simpl; [done | apply IH].
Qed.

Lemma substring_all m str : (String.length str ≤ m)%nat → substring 0 m str = str.
Proof.
  revert m. induction str as [|c r IH]; intros m Hm; [by destruct m|].
  destruct m as [|m]; simpl in *; [lia|]. rewrite IH by lia. done.
Qed.

Lemma tokens_no_delim str delims :
  find_first_of str delims 0 = None → tokens str delims = [str].
Proof.
  induction str as [|c r IH]; simpl; [done|].
  destruct (has_char c delims); [done|]. intros H.
  rewrite IH; [done|]. by destruct (find_first_of r delims 0).
Qed.

Lemma tokens_first_delim str delims k :
  find_first_of str delims 0 = Some k →
  (k < String.length str)%nat
  ∧ tokens str delims = substring 0 k str :: tokens (str_from (S k) str) delims.
Proof.
  revert k. induction str as [|c r IH]; intros k; simpl; [done|].
  destruct (has_char c delims).
  - intros [= <-]. split; [lia|done].
  - destruct (find_first_of r delims 0) as [k'|]; [|done].
    intros [= <-]. destruct (IH k' eq_refl) as [Hk ->]. split; [lia|done].
Qed.

Lemma split_loop_tokens passes str delims init res :
  (init ≤ String.length str)%nat →
  (String.length str - init < passes)%nat →
  util.split_loop passes str delims init res
  = Some (res ++ tokens (str_from init str) delims).
Proof.
  revert init res. induction passes as [|passes IH]; intros init res Hinit Hp; [lia|].
  cbn [util.split_loop]. rewrite find_first_of_shift by done.
  destruct (find_first_of (str_from init str) delims 0) as [k|] eqn:Hfind; simpl.
  - apply tokens_first_delim in Hfind as [Hk Htok]. rewrite length_str_from in Hk.
    unfold substr. rewrite bool_decide_true by done. cbn [mbind option_bind fmap option_fmap option_map].
    rewrite IH by lia. rewrite Htok, <- app_assoc.
    replace (S (init + k)) with (init + S k)%nat by lia. rewrite str_from_add.
    replace (init + k - init)%nat with k by lia. by rewrite substring_str_from.
  - unfold substr. rewrite bool_decide_true by done. simpl. do 2 f_equal.
    rewrite (tokens_no_delim _ _ Hfind). f_equal.
    rewrite substring_str_from. apply substring_all. rewrite length_str_from. lia.
Qed.

(** [split] always returns, and what it returns are the tokens. *)
Lemma split_tokens str delims : util.split str delims = Some (tokens str delims).
Proof. unfold util.split. rewrite split_loop_tokens; [done | lia | lia]. Qed.

Lemma length_tokens str delims :
  List.length (tokens str delims) = S (count_delims str delims).
Proof.
  induction str as [|c r IH]; simpl; [done|].
  destruct (has_char c delims); simpl; [by rewrite IH|].
  destruct (tokens r delims); simpl in *; lia.
Qed.

Lemma tokens_delim_free str delims :
  Forall (λ t, find_first_of t delims 0 = None) (tokens str delims).
Proof.
  induction str as [|c r IH]; simpl; [by repeat constructor|].
  destruct (has_char c delims) eqn:Hc; [by constructor|].
  destruct (tokens r delims) as [|t ts].
  - repeat constructor. simpl. by rewrite Hc.
  - apply Forall_cons in IH as [Ht Hts]. constructor; [|done].
    simpl. by rewrite Hc, Ht.
Qed.

(** X1.  [split] always returns a vector: no [substr] is out of range and
    the loop ends.  The vector has one token more than the string has
    delimiter characters, so it is never empty, and leading, trailing
    and consecutive delimiters give empty tokens. *)
Theorem split_returns_one_more_token_than_delimiters (str delims : string) :
  ∃ toks, util.split str delims = Some toks
          ∧ List.length toks = S (count_delims str delims).
Proof. exists (tokens str delims). split; [apply split_tokens | apply length_tokens]. Qed.

(** X2.  No token [split] returns contains a delimiter character. *)
Theorem split_tokens_hold_no_delimiter (str delims : string) :
  ∃ toks, util.split str delims = Some toks
          ∧ Forall (λ t, find_first_of t delims 0 = None) toks.
Proof.
  exists (tokens str delims). split; [apply split_tokens | apply tokens_delim_free].
Qed.

(** * Joining tokens *)

Lemma app_String_cons x (a b : string) : String x a +:+ b = String x (a +:+ b).
Proof. reflexivity. Qed.

Lemma string_app_empty_l (a : string) : "" +:+ a = a.
Proof. reflexivity. Qed.

Lemma app_String_assoc (a b c : string) : (a +:+ b) +:+ c = a +:+ (b +:+ c).
Proof. induction a as [|x a IH]; [done|]. rewrite !app_String_cons. by f_equal. Qed.

Lemma string_app_empty_r (a : string) : a +:+ "" = a.
Proof. induction a as [|x a IH]; [done|]. rewrite app_String_cons. by f_equal. Qed.

(** What the loop of [join] builds. *)
Definition joined (vec : list string) (sep : string) : string :=
  foldl (λ res elem, res +:+ (elem +:+ sep)) "" vec.

Lemma foldl_join_acc (vec : list string) (sep acc : string) :
  foldl (λ res elem, res +:+ (elem +:+ sep)) acc vec = acc +:+ joined vec sep.
Proof.
  unfold joined. revert acc. induction vec as [|x vec IH]; intros acc; cbn [foldl].
  - by rewrite string_app_empty_r.
  - rewrite IH, (IH ("" +:+ _)), string_app_empty_l. by rewrite app_String_assoc.
Qed.

Lemma joined_cons x vec sep : joined (x :: vec) sep = (x +:+ sep) +:+ joined vec sep.
Proof. unfold joined at 1. cbn [foldl]. by rewrite foldl_join_acc, string_app_empty_l. Qed.

Lemma joined_concat vec sep :
  vec ≠ [] → joined vec sep = String.concat sep vec +:+ sep.
Proof.
  induction vec as [|x vec IH]; intros Hne; [done|]. rewrite joined_cons.
  destruct vec as [|y vec]; [by rewrite string_app_empty_r|].
  rewrite IH by done. cbn [String.concat]. by rewrite !app_String_assoc.
Qed.

Lemma erase_last_app (s : string) (c : ascii) :
  erase_last (s +:+ String c "") = Some s.
Proof.
  induction s as [|x s IH]; [done|]. rewrite app_String_cons.
  destruct s as [|y s]; [done|]. rewrite app_String_cons in IH |- *.
  cbn [erase_last] in IH |- *. by rewrite IH.
Qed.

Lemma erase_last_None (s : string) : erase_last s = None ↔ s = "".
Proof.
  split; [|by intros ->]. induction s as [|x s IH]; [done|]. cbn [erase_last].
  destruct s as [|y s]; [done|]. destruct (erase_last (String y s)); [done|].
  intros _. by specialize (IH eq_refl).
Qed.

Lemma joined_empty vec sep :
  joined vec sep = "" ↔ vec = [] ∨ (sep = "" ∧ Forall (λ t, t = "") vec).
Proof.
  induction vec as [|x vec IH].
  - split; [by left | done].
  - rewrite joined_cons. split.
    + intros H. right. destruct x as [|a x]; [|done]. destruct sep as [|a sep]; [|done].
      rewrite !string_app_empty_l in H.
      apply IH in H as [->|[_ H]]; repeat constructor; done.
    + intros [H|[-> H]]; [done|]. apply Forall_cons in H as [-> H].
      rewrite !string_app_empty_l. apply IH. destruct vec; [by left | by right].
Qed.

Lemma join_concat (vec : list string) (sep : string) (c : ascii) :
  vec ≠ [] →
  util.join vec (sep +:+ String c "")
  = Some (String.concat (sep +:+ String c "") vec +:+ sep).
Proof.
  intros Hne. unfold util.join. fold (joined vec (sep +:+ String c "")).
  rewrite joined_concat by done. rewrite <- app_String_assoc. apply erase_last_app.
Qed.

(** X3.  [join] removes one character from what its loop has appended, not
    one separator: on a vector that is not empty the result is the
    elements with the separator between them, followed by the separator
    without its last character.  With a one-character separator that is
    the elements with the separator between them. *)
Theorem join_erases_one_character (vec : list string) (sep : string) (c : ascii) :
  vec ≠ [] →
  util.join vec (sep +:+ String c "")
  = Some (String.concat (sep +:+ String c "") vec +:+ sep).
Proof. apply join_concat. Qed.

Lemma join_erases_one_character_witness :
  util.join ["ls"; "-l"] ("," +:+ String " " "")
  = Some (String.concat ("," +:+ String " " "") ["ls"; "-l"] +:+ ",").
Proof. apply (join_erases_one_character ["ls"; "-l"] "," " "%char). discriminate. Defined.

(** X4.  [join] is undefined (it decrements the [begin()] iterator of an
    empty string) exactly when the vector is empty, or the separator
    and every element are empty. *)
Theorem join_undefined_iff_nothing_appended (vec : list string) (sep : string) :
  util.join vec sep = None ↔ vec = [] ∨ (sep = "" ∧ Forall (λ t, t = "") vec).
Proof.
  unfold util.join. fold (joined vec sep). rewrite erase_last_None. apply joined_empty.
Qed.

Lemma concat_tokens str delims c :
  String.concat (String c "") (tokens str delims) = replace_delims str delims c.
Proof.
  induction str as [|a r IH]; [done|]. cbn [tokens replace_delims].
  pose proof (length_tokens r delims) as Hlen. rewrite <- IH.
  destruct (has_char a delims).
  - destruct (tokens r delims); [done|]. reflexivity.
  - destruct (tokens r delims) as [|t ts]; [done|]. by destruct ts.
Qed.

Lemma replace_delims_same str c : replace_delims str (String c "") c = str.
Proof.
  induction str as [|a r IH]; [done|]. simpl. rewrite IH, orb_false_r.
  destruct (Ascii.eqb c a) eqn:Heq; [|done]. by apply Ascii.eqb_eq in Heq as ->.
Qed.

(** X5.  Joining the tokens of [split] with a one-character separator gives
    the string back with every delimiter replaced by the separator; so
    [join(split(str, d), d)] is [str] for a one-character [d]. *)
Theorem join_split_round_trip (str delims : string) (c : ascii) :
  (∃ toks, util.split str delims = Some toks
           ∧ util.join toks (String c "") = Some (replace_delims str delims c))
  ∧ (∃ toks, util.split str (String c "") = Some toks
             ∧ util.join toks (String c "") = Some str).
Proof.
  assert (H : ∀ d, util.join (tokens str d) (String c "")
                   = Some (replace_delims str d c)).
  { intros d. pose proof (join_concat (tokens str d) "" c) as Hj.
    rewrite string_app_empty_l in Hj. rewrite Hj.
    - by rewrite string_app_empty_r, concat_tokens.
    - pose proof (length_tokens str d). by destruct (tokens str d). }
  split.
  - exists (tokens str delims). split; [apply split_tokens | apply H].
  - exists (tokens str (String c "")). split; [apply split_tokens|].
    by rewrite H, replace_delims_same.
Qed.

(** * The constructor that takes a command string *)

Lemma tokens_c_str str delims :
  c_str str = str → Forall (λ t, c_str t = t) (tokens str delims).
Proof.
  induction str as [|a r IH]; intros Hc; [by repeat constructor|].
  simpl in Hc. destruct (Ascii.eqb a Ascii.zero) eqn:Ha; [done|].
  injection Hc as Hc. specialize (IH Hc). simpl.
  destruct (has_char a delims); [by constructor|].
  destruct (tokens r delims) as [|t ts].
  - repeat constructor. simpl. by rewrite Ha.
  - apply Forall_cons in IH as [Ht Hts]. constructor; [|done].
    simpl. by rewrite Ha, Ht.
Qed.

(** X6.  Constructing from a command string without NUL is constructing
    from the list of its blank- and tab-separated tokens: the same
    options are applied and the same launch follows; only [args_]
    keeps the string. *)
Theorem string_command_launches_as_its_tokens
    (cmd_args : string) (args : list popen_arg) (o : Popen) (p : proc) :
  vargs_ o = [] →
  c_str cmd_args = cmd_args →
  ∃ toks,
    util.split cmd_args util.split_delims = Some toks
    ∧ Popen_ctor_str cmd_args args (o, p)
      = Popen_ctor toks args (set_args_ cmd_args o, p).
Proof.
  intros Hv Hc. exists (tokens cmd_args util.split_delims).
  split; [apply split_tokens|].
  unfold Popen_ctor_str, Popen_ctor. rewrite split_tokens.
  erewrite bind_run by reflexivity.
  erewrite (bind_run (update _)) by reflexivity.
  erewrite (bind_run (update _)) by reflexivity.
  do 3 f_equal. simpl. rewrite Hv. simpl. f_equal.
  symmetry. apply list_eq_Forall2, Forall2_fmap_l, Forall_Forall2_diag.
  apply tokens_c_str, Hc.
Qed.

Lemma string_command_launches_as_its_tokens_witness :
  ∃ toks,
    util.split "ls -l" util.split_delims = Some toks
    ∧ Popen_ctor_str "ls -l" [defer_spawn true] (Popen_init, no_more_processes)
      = Popen_ctor toks [defer_spawn true] (set_args_ "ls -l" Popen_init, no_more_processes).
Proof.
  apply (string_command_launches_as_its_tokens "ls -l" [defer_spawn true]
           Popen_init no_more_processes); reflexivity.
Defined.

(** * The descriptor helpers of [util] *)

(** X7.  [set_clo_on_exec] never reports a failure.  On an open descriptor
    it leaves the open file and every other descriptor alone and makes
    the close-on-exec flag what was asked; on a closed one both [fcntl]
    calls fail unnoticed and the table stays as it is. *)
Theorem set_clo_on_exec_sets_only_the_flag (fd : Z) (set : bool) (p : proc) :
  (util.set_clo_on_exec fd set p).1 = Return ()
  ∧ p_fds (util.set_clo_on_exec fd set p).2
    = match p_fds p !! fd with
      | Some d => <[fd := FDesc (fd_file d) set]> (p_fds p)
      | None => p_fds p
      end.
Proof.
  destruct (p_fds p !! fd) as [d|] eqn:Hd.
  - by rewrite (set_clo_on_exec_run fd set d p Hd).
  - by rewrite (set_clo_on_exec_closed fd set p Hd).
Qed.

(** X8.  [pipe_cloexec] either returns two distinct descriptors that were
    unused, now the two ends of one new pipe and both marked
    close-on-exec, every other descriptor being as before; or, when the
    table has no room for two descriptors, it throws the [OSError]
    "pipe failure : Too many open files" and opens nothing. *)
Theorem pipe_cloexec_opens_both_ends_or_nothing (p : proc) :
  let r := util.pipe_cloexec p in
  match r.1 with
  | Return (rd, wr) =>
      rd ≠ wr ∧ p_fds p !! rd = None ∧ p_fds p !! wr = None
      ∧ p_fds r.2 !! rd = Some (FDesc (PipeRd (p_npipes p)) true)
      ∧ p_fds r.2 !! wr = Some (FDesc (PipeWr (p_npipes p)) true)
      ∧ ∀ fd, fd ≠ rd → fd ≠ wr → p_fds r.2 !! fd = p_fds p !! fd
  | Raise e =>
      e = OSError "pipe failure : Too many open files" ∧ p_fds r.2 = p_fds p
  | Stop _ => False
  end.
Proof.
  destruct (lowest_free (p_fds p) (rlimit_nofile (p_host p))) as [rd|] eqn:H1.
  - destruct (lowest_free (<[rd := FDesc (PipeRd (p_npipes p)) false]> (p_fds p))
                (rlimit_nofile (p_host p))) as [wr|] eqn:H2.
    + assert (Hroom : pipe_room p rd wr) by done.
      pose proof (pipe_room_fresh p rd wr Hroom) as (Hrd & Hwr & Hne).
      rewrite (pipe_cloexec_run p rd wr Hroom). simpl. unfold with_pipe.
      repeat split; try done.
      * by rewrite lookup_insert_ne, lookup_insert_eq.
      * by rewrite lookup_insert_eq.
      * intros fd H3 H4. by rewrite !lookup_insert_ne.
    + rewrite pipe_cloexec_full; [done|]. intros rd' wr' [H3 H4]. congruence.
  - rewrite pipe_cloexec_full; [done|]. intros rd' wr' [H3 H4]. congruence.
Qed.

(** * Reading the error pipe *)

Lemma to_int_small z : - 2 ^ 31 ≤ z < 2 ^ 31 → to_int z = z.
Proof. intros H. unfold to_int. rewrite Z.mod_small; lia. Qed.

(** The buffer after a [read] has stored [chunk] at its start. *)
Definition stored (buf chunk : list ascii) : list ascii :=
  chunk ++ drop (List.length chunk) buf.

(** The number of bytes of all the chunks. *)
Definition total (chunks : list (list ascii)) : Z :=
  foldr (λ c acc, Z.of_nat (List.length c) + acc) 0 chunks.

Lemma total_nonneg chunks : 0 ≤ total chunks.
Proof. induction chunks as [|c chunks IH]; simpl; lia. Qed.

Section read_loop.
Context (fd : Z) (d : fdesc) (n : nat).

Lemma read_loop_eintr buf rb cnt answers p :
  p_fds p !! fd = Some d → 0 ≤ cnt < 50 →
  util.read_atmost_n_loop (RdFail EINTR :: answers) fd buf n rb cnt p
  = util.read_atmost_n_loop answers fd buf n rb (cnt + 1)
      (emit (SysRead fd n (-1)) (set_errno EINTR (set_reads answers p))).
Proof.
  intros Hd Hcnt. cbn [util.read_atmost_n_loop].
  erewrite bind_run by reflexivity.
  erewrite bind_run by (unfold util.sys_read; simpl; rewrite Hd; reflexivity).
  cbn beta iota. rewrite bool_decide_true by done.
  erewrite bind_run by reflexivity.
  simpl p_errno. rewrite bool_decide_true by done.
  rewrite bool_decide_false by lia. by rewrite to_int_small by lia.
Qed.

Lemma read_loop_eintrs k buf rb cnt answers p :
  p_fds p !! fd = Some d → 0 ≤ cnt → cnt + Z.of_nat k ≤ 50 →
  ∃ p', util.read_atmost_n_loop (replicate k (RdFail EINTR) ++ answers) fd buf n rb cnt p
        = util.read_atmost_n_loop answers fd buf n rb (cnt + Z.of_nat k) p'
        ∧ p_fds p' = p_fds p.
Proof.
  revert cnt p. induction k as [|k IH]; intros cnt p Hd H0 Hk.
  - exists p. by rewrite Z.add_0_r.
  - cbn [replicate app]. rewrite read_loop_eintr by (done || lia).
    destruct (IH (cnt + 1)
                (emit (SysRead fd n (-1))
                   (set_errno EINTR (set_reads (replicate k (RdFail EINTR) ++ answers) p))))
      as (p' & Hrun & Hfds); [exact Hd | lia | lia |].
    exists p'. split; [|by rewrite Hfds]. rewrite Hrun. f_equal. lia.
Qed.

Lemma read_loop_chunk buf rb cnt c answers p :
  p_fds p !! fd = Some d → c ≠ [] → (List.length c ≤ n)%nat →
  - 2 ^ 31 ≤ rb + Z.of_nat (List.length c) < 2 ^ 31 →
  util.read_atmost_n_loop (RdData c :: answers) fd buf n rb cnt p
  = util.read_atmost_n_loop answers fd (stored buf c) n
      (rb + Z.of_nat (List.length c)) cnt
      (emit (SysRead fd n (Z.of_nat (List.length c))) (set_reads answers p)).
Proof.
  intros Hd Hc Hn Hrb. cbn [util.read_atmost_n_loop].
  erewrite bind_run by reflexivity.
  erewrite bind_run by (unfold util.sys_read; simpl; rewrite Hd; reflexivity).
  cbn beta iota. rewrite take_ge by lia.
  rewrite bool_decide_false by lia.
  rewrite bool_decide_false by (destruct c; [done | simpl; lia]).
  by rewrite to_int_small by lia.
Qed.

Lemma read_loop_chunks chunks buf rb cnt answers p :
  p_fds p !! fd = Some d →
  Forall (λ c, c ≠ [] ∧ (List.length c ≤ n)%nat) chunks →
  0 ≤ rb → rb + total chunks < 2 ^ 31 →
  ∃ p', util.read_atmost_n_loop ((RdData <$> chunks) ++ answers) fd buf n rb cnt p
        = util.read_atmost_n_loop answers fd (foldl stored buf chunks) n
            (rb + total chunks) cnt p'
        ∧ p_fds p' = p_fds p.
Proof.
  revert buf rb p. induction chunks as [|c chunks IH]; intros buf rb p Hd Hok H0 Hrb.
  - exists p. simpl. by rewrite Z.add_0_r.
  - apply Forall_cons in Hok as [[Hc Hn] Hok]. simpl in Hrb.
    pose proof (total_nonneg chunks). cbn [fmap list_fmap app foldl].
    rewrite read_loop_chunk by (done || lia).
    destruct (IH (stored buf c) (rb + Z.of_nat (List.length c))
                (emit (SysRead fd n (Z.of_nat (List.length c)))
                   (set_reads ((RdData <$> chunks) ++ answers) p)))
      as (p' & Hrun & Hfds); [exact Hd | done | lia | lia |].
    exists p'. split; [|by rewrite Hfds]. rewrite Hrun. simpl. f_equal. lia.
Qed.

Lemma read_loop_eof buf rb cnt rest p :
  p_fds p !! fd = Some d →
  util.read_atmost_n_loop (RdData [] :: rest) fd buf n rb cnt p
  = (Return (rb, buf), emit (SysRead fd n 0) (set_reads rest p)).
Proof.
  intros Hd. cbn [util.read_atmost_n_loop].
  erewrite bind_run by reflexivity.
  erewrite bind_run by (unfold util.sys_read; simpl; rewrite Hd; reflexivity).
  cbn beta iota. rewrite take_nil. simpl. by rewrite drop_0.
Qed.

Lemma read_loop_fail e buf rb cnt rest p :
  p_fds p !! fd = Some d → e ≠ EINTR ∨ 50 ≤ cnt →
  util.read_atmost_n_loop (RdFail e :: rest) fd buf n rb cnt p
  = (Return (-1, buf), emit (SysRead fd n (-1)) (set_errno e (set_reads rest p))).
Proof.
  intros Hd He. cbn [util.read_atmost_n_loop].
  erewrite bind_run by reflexivity.
  erewrite bind_run by (unfold util.sys_read; simpl; rewrite Hd; reflexivity).
  cbn beta iota. rewrite bool_decide_true by done.
  erewrite bind_run by reflexivity. simpl p_errno.
  case_bool_decide as Heq; [|done]. destruct He as [He|He]; [done|].
  by rewrite bool_decide_true.
Qed.

End read_loop.

(** X9.  [read_atmost_n] reads until end of data, not until [read_upto]
    bytes have come: after up to 50 interrupted reads, which it
    retries, and any number of chunks of at most [read_upto] bytes, it
    returns the number of bytes of all the chunks together, which
    [read_upto] does not bound; every chunk was stored at the start of
    the buffer, over the one before. *)
Theorem read_atmost_n_returns_the_total
    (fd : Z) (d : fdesc) (buf : list ascii) (read_upto k : nat)
    (chunks : list (list ascii)) (rest : list read_result) (p : proc) :
  p_fds p !! fd = Some d →
  p_reads p = replicate k (RdFail EINTR) ++ (RdData <$> chunks) ++ RdData [] :: rest →
  (k ≤ 50)%nat →
  Forall (λ c, c ≠ [] ∧ (List.length c ≤ read_upto)%nat) chunks →
  total chunks < 2 ^ 31 →
  let r := util.read_atmost_n fd buf read_upto p in
  r.1 = Return (total chunks, foldl stored buf chunks)
  ∧ p_reads r.2 = rest.
Proof.
  intros Hd Hreads Hk Hok Htot r. subst r. unfold util.read_atmost_n.
  erewrite bind_run by reflexivity. rewrite Hreads.
  destruct (read_loop_eintrs fd d read_upto k buf 0 0
              ((RdData <$> chunks) ++ RdData [] :: rest) p)
    as (p1 & -> & Hfds1); [done | lia | lia |].
  destruct (read_loop_chunks fd d read_upto chunks buf 0 (0 + Z.of_nat k)
              (RdData [] :: rest) p1)
    as (p2 & -> & Hfds2); [by rewrite Hfds1 | done | lia | lia |].
  rewrite (read_loop_eof fd d) by (by rewrite Hfds2, Hfds1). done.
Qed.

(** X10.  The interrupted reads are counted over the whole call and the
    count is never reset: the 51st one makes [read_atmost_n] return -1,
    also when data was read in between, and the number of the bytes
    read so far is lost. *)
Theorem read_atmost_n_gives_up_at_the_51st_interrupt
    (fd : Z) (d : fdesc) (buf : list ascii) (read_upto k1 k2 : nat)
    (chunks : list (list ascii)) (rest : list read_result) (p : proc) :
  p_fds p !! fd = Some d →
  p_reads p = replicate k1 (RdFail EINTR) ++ (RdData <$> chunks)
              ++ replicate k2 (RdFail EINTR) ++ rest →
  (k1 ≤ 50)%nat → (k1 + k2 = 51)%nat →
  Forall (λ c, c ≠ [] ∧ (List.length c ≤ read_upto)%nat) chunks →
  total chunks < 2 ^ 31 →
  let r := util.read_atmost_n fd buf read_upto p in
  r.1 = Return (-1, foldl stored buf chunks)
  ∧ p_reads r.2 = rest.
Proof.
  intros Hd Hreads Hk1 Hk Hok Htot r. subst r. unfold util.read_atmost_n.
  erewrite bind_run by reflexivity. rewrite Hreads.
  destruct k2 as [|j]; [lia|].
  replace (S j) with (j + 1)%nat by lia. rewrite replicate_add, <- (app_assoc (replicate j _)).
  destruct (read_loop_eintrs fd d read_upto k1 buf 0 0
              ((RdData <$> chunks) ++ replicate j (RdFail EINTR)
                 ++ replicate 1 (RdFail EINTR) ++ rest) p)
    as (p1 & -> & Hfds1); [done | lia | lia |].
  destruct (read_loop_chunks fd d read_upto chunks buf 0 (0 + Z.of_nat k1)
              (replicate j (RdFail EINTR) ++ replicate 1 (RdFail EINTR) ++ rest) p1)
    as (p2 & -> & Hfds2); [by rewrite Hfds1 | done | lia | lia |].
  destruct (read_loop_eintrs fd d read_upto j (foldl stored buf chunks)
              (0 + total chunks) (0 + Z.of_nat k1)
              (replicate 1 (RdFail EINTR) ++ rest) p2)
    as (p3 & -> & Hfds3); [by rewrite Hfds2, Hfds1 | lia | lia |].
  cbn [replicate app].
  rewrite (read_loop_fail fd d) by ((by rewrite Hfds3, Hfds2, Hfds1) || (right; lia)).
  done.
Qed.

(** X11.  A read that fails for another reason than an interrupt ends
    [read_atmost_n] with -1 at once, whatever was read before: the
    caller cannot tell how many bytes are in the buffer; [errno] is the
    one of the failed read. *)
Theorem read_atmost_n_failure_discards_the_count
    (fd : Z) (d : fdesc) (buf : list ascii) (read_upto : nat) (e : errno_t)
    (chunks : list (list ascii)) (rest : list read_result) (p : proc) :
  p_fds p !! fd = Some d →
  p_reads p = (RdData <$> chunks) ++ RdFail e :: rest →
  e ≠ EINTR →
  Forall (λ c, c ≠ [] ∧ (List.length c ≤ read_upto)%nat) chunks →
  total chunks < 2 ^ 31 →
  let r := util.read_atmost_n fd buf read_upto p in
  r.1 = Return (-1, foldl stored buf chunks)
  ∧ p_errno r.2 = e
  ∧ p_reads r.2 = rest.
Proof.
  intros Hd Hreads He Hok Htot r. subst r. unfold util.read_atmost_n.
  erewrite bind_run by reflexivity. rewrite Hreads.
  destruct (read_loop_chunks fd d read_upto chunks buf 0 0 (RdFail e :: rest) p)
    as (p2 & -> & Hfds2); [done | done | lia | lia |].
  rewrite (read_loop_fail fd d) by ((by rewrite Hfds2) || by left). done.
Qed.

(** * Waiting for the child *)

Lemma wait_loop_running k pid answers p :
  ∃ p', util.wait_for_child_exit_loop (replicate k WRunning ++ answers) pid p
        = util.wait_for_child_exit_loop answers pid p'
        ∧ p_trace p' = p_trace p ++ replicate k (SysWaitpid pid 0).
Proof.
  revert p. induction k as [|k IH]; intros p.
  - exists p. by rewrite app_nil_r.
  - cbn [replicate app util.wait_for_child_exit_loop].
    erewrite bind_run by reflexivity. erewrite bind_run by reflexivity.
    rewrite bool_decide_false by done. rewrite bool_decide_true by done.
    destruct (IH (emit (SysWaitpid pid 0)
                    (set_waits (replicate k WRunning ++ answers) p)))
      as (p' & Hrun & Htr).
    exists p'. split; [exact Hrun|]. rewrite Htr. simpl. by rewrite <- app_assoc.
Qed.

(** What the last [waitpid] of the loop returns. *)
Definition wait_status (pid : Z) (w : wait_result) : Z :=
  match w with
  | WRunning => 0
  | WReaped => pid
  | WFail _ => -1
  end.

(** X12.  [wait_for_child_exit] polls: while [waitpid] with [WNOHANG] answers
    0 it calls it again at once, and the first other answer ends the
    loop, with the pid when the child was reaped and -1 when [waitpid]
    failed. *)
Theorem wait_for_child_exit_polls_until_an_answer
    (pid : Z) (k : nat) (w : wait_result) (rest : list wait_result) (p : proc) :
  0 < pid →
  p_waits p = replicate k WRunning ++ w :: rest →
  w ≠ WRunning →
  let r := util.wait_for_child_exit pid p in
  r.1 = Return (wait_status pid w)
  ∧ p_waits r.2 = rest
  ∧ waitpid_results (new_events p r.2) = replicate k 0 ++ [wait_status pid w].
Proof.
  intros Hpid Hw Hne r. subst r. unfold util.wait_for_child_exit.
  erewrite bind_run by reflexivity. rewrite Hw.
  destruct (wait_loop_running k pid (w :: rest) p) as (p' & -> & Htr).
  cbn [util.wait_for_child_exit_loop].
  erewrite bind_run by reflexivity.
  assert (Hev : ∀ q evs, p_trace q = p_trace p' ++ evs →
            waitpid_results (new_events p q)
            = replicate k 0 ++ waitpid_results evs).
  { intros q evs Hq. unfold new_events. rewrite Hq, Htr, <- app_assoc, drop_app_length.
    unfold waitpid_results. rewrite omap_app. f_equal.
    clear. induction k as [|k IH]; [done|]. simpl. by f_equal. }
  destruct w as [| |e]; [done| |].
  - erewrite bind_run by reflexivity.
    rewrite bool_decide_false by lia. rewrite bool_decide_false by lia.
    simpl. split; [done|]. split; [done|].
    by apply (Hev _ [SysWaitpid pid pid]).
  - erewrite bind_run by reflexivity. rewrite bool_decide_true by done.
    simpl. split; [done|]. split; [done|].
    by apply (Hev _ [SysWaitpid pid (-1)]).
Qed.

(** A process that reads the error pipe on descriptor 3: the first
    read is interrupted, then two chunks come, then end of data. *)
Definition interrupted_reader (answers : list read_result) : proc :=
  Proc (Host 16 16 ∅ ∅ ∅ ∅ ∅ (Some [])) {[3 := FDesc (PipeRd 0) true]}
       ENONE ∅ "/" 1 ∅ [] answers [] [].

Definition two_chunks : list (list ascii) := [["a"; "b"]; ["c"]]%char.

Lemma read_atmost_n_returns_the_total_witness :
  let r := util.read_atmost_n 3 (replicate 4 Ascii.zero) 2
             (interrupted_reader (replicate 1 (RdFail EINTR) ++ (RdData <$> two_chunks)
                                    ++ RdData [] :: [])) in
  r.1 = Return (total two_chunks, foldl stored (replicate 4 Ascii.zero) two_chunks)
  ∧ p_reads r.2 = [].
Proof.
  apply (read_atmost_n_returns_the_total 3 (FDesc (PipeRd 0) true)
           (replicate 4 Ascii.zero) 2 1 two_chunks []).
  - reflexivity.
  - reflexivity.
  - lia.
  - repeat (apply Forall_cons; split; [split; [discriminate | simpl; lia]|]).
    apply Forall_nil_2.
  - vm_compute. reflexivity.
Defined.

Lemma read_atmost_n_gives_up_at_the_51st_interrupt_witness :
  let r := util.read_atmost_n 3 (replicate 4 Ascii.zero) 2
             (interrupted_reader (replicate 1 (RdFail EINTR) ++ (RdData <$> two_chunks)
                                    ++ replicate 50 (RdFail EINTR) ++ [RdData []])) in
  r.1 = Return (-1, foldl stored (replicate 4 Ascii.zero) two_chunks)
  ∧ p_reads r.2 = [RdData []].
Proof.
  apply (read_atmost_n_gives_up_at_the_51st_interrupt 3 (FDesc (PipeRd 0) true)
           (replicate 4 Ascii.zero) 2 1 50 two_chunks [RdData []]).
  - reflexivity.
  - reflexivity.
  - lia.
  - lia.
  - repeat (apply Forall_cons; split; [split; [discriminate | simpl; lia]|]).
    apply Forall_nil_2.
  - vm_compute. reflexivity.
Defined.

Lemma read_atmost_n_failure_discards_the_count_witness :
  let r := util.read_atmost_n 3 (replicate 4 Ascii.zero) 2
             (interrupted_reader ((RdData <$> two_chunks) ++ RdFail EIO :: [])) in
  r.1 = Return (-1, foldl stored (replicate 4 Ascii.zero) two_chunks)
  ∧ p_errno r.2 = EIO
  ∧ p_reads r.2 = [].
Proof.
  apply (read_atmost_n_failure_discards_the_count 3 (FDesc (PipeRd 0) true)
           (replicate 4 Ascii.zero) 2 EIO two_chunks []).
  - reflexivity.
  - reflexivity.
  - discriminate.
  - repeat (apply Forall_cons; split; [split; [discriminate | simpl; lia]|]).
    apply Forall_nil_2.
  - vm_compute. reflexivity.
Defined.

Lemma wait_for_child_exit_polls_until_an_answer_witness :
  let r := util.wait_for_child_exit 1234 parent_of_failed_child in
  r.1 = Return (wait_status 1234 WReaped)
  ∧ p_waits r.2 = []
  ∧ waitpid_results (new_events parent_of_failed_child r.2)
    = replicate 1 0 ++ [wait_status 1234 WReaped].
Proof.
  apply (wait_for_child_exit_polls_until_an_answer 1234 1 WReaped [] parent_of_failed_child).
  - lia.
  - reflexivity.
  - discriminate.
Defined.

(** * How the child ends *)

(** [ends_in E m]: when [m] does not return, it ends as [E] allows. *)
Definition ends_in {S A} (E : abnormal → Prop) (m : M S A) : Prop :=
  hoare (λ _, True) m (λ _ _, True) (λ x _, E x).

Section ends_in_rules.
Context {S : Type} (E : abnormal → Prop).

Lemma ends_in_calm {A} (m : M S A) : calm m → ends_in E m.
Proof. intros H. eapply hoare_conseq; [exact H | done | done | done]. Qed.

Lemma ends_in_bind {A B} (m : M S A) (f : A → M S B) :
  ends_in E m → (∀ a, ends_in E (f a)) → ends_in E (m ≫= f).
Proof. intros Hm Hf. eapply hoare_bind; [exact Hm|]. intros a. apply Hf. Qed.

Lemma ends_in_throw {A} e : E (ARaise e) → ends_in E (throw (S := S) (A := A) e).
Proof. intros He. by apply hoare_throw. Qed.

Lemma ends_in_when (c : bool) (m : M S unit) : ends_in E m → ends_in E (when c m).
Proof. intros H. apply hoare_when; auto. Qed.

Lemma ends_in_if {A} (c : bool) (m1 m2 : M S A) :
  ends_in E m1 → ends_in E m2 → ends_in E (if c then m1 else m2).
Proof. by destruct c. Qed.

Lemma ends_in_for_each {A} (l : list A) (body : A → M S unit) :
  (∀ x, ends_in E (body x)) → ends_in E (for_each l body).
Proof. intros Hb. apply hoare_for_each. intros x _. apply Hb. Qed.

End ends_in_rules.

Lemma ends_in_sys {O A} E (m : Sys A) : ends_in E m → ends_in E (sys (O := O) m).
Proof. intros Hm. apply hoare_sys. intros o. exact Hm. Qed.

Lemma calm_if {S A} (c : bool) (m1 m2 : M S A) :
  calm m1 → calm m2 → calm (if c then m1 else m2).
Proof. by destruct c. Qed.

Lemma calm_sys_dup fd : calm (sys_dup fd).
Proof. unfold sys_dup. calm_prim. Qed.

Lemma calm_sys_dup2 fd to_fd : calm (sys_dup2 fd to_fd).
Proof. unfold sys_dup2. calm_prim. Qed.

Lemma calm_sys_fcntl_getfd fd : calm (sys_fcntl_getfd fd).
Proof. unfold sys_fcntl_getfd. calm_prim. Qed.

Lemma calm_sys_fcntl_setfd fd flags : calm (sys_fcntl_setfd fd flags).
Proof. unfold sys_fcntl_setfd. calm_prim. Qed.

Lemma calm_sys_sysconf_open_max : calm sys_sysconf_open_max.
Proof. unfold sys_sysconf_open_max. calm_prim. Qed.

Lemma calm_sys_chdir path : calm (sys_chdir path).
Proof. unfold sys_chdir. calm_prim. Qed.

Lemma calm_sys_write fd data : calm (sys_write fd data).
Proof. unfold sys_write. calm_prim. Qed.

Lemma calm_sys_setenv name value ow : calm (sys_setenv name value ow).
Proof. unfold sys_setenv. calm_prim. Qed.

Lemma calm_set_clo_on_exec fd set : calm (util.set_clo_on_exec fd set).
Proof.
  unfold util.set_clo_on_exec.
  apply calm_bind; [apply calm_sys_fcntl_getfd|]. intros flags.
  apply calm_bind; [apply calm_sys_fcntl_setfd|]. intros _. apply calm_ret.
Qed.

Lemma calm_write_n fd buf len : calm (util.write_n fd buf len).
Proof.
  unfold util.write_n. generalize 0. generalize len at 1 as passes.
  induction passes as [|passes IH]; intros nwritten; cbn [util.write_n_loop].
  - apply calm_if; apply calm_ret.
  - apply calm_if; [|apply calm_ret].
    apply calm_bind; [apply calm_sys_write|]. intros written.
    apply calm_if; [apply calm_ret | apply IH].
Qed.

Lemma calm_redup_low_fds : calm Child.redup_low_fds.
Proof.
  unfold Child.redup_low_fds, update_stream, update.
  repeat first [ apply calm_gets | apply calm_modify | apply calm_sys, calm_sys_dup
               | apply calm_when | apply calm_bind; [| intros ?] ].
Qed.

Lemma calm_close_parent_fds : calm close_parent_fds.
Proof. unfold close_parent_fds, close, this. calm_go. Qed.

(** The [OSError]s the child throws, by the step that failed. *)
Definition child_steps : list string :=
  ["dup2 failed"; "sysconf failed"; "chdir failed"; "execve failed"].

Definition child_report (msg : string) : Prop :=
  ∃ step e, step ∈ child_steps ∧ msg = step +:+ " : " +:+ strerror e.

(** The [try] block of [execute_child] ends with one of these errors
    or with the new image. *)
Definition child_ending (x : abnormal) : Prop :=
  match x with
  | ARaise e => ∃ msg, child_report msg ∧ e = OSError msg
  | AStop (Replaced _) => True
  | AStop _ => False
  end.

Lemma child_throws step e :
  step ∈ child_steps → child_ending (ARaise (mkOSError step e)).
Proof. intros Hs. eexists. split; [|reflexivity]. by exists step, e. Qed.

Lemma ends__dup2_ fd to_fd : ends_in child_ending (Child._dup2_ fd to_fd).
Proof.
  unfold Child._dup2_. apply ends_in_if; [apply ends_in_calm, calm_set_clo_on_exec|].
  apply ends_in_if; [|apply ends_in_calm, calm_ret].
  apply ends_in_bind; [apply ends_in_calm, calm_sys_dup2|]. intros res.
  apply ends_in_if; [|apply ends_in_calm, calm_ret].
  apply ends_in_bind; [apply ends_in_calm, calm_gets|]. intros e.
  apply ends_in_throw, child_throws. set_solver.
Qed.

Lemma ends_create_std_streams : ends_in child_ending Child.create_std_streams.
Proof.
  unfold Child.create_std_streams.
  repeat first [ apply ends_in_calm, calm_gets | apply ends_in_sys, ends__dup2_
               | apply ends_in_when, ends_in_calm, calm_close
               | apply ends_in_bind; [| intros ?] ].
Qed.

Lemma ends_close_inherited_fds w :
  ends_in child_ending (Child.close_inherited_fds w).
Proof.
  unfold Child.close_inherited_fds, this, errno.
  apply ends_in_bind; [apply ends_in_calm, calm_gets|]. intros o. apply ends_in_when.
  apply ends_in_bind; [apply ends_in_calm, calm_sys, calm_sys_sysconf_open_max|].
  intros max_fd. apply ends_in_if.
  - apply ends_in_bind; [apply ends_in_calm, calm_sys, calm_gets|]. intros e.
    apply ends_in_throw, child_throws. set_solver.
  - apply ends_in_calm, calm_for_each. intros i.
    apply calm_if; [apply calm_ret | apply calm_close].
Qed.

Lemma ends_change_directory : ends_in child_ending Child.change_directory.
Proof.
  unfold Child.change_directory, this, errno.
  apply ends_in_bind; [apply ends_in_calm, calm_gets|]. intros o. apply ends_in_when.
  apply ends_in_bind; [apply ends_in_calm, calm_sys, calm_sys_chdir|]. intros r.
  apply ends_in_if; [|apply ends_in_calm, calm_ret].
  apply ends_in_bind; [apply ends_in_calm, calm_sys, calm_gets|]. intros e.
  apply ends_in_throw, child_throws. set_solver.
Qed.

(** [replace_image] never returns: [execvp] replaces the image or
    fails, and then the error is thrown. *)
Lemma replace_image_never_returns :
  hoare (λ _, True) Child.replace_image (λ _ _, False) (λ x _, child_ending x).
Proof.
  unfold Child.replace_image, this, errno.
  eapply hoare_bind; [apply (ends_in_calm child_ending), calm_gets|]. intros o.
  assert (Hexec : ∀ file argv,
            hoare (λ _ : Popen * proc, True) (sys (sys_execvp file argv))
              (λ a _, a = -1) (λ x _, child_ending x)).
  { intros file argv [o' p] _. unfold sys, sys_execvp, fails.
    case_bool_decide; simpl; [|done]. by destruct (until_null _ _). }
  eapply hoare_bind with (Qm := λ a _, a = -1).
  - apply hoare_if; intros _; [|apply Hexec].
    eapply hoare_bind with (Qm := λ _ _, True); [|intros []; apply Hexec].
    apply (ends_in_calm child_ending), calm_for_each. intros kv.
    apply calm_bind; [apply calm_sys, calm_sys_setenv | intros; apply calm_ret].
  - intros a [o' p] Ha. simpl in Ha. subst a. rewrite bool_decide_true by done.
    unfold mbind, M_bind, sys, gets, throw. simpl. apply child_throws. set_solver.
Qed.

(** A child's report is short: one [write] takes it whole. *)
Lemma child_report_length msg :
  child_report msg → (0 < String.length msg < 100)%nat.
Proof.
  intros (step & e & Hs & ->). unfold child_steps in Hs.
  repeat (apply elem_of_cons in Hs as [->|Hs]; [destruct e; vm_compute; lia|]).
  by apply elem_of_nil in Hs.
Qed.

Lemma write_n_loop_done passes fd buf len nwritten p :
  ¬ nwritten < Z.of_nat len →
  util.write_n_loop passes fd buf len nwritten p = (Return nwritten, p).
Proof. intros H. destruct passes; simpl; by rewrite bool_decide_false. Qed.

(** [write_n] of a whole short message: one [write], which takes it
    or fails. *)
Lemma write_n_once fd msg p :
  (0 < String.length msg < 100)%nat →
  ∃ res, p_trace (util.write_n fd msg (String.length msg) p).2
         = p_trace p ++ [SysWriteFd fd msg res]
         ∧ (util.write_n fd msg (String.length msg) p).1
           = Return (if bool_decide (res = -1) then -1 else Z.of_nat (String.length msg)).
Proof.
  intros Hlen. unfold util.write_n.
  destruct (String.length msg) as [|l] eqn:Hl; [lia|]. cbn [util.write_n_loop].
  rewrite bool_decide_true by lia. rewrite <- Hl.
  replace (String.length msg - Z.to_nat 0)%nat with (String.length msg) by lia.
  change (Z.to_nat 0) with 0%nat. rewrite substring_all by lia.
  unfold mbind, M_bind, sys_write, fails. destruct (p_fds p !! fd) as [d|].
  - rewrite bool_decide_false by lia. rewrite to_int_small by lia.
    rewrite write_n_loop_done by lia. exists (Z.of_nat (String.length msg)).
    rewrite bool_decide_false by lia. done.
  - rewrite bool_decide_true by done. by exists (-1).
Qed.

(** The last thing the process did was to send [msg] on [fd]. *)
Definition reported (fd : Z) (s : Popen * proc) : Prop :=
  ∃ msg res, child_report msg ∧ last (p_trace s.2) = Some (SysWriteFd fd msg res).

Lemma execute_child_ends (err_wr_pipe_ : Z) :
  hoare (λ _, True) (Child.execute_child err_wr_pipe_) (λ _ _, False)
    (λ x s, (∃ img, x = AStop (Replaced img))
            ∨ (x = AStop (Exited EXIT_FAILURE) ∧ reported err_wr_pipe_ s)).
Proof.
  unfold Child.execute_child.
  eapply hoare_bind with (Qm := λ _ s, reported err_wr_pipe_ s).
  - eapply hoare_try_catch with (Eb := λ x _, child_ending x).
    + eapply hoare_bind with (Qm := λ _ _, True);
        [apply (ends_in_calm child_ending), calm_redup_low_fds|].
      intros []. eapply hoare_bind with (Qm := λ _ _, True);
        [apply ends_create_std_streams|].
      intros []. eapply hoare_bind with (Qm := λ _ _, True);
        [apply ends_close_inherited_fds|].
      intros []. eapply hoare_bind with (Qm := λ _ _, True);
        [apply ends_change_directory|].
      intros []. eapply hoare_conseq;
        [apply replace_image_never_returns | done | done | intros ? ? HE; exact HE].
    + intros e _ [o p] (msg & Hmsg & ->). cbn [what].
      destruct (write_n_once err_wr_pipe_ msg p (child_report_length msg Hmsg))
        as (res & Htr & Hret).
      unfold mbind, M_bind, sys.
      destruct (util.write_n err_wr_pipe_ msg (String.length msg) p) as [r p'].
      simpl in Htr, Hret. subst r. simpl. exists msg, res. split; [done|].
      simpl. rewrite Htr. apply last_snoc.
    + intros e s He (msg & _ & ->). discriminate He.
    + intros [] s Hx; try done. left. by eexists.
  - intros []. apply hoare_sys. intros o. apply hoare_halt. intros p Hp. by right.
Qed.

(** X13.  The child never returns into the code of the parent and lets no
    exception out: [execute_child] ends with the new image, or with
    [exit(EXIT_FAILURE)]; and it exits only from the handler, after its
    last system call has sent (or tried to send) the message of the
    [OSError] on the error channel. *)
Theorem execute_child_replaces_the_image_or_reports_and_exits
    (err_wr_pipe_ : Z) (o : Popen) (p : proc) :
  let r := Child.execute_child err_wr_pipe_ (o, p) in
  (∃ img, r.1 = Stop (Replaced img))
  ∨ (r.1 = Stop (Exited EXIT_FAILURE)
     ∧ ∃ msg res, child_report msg
                  ∧ last (p_trace r.2.2) = Some (SysWriteFd err_wr_pipe_ msg res)).
Proof.
  intros r. subst r. pose proof (execute_child_ends err_wr_pipe_ (o, p) Logic.I) as H.
  destruct (Child.execute_child err_wr_pipe_ (o, p)) as [[[]|e|x] s]; simpl in H |- *.
  - done.
  - destruct H as [[img H]|[H _]]; discriminate H.
  - destruct H as [[img H]|[H Hrep]].
    + left. exists img. congruence.
    + right. split; [congruence | exact Hrep].
Qed.

Lemma sys_fork_run p r rest :
  p_fork p = r :: rest → 0 ≤ r →
  sys_fork p = (Return r, emit (SysFork r) (set_fork rest p)).
Proof. intros Hf Hr. unfold sys_fork. rewrite Hf. by rewrite bool_decide_false by lia. Qed.

(** X14.  In the child, where [fork] has returned 0, [execute_process] does
    not return to its caller and lets no exception out: the process
    goes on as the new image, or exits with [EXIT_FAILURE] after its
    report on the error pipe. *)
Theorem execute_process_never_returns_in_the_child
    (o : Popen) (p : proc) (rd wr : Z) (forks : list Z) :
  pipe_room p rd wr →
  p_fork p = 0 :: forks →
  exe_name_ o ≠ "" ∨ vargs_ o ≠ [] →
  let r := execute_process (o, p) in
  (∃ img, r.1 = Stop (Replaced img))
  ∨ (r.1 = Stop (Exited EXIT_FAILURE)
     ∧ ∃ msg res, child_report msg
                  ∧ last (p_trace r.2.2) = Some (SysWriteFd wr msg res)).
Proof.
  intros Hroom Hfork Hexe r. subst r.
  unfold execute_process, exception_spec.
  erewrite bind_run by (apply sys_run, pipe_cloexec_run, Hroom).
  cbn beta iota. erewrite bind_run by reflexivity.
  erewrite bind_run by (apply resolve_exe_name_run, Hexe).
  erewrite bind_run by (apply sys_run, (sys_fork_run _ 0 forks); [exact Hfork | lia]).
  erewrite bind_run by reflexivity.
  rewrite bool_decide_false by lia. rewrite bool_decide_true by done.
  set (s1 := (set_child_pid_ 0 (resolve_exe_name o), _)).
  assert (H : hoare (λ _, True)
                (on_stream close_parent_fds;; close rd;; Child.execute_child wr)
                (λ _ _, False)
                (λ x s, (∃ img, x = AStop (Replaced img))
                        ∨ (x = AStop (Exited EXIT_FAILURE) ∧ reported wr s))).
  { eapply hoare_bind with (Qm := λ _ _, True).
    { eapply hoare_conseq;
        [apply (calm_within stream_ set_stream_ _ calm_close_parent_fds)
        | done | done | done]. }
    intros []. eapply hoare_bind with (Qm := λ _ _, True).
    { eapply hoare_conseq; [apply (calm_close rd) | done | done | done]. }
    intros []. apply execute_child_ends. }
  specialize (H s1 Logic.I).
  destruct ((on_stream close_parent_fds;; close rd;; Child.execute_child wr) s1)
    as [[[]|e|x] s]; simpl in H |- *.
  - done.
  - destruct H as [[img H]|[H _]]; discriminate H.
  - destruct H as [[img H]|[H Hrep]].
    + left. exists img. congruence.
    + right. split; [congruence | exact Hrep].
Qed.

Lemma execute_process_never_returns_in_the_child_witness :
  let r := execute_process (ls_launcher, child_with_home) in
  (∃ img, r.1 = Stop (Replaced img))
  ∨ (r.1 = Stop (Exited EXIT_FAILURE)
     ∧ ∃ msg res, child_report msg
                  ∧ last (p_trace r.2.2) = Some (SysWriteFd 4 msg res)).
Proof.
  apply (execute_process_never_returns_in_the_child ls_launcher child_with_home 3 4 []).
  - split; vm_compute; reflexivity.
  - reflexivity.
  - right. discriminate.
Defined.

(** * Closing the inherited descriptors *)

(** The loop of [close_inherited_fds] over the descriptors [l]. *)
Lemma close_all_but_run (w : Z) (l : list Z) (o : Popen) (p : proc) :
  ∃ p', for_each l (λ i, if bool_decide (i = w) then mret () else close i) (o, p)
        = (Return (), (o, p'))
        ∧ p_host p' = p_host p ∧ p_cwd p' = p_cwd p ∧ p_environ p' = p_environ p
        ∧ ∀ fd, p_fds p' !! fd
                = if bool_decide (fd ∈ l ∧ fd ≠ w) then None else p_fds p !! fd.
Proof.
  revert p. induction l as [|i l IH]; intros p.
  { exists p. do 4 (split; [done|]). intros fd. rewrite bool_decide_false; [done|].
    intros [H _]. by apply elem_of_nil in H. }
  cbn [for_each].
  assert (Hstep : ∃ p1, (if bool_decide (i = w) then mret () else close i) (o, p)
                        = (Return (), (o, p1))
                        ∧ p_host p1 = p_host p ∧ p_cwd p1 = p_cwd p
                        ∧ p_environ p1 = p_environ p
                        ∧ ∀ fd, p_fds p1 !! fd
                                = if bool_decide (fd = i ∧ fd ≠ w) then None
                                  else p_fds p !! fd).
  { case_bool_decide as Hi.
    - exists p. do 4 (split; [done|]). intros fd.
      rewrite bool_decide_false; [done|]. lia.
    - destruct (p_fds p !! i) as [d|] eqn:Hd.
      + rewrite (close_run o i d p Hd). eexists. do 4 (split; [done|]).
        intros fd. simpl.
        case_bool_decide as Hfd.
        * destruct Hfd as [-> _]. apply lookup_delete_eq.
        * apply lookup_delete_ne. intros ->. by apply Hfd.
      + rewrite (close_closed o i p Hd). eexists. do 4 (split; [done|]).
        intros fd. simpl.
        case_bool_decide as Hfd; [|done]. by destruct Hfd as [-> _]. }
  destruct Hstep as (p1 & Hrun1 & Hh1 & Hc1 & He1 & Hf1).
  erewrite bind_run by exact Hrun1.
  destruct (IH p1) as (p' & Hrun & Hh & Hc & He & Hf). exists p'.
  split; [exact Hrun|]. rewrite Hh, Hc, He. do 3 (split; [done|]).
  intros fd. rewrite Hf, Hf1.
  destruct (decide (fd ∈ l ∧ fd ≠ w)) as [H|H].
  - rewrite (bool_decide_true _ H). rewrite bool_decide_true; [done|].
    destruct H. split; [by right|done].
  - rewrite (bool_decide_false _ H).
    destruct (decide (fd = i ∧ fd ≠ w)) as [H'|H'].
    + rewrite (bool_decide_true _ H'). rewrite bool_decide_true; [done|].
      destruct H' as [-> ?]. split; [by left|done].
    + rewrite (bool_decide_false _ H'). rewrite bool_decide_false; [done|].
      intros [Hin Hw]. apply elem_of_cons in Hin as [->|Hin]; [by apply H'|by apply H].
Qed.

Lemma elem_of_fd_range (fd max_fd : Z) :
  fd ∈ Z.of_nat <$> seq 3 (Z.to_nat max_fd - 3) ↔ 3 ≤ fd < max_fd.
Proof.
  rewrite list_elem_of_fmap. split.
  - intros (n & -> & Hn). apply elem_of_seq in Hn. lia.
  - intros H. exists (Z.to_nat fd). split; [lia|]. apply elem_of_seq. lia.
Qed.

(** What [close_inherited_fds] leaves of the descriptor table [t]. *)
Definition inherited (t t' : gmap Z fdesc) (max_fd err_wr_pipe_ : Z) : Prop :=
  ∀ fd, t' !! fd = if bool_decide (3 ≤ fd < max_fd ∧ fd ≠ err_wr_pipe_) then None
                   else t !! fd.

Lemma close_inherited_fds_run (w : Z) (o : Popen) (p : proc) :
  close_fds_ o = true → sc_open_max (p_host p) ≠ -1 →
  ∃ p', Child.close_inherited_fds w (o, p) = (Return (), (o, p'))
        ∧ p_host p' = p_host p ∧ p_cwd p' = p_cwd p ∧ p_environ p' = p_environ p
        ∧ inherited (p_fds p) (p_fds p') (sc_open_max (p_host p)) w.
Proof.
  intros Hc Hmax. unfold Child.close_inherited_fds.
  erewrite bind_run by reflexivity. cbn [fst]. rewrite Hc. cbn [when].
  erewrite bind_run by (apply sys_run; reflexivity).
  rewrite bool_decide_false by done.
  destruct (close_all_but_run w (Z.of_nat <$> seq 3 (Z.to_nat (sc_open_max (p_host p)) - 3))
              o (emit (SysSysconfOpenMax (sc_open_max (p_host p))) p))
    as (p' & Hrun & Hh & Hcwd & He & Hf).
  exists p'. split; [exact Hrun|]. do 3 (split; [done|]).
  intros fd. rewrite Hf. simpl.
  destruct (decide (3 ≤ fd < sc_open_max (p_host p) ∧ fd ≠ w)) as [H|H].
  - rewrite !bool_decide_true; [done | done |]. destruct H. by rewrite elem_of_fd_range.
  - rewrite !bool_decide_false; [done | done |]. rewrite elem_of_fd_range. done.
Qed.

(** X15.  With [close_fds(true)], and [sysconf] answering [max_fd], the
    child closes every descriptor from 3 to [max_fd - 1] but the write
    end of the error pipe, and leaves the others (0, 1, 2, the error
    pipe, and those from [max_fd] on) as they are; when [sysconf]
    answers -1 it throws "sysconf failed" with the text of the [errno]
    that was there before the call, which [sysconf] has not set, and
    closes nothing; with [close_fds(false)] it makes no system call at
    all. *)
Theorem close_inherited_fds_spares_only_the_error_pipe
    (err_wr_pipe_ : Z) (o : Popen) (p : proc) :
  let r := Child.close_inherited_fds err_wr_pipe_ (o, p) in
  let max_fd := sc_open_max (p_host p) in
  r.2.1 = o
  ∧ if close_fds_ o then
      if bool_decide (max_fd = -1) then
        r.1 = Raise (mkOSError "sysconf failed" (p_errno p))
        ∧ p_fds r.2.2 = p_fds p ∧ p_errno r.2.2 = p_errno p
      else
        r.1 = Return () ∧ inherited (p_fds p) (p_fds r.2.2) max_fd err_wr_pipe_
    else r = (Return (), (o, p)).
Proof.
  intros r max_fd. subst r max_fd. destruct (close_fds_ o) eqn:Hc.
  - case_bool_decide as Hmax.
    + unfold Child.close_inherited_fds.
      erewrite bind_run by reflexivity. cbn [fst]. rewrite Hc. cbn [when].
      erewrite bind_run by (apply sys_run; reflexivity).
      rewrite Hmax. rewrite bool_decide_true by done. done.
    + destruct (close_inherited_fds_run err_wr_pipe_ o p Hc Hmax)
        as (p' & -> & _ & _ & _ & Hf). done.
  - unfold Child.close_inherited_fds.
    erewrite bind_run by reflexivity. cbn [fst]. by rewrite Hc.
Qed.

(** * What the new image inherits *)

Lemma lowest_free_lt t limit fd :
  lowest_free t limit = Some fd → fd < Z.of_nat limit.
Proof.
  unfold lowest_free. intros H. apply fmap_Some in H as (n & Hn & ->).
  apply find_some in Hn as [Hn _]. apply in_seq in Hn. lia.
Qed.

Section tidy.
Context (h : host) (w : Z).

(** A slot of a tidy table: the number is below the limit, and the
    write end of the error pipe is marked close-on-exec. *)
Definition tidy_slot (fd : Z) (d : fdesc) : Prop :=
  0 ≤ fd < Z.of_nat (rlimit_nofile h) ∧ (fd = w → fd_cloexec d = true).

Definition tidy (p : proc) : Prop :=
  p_host p = h ∧ map_Forall tidy_slot (p_fds p).

Lemma tidy_same p q : p_host q = p_host p → p_fds q = p_fds p → tidy p → tidy q.
Proof. intros Hh Hf [H1 H2]. split; [by rewrite Hh | by rewrite Hf]. Qed.

Lemma tidy_delete p q fd :
  p_host q = p_host p → p_fds q = delete fd (p_fds p) → tidy p → tidy q.
Proof.
  intros Hh Hf [H1 H2]. split; [by rewrite Hh|]. rewrite Hf. by apply map_Forall_delete.
Qed.

Lemma tidy_insert p q fd d :
  p_host q = p_host p → p_fds q = <[fd := d]> (p_fds p) → tidy_slot fd d →
  tidy p → tidy q.
Proof.
  intros Hh Hf Hd [H1 H2]. split; [by rewrite Hh|]. rewrite Hf.
  by apply map_Forall_insert_2.
Qed.

Lemma tidy_close {O} (K : O → Prop) fd : keeps (Inv K tidy) (close fd).
Proof.
  intros [o p] [HK HT]. simpl in HK, HT. destruct (p_fds p !! fd) as [d|] eqn:Hd.
  - rewrite (close_run o fd d p Hd). simpl. split; [done|].
    by apply (tidy_delete p _ fd).
  - rewrite (close_closed o fd p Hd). simpl. split; [done|]. by apply (tidy_same p).
Qed.

Lemma tidy_set_clo_on_exec fd set : fd ≠ w → keeps tidy (util.set_clo_on_exec fd set).
Proof.
  intros Hne p HT. destruct (p_fds p !! fd) as [d|] eqn:Hd.
  - rewrite (set_clo_on_exec_run fd set d p Hd). simpl.
    eapply (tidy_insert p); [done | done | | done].
    destruct HT as [_ HT]. destruct (HT fd d Hd) as [Hb _]. by split.
  - rewrite (set_clo_on_exec_closed fd set p Hd). simpl. by apply (tidy_same p).
Qed.

Lemma tidy_dup2 fd to_fd : to_fd ≠ w → keeps tidy (sys_dup2 fd to_fd).
Proof.
  intros Hne p HT. unfold sys_dup2, fails. destruct (p_fds p !! fd) as [d|] eqn:Hd.
  - case_bool_decide as Hlim.
    + case_bool_decide; simpl; [by apply (tidy_same p)|].
      eapply (tidy_insert p); [done | done | | done].
      destruct HT as [Hh _]. rewrite Hh in Hlim. by split.
    + simpl. by apply (tidy_same p).
  - simpl. by apply (tidy_same p).
Qed.

Lemma tidy__dup2_ fd to_fd : to_fd ≠ w → keeps tidy (Child._dup2_ fd to_fd).
Proof.
  intros Hne. unfold Child._dup2_. case_bool_decide as Heq.
  - apply tidy_set_clo_on_exec. by subst.
  - apply keeps_if; [|apply keeps_ret].
    apply keeps_bind; [by apply tidy_dup2|]. intros res.
    apply keeps_if; [|apply keeps_ret].
    apply keeps_bind; [apply keeps_gets|]. intros e. apply keeps_throw.
Qed.

(** While the error pipe is open, [dup] cannot return its number. *)
Definition tidy_open (p : proc) : Prop := tidy p ∧ is_Some (p_fds p !! w).

Lemma tidy_dup fd : keeps tidy_open (sys_dup fd).
Proof.
  intros p [HT Hw]. unfold sys_dup, fails. destruct (p_fds p !! fd) as [d|] eqn:Hd.
  - destruct (lowest_free (p_fds p) (rlimit_nofile (p_host p))) as [n|] eqn:Hn; simpl.
    + pose proof (lowest_free_spec _ _ _ Hn) as [Hn0 Hfree].
      pose proof (lowest_free_lt _ _ _ Hn) as Hlt.
      assert (Hnw : n ≠ w) by (intros ->; rewrite Hfree in Hw; by destruct Hw).
      split.
      * eapply (tidy_insert p); [done | done | | done].
        destruct HT as [Hh _]. rewrite Hh in Hlt. by split.
      * simpl. by rewrite lookup_insert_ne.
    + split; [by apply (tidy_same p) | done].
  - simpl. split; [by apply (tidy_same p) | done].
Qed.

Context (K : Popen → Prop) (HK : ∀ s o, K o → K (set_stream_ s o)).

Lemma tidy_redup_low_fds : keeps (Inv K tidy_open) Child.redup_low_fds.
Proof.
  unfold Child.redup_low_fds.
  repeat first [ apply keeps_gets | apply keeps_when
               | apply keeps_sys, tidy_dup
               | apply keeps_update; intros ? ?; by apply HK
               | apply keeps_bind; [| intros ?] ].
Qed.

Lemma tidy_create_std_streams :
  3 ≤ w → keeps (Inv K tidy) Child.create_std_streams.
Proof.
  intros Hw. unfold Child.create_std_streams.
  repeat first [ apply keeps_gets | apply keeps_when, tidy_close
               | apply keeps_sys, tidy__dup2_; lia
               | apply keeps_bind; [| intros ?] ].
Qed.

End tidy.

Lemma for_each_setenv_fds (l : list (string * string)) (o : Popen) (p : proc) :
  ∃ p',
    for_each l (λ kv, sys (sys_setenv (c_str kv.1) (c_str kv.2) true);; mret ()) (o, p)
    = (Return (), (o, p'))
    ∧ p_fds p' = p_fds p ∧ p_host p' = p_host p ∧ p_cwd p' = p_cwd p.
Proof.
  revert p. induction l as [|kv l IH]; intros p; [by exists p|].
  cbn [for_each].
  assert (Hstep : ∃ p1, (sys (O := Popen) (sys_setenv (c_str kv.1) (c_str kv.2) true);; mret ())
                          (o, p) = (Return (), (o, p1))
                        ∧ p_fds p1 = p_fds p ∧ p_host p1 = p_host p
                        ∧ p_cwd p1 = p_cwd p).
  { unfold mbind, M_bind, sys, sys_setenv, fails.
    destruct (env_name_ok (c_str kv.1)); simpl; by eexists. }
  destruct Hstep as (p1 & Hrun1 & Hf1 & Hh1 & Hc1).
  erewrite bind_run by exact Hrun1.
  destruct (IH p1) as (p' & Hrun & Hf & Hh & Hc). exists p'.
  split; [exact Hrun|]. by rewrite Hf, Hh, Hc.
Qed.

(** The image holds no descriptor above 2. *)
Definition standard_only (x : abnormal) : Prop :=
  match x with
  | AStop (Replaced img) => ∀ fd d, img_fds img !! fd = Some d → 0 ≤ fd ≤ 2
  | _ => True
  end.

Section sealed.
Context (h : host) (w : Z).
Context (Hw : 3 ≤ w) (Hmax : Z.of_nat (rlimit_nofile h) ≤ sc_open_max h).

(** After [close_inherited_fds]: the table is tidy and nothing is open
    between 3 and the limit but, possibly, the error pipe. *)
Definition sealed (p : proc) : Prop :=
  tidy h w p ∧ ∀ fd, 3 ≤ fd < sc_open_max h → fd ≠ w → p_fds p !! fd = None.

Lemma sealed_same p q : p_host q = p_host p → p_fds q = p_fds p → sealed p → sealed q.
Proof.
  intros Hh Hf [HT Hs]. split; [by apply (tidy_same h w p)|]. by rewrite Hf.
Qed.

Definition closes_all (o : Popen) : Prop := close_fds_ o = true.

Lemma sealed_close_inherited_fds :
  hoare (Inv closes_all (tidy h w)) (Child.close_inherited_fds w)
    (λ _, Inv closes_all sealed) (λ x _, raises x).
Proof.
  intros [o p] [HK [Hh HT]]. simpl in HK, Hh, HT.
  destruct (close_inherited_fds_run w o p HK) as (p' & Hrun & Hh' & _ & _ & Hf).
  { rewrite Hh. lia. }
  rewrite Hrun. simpl. split; [done|]. rewrite Hh in Hf. simpl. split; [split|].
  - by rewrite Hh'.
  - intros fd d Hd. rewrite Hf in Hd. case_bool_decide; [done|]. by apply HT.
  - intros fd H1 H2. rewrite Hf. by rewrite bool_decide_true.
Qed.

Lemma sealed_change_directory :
  hoare (Inv closes_all sealed) Child.change_directory
    (λ _, Inv closes_all sealed) (λ x _, raises x).
Proof.
  intros [o p] [HK HS]. unfold Child.change_directory.
  erewrite bind_run by reflexivity. cbn [fst].
  destruct (negb (bool_decide (String.length (cwd_ o) = 0%nat))); [|done].
  unfold when, mbind, M_bind, sys, sys_chdir, fails, errno.
  case_bool_decide; simpl; [|done]. split; [done|]. by apply (sealed_same p).
Qed.

Lemma sealed_replace_image :
  hoare (Inv closes_all sealed) Child.replace_image
    (λ _ _, True) (λ x _, standard_only x).
Proof.
  assert (Hexec : ∀ file argv (o : Popen) p, sealed p →
            match ending (sys (O := Popen) (sys_execvp file argv) (o, p)).1 with
            | inl _ => True
            | inr x => standard_only x
            end).
  { intros file argv o p [[Hh HT] Hs]. unfold sys, sys_execvp, fails.
    case_bool_decide; simpl; [|done].
    destruct (until_null _ _); simpl; [|done]. intros fd d Hd.
    apply map_lookup_filter_Some in Hd as [Hd Hcl]. simpl in Hcl.
    destruct (HT fd d Hd) as [Hb Hwc].
    destruct (decide (fd ≤ 2)) as [|Hbig]; [lia|].
    destruct (decide (fd = w)) as [Hfw|Hfw].
    - rewrite (Hwc Hfw) in Hcl. discriminate Hcl.
    - rewrite Hs in Hd by lia. discriminate Hd. }
  intros [o p] [HK HS]. unfold Child.replace_image.
  erewrite bind_run by reflexivity. cbn [fst].
  assert (Hthrow : ∀ (r : outcome Z) (s : Popen * proc),
            match ending r with inl _ => True | inr x => standard_only x end →
            match ending ((λ s0, (r, s0)) ≫= (λ sys_ret : Z,
                     if bool_decide (sys_ret = -1)
                     then e ← errno; throw (mkOSError "execve failed" e)
                     else mret ()) $ s).1 with
            | inl _ => True
            | inr x => standard_only x
            end).
  { intros [a|e|x] s Hr; unfold mbind, M_bind; simpl; [|done|done].
    destruct s as [o' p']. unfold errno, sys, gets, throw, mret, M_ret.
    case_bool_decide; done. }
  destruct (negb (bool_decide (size (env_ o) = 0%nat))).
  - destruct (for_each_setenv_fds (map_items (env_ o)) o p) as (p' & Hrun & Hf & Hh & _).
    unfold mbind at 1, M_bind at 1. unfold mbind at 1, M_bind at 1. rewrite Hrun.
    pose proof (Hexec (c_str (exe_name_ o)) (deref (vargs_ o) <$> cargv_ o) o p'
                  (sealed_same p p' Hh Hf HS)) as He.
    destruct (sys (sys_execvp _ _) (o, p')) as [r s]. simpl in He.
    apply (Hthrow r s He).
  - pose proof (Hexec (c_str (exe_name_ o)) (deref (vargs_ o) <$> cargv_ o) o p HS) as He.
    unfold mbind at 1, M_bind at 1.
    destruct (sys (sys_execvp _ _) (o, p)) as [r s]. simpl in He.
    apply (Hthrow r s He).
Qed.

Lemma execute_child_standard_only :
  hoare (Inv closes_all (tidy_open h w)) (Child.execute_child w)
    (λ _ _, True) (λ x _, standard_only x).
Proof.
  assert (HK : ∀ s o, closes_all o → closes_all (set_stream_ s o)) by done.
  assert (Hraise : ∀ x, raises x → standard_only x) by (by intros [e|x]).
  unfold Child.execute_child.
  eapply hoare_bind with (Qm := λ _ _, True).
  - eapply hoare_try_catch with (Eb := λ x _, standard_only x).
    + eapply hoare_bind.
      { eapply hoare_conseq;
          [apply (hoare_keeps_quiet _ _ (tidy_redup_low_fds h w closes_all HK)
                    quiet_redup_low_fds)
          | intros ? HP; exact HP | intros ? ? HQ; exact HQ | intros ? ? ?; by apply Hraise]. }
      intros []. eapply hoare_bind.
      { eapply hoare_conseq;
          [apply (hoare_keeps_quiet _ _ (tidy_create_std_streams h w closes_all Hw)
                    quiet_create_std_streams)
          | | intros ? ? HQ; exact HQ | intros ? ? ?; by apply Hraise].
        intros s [HK' [HT _]]. by split. }
      intros []. eapply hoare_bind.
      { eapply hoare_conseq;
          [apply sealed_close_inherited_fds
          | intros ? HP; exact HP | intros ? ? HQ; exact HQ | intros ? ? ?; by apply Hraise]. }
      intros []. eapply hoare_bind.
      { eapply hoare_conseq;
          [apply sealed_change_directory
          | intros ? HP; exact HP | intros ? ? HQ; exact HQ | intros ? ? ?; by apply Hraise]. }
      intros []. apply sealed_replace_image.
    + intros e _. eapply hoare_conseq with (P' := λ _, True) (Q' := λ _ _, True)
                    (E' := λ x _, raises x); [| done | done |].
      * apply quiet_bind; [apply quiet_sys, quiet_write_n | intros; apply quiet_ret].
      * intros x _ Hx. by apply Hraise.
    + done.
    + done.
  - intros []. apply hoare_sys. intros o. by apply hoare_halt.
Qed.

End sealed.

(** X16.  With [close_fds(true)] the new program inherits the descriptors 0,
    1 and 2 and no other one, provided the error pipe's write end is
    above 2 and marked close-on-exec (as [execute_process] leaves it),
    every open descriptor is below the descriptor limit and
    [sysconf(_SC_OPEN_MAX)] is not below that limit. *)
Theorem close_fds_leaves_the_image_the_standard_descriptors
    (err_wr_pipe_ : Z) (o : Popen) (p : proc) (img : image) :
  close_fds_ o = true →
  3 ≤ err_wr_pipe_ →
  (∃ d, p_fds p !! err_wr_pipe_ = Some d ∧ fd_cloexec d = true) →
  (∀ fd d, p_fds p !! fd = Some d → 0 ≤ fd < Z.of_nat (rlimit_nofile (p_host p))) →
  Z.of_nat (rlimit_nofile (p_host p)) ≤ sc_open_max (p_host p) →
  (Child.execute_child err_wr_pipe_ (o, p)).1 = Stop (Replaced img) →
  map_Forall (λ fd _, 0 ≤ fd ≤ 2) (img_fds img).
Proof.
  intros Hc Hw (d0 & Hd0 & Hcl) Hb Hmax Hrun.
  assert (HI : Inv closes_all (tidy_open (p_host p) err_wr_pipe_) (o, p)).
  { split; [exact Hc|]. split; [split; [done|]|by eexists].
    intros fd d Hd. simpl in Hd. split; [exact (Hb fd d Hd)|]. intros ->. congruence. }
  pose proof (execute_child_standard_only (p_host p) err_wr_pipe_ Hw Hmax (o, p) HI) as H.
  rewrite Hrun in H. exact H.
Qed.

(** * The directory the image starts in *)

(** A predicate on the process that looks at neither the descriptor
    table, nor [errno], nor the trace. *)
Record fd_blind (U : proc → Prop) : Prop := FdBlind {
  blind_fds f p : U p → U (set_fds f p);
  blind_errno e p : U p → U (set_errno e p);
  blind_emit ev p : U p → U (emit ev p)
}.

Ltac blind_prim HU :=
  let p := fresh "p" in let Hp := fresh "Hp" in
  intros p Hp; unfold hoare, fails; simpl;
  repeat case_match; simplify_eq/=;
  repeat first [ assumption | apply (blind_emit _ HU) | apply (blind_fds _ HU)
               | apply (blind_errno _ HU) ].

Section fd_blind_keeps.
Context (K : Popen → Prop) (U : proc → Prop) (HU : fd_blind U).
Context (HK : ∀ s o, K o → K (set_stream_ s o)).

Lemma blind_sys_close fd : keeps U (sys_close fd).
Proof. unfold sys_close. blind_prim HU. Qed.

Lemma blind_sys_dup fd : keeps U (sys_dup fd).
Proof. unfold sys_dup. blind_prim HU. Qed.

Lemma blind_sys_dup2 fd to_fd : keeps U (sys_dup2 fd to_fd).
Proof. unfold sys_dup2. blind_prim HU. Qed.

Lemma blind_sys_fcntl_getfd fd : keeps U (sys_fcntl_getfd fd).
Proof. unfold sys_fcntl_getfd. blind_prim HU. Qed.

Lemma blind_sys_fcntl_setfd fd flags : keeps U (sys_fcntl_setfd fd flags).
Proof. unfold sys_fcntl_setfd. blind_prim HU. Qed.

Lemma blind_sys_sysconf_open_max : keeps U sys_sysconf_open_max.
Proof. unfold sys_sysconf_open_max. blind_prim HU. Qed.

Lemma blind_close {O} (K' : O → Prop) fd : keeps (Inv K' U) (close fd).
Proof.
  unfold close. apply keeps_bind; [apply keeps_sys, blind_sys_close|].
  intros _. apply keeps_ret.
Qed.

Lemma blind__dup2_ fd to_fd : keeps U (Child._dup2_ fd to_fd).
Proof.
  unfold Child._dup2_, util.set_clo_on_exec.
  repeat first [ apply keeps_ret | apply keeps_throw | apply keeps_gets
               | apply blind_sys_fcntl_getfd | apply blind_sys_fcntl_setfd
               | apply blind_sys_dup2 | apply keeps_if
               | apply keeps_bind; [| intros ?] ].
Qed.

Lemma blind_redup_low_fds : keeps (Inv K U) Child.redup_low_fds.
Proof.
  unfold Child.redup_low_fds.
  repeat first [ apply keeps_gets | apply keeps_when
               | apply keeps_sys, blind_sys_dup
               | apply keeps_update; intros ? ?; by apply HK
               | apply keeps_bind; [| intros ?] ].
Qed.

Lemma blind_create_std_streams : keeps (Inv K U) Child.create_std_streams.
Proof.
  unfold Child.create_std_streams.
  repeat first [ apply keeps_gets | apply keeps_when, blind_close
               | apply keeps_sys, blind__dup2_
               | apply keeps_bind; [| intros ?] ].
Qed.

Lemma blind_close_inherited_fds w : keeps (Inv K U) (Child.close_inherited_fds w).
Proof.
  unfold Child.close_inherited_fds. apply keeps_this_bind. intros o Ho.
  apply keeps_when. apply keeps_bind; [apply keeps_sys, blind_sys_sysconf_open_max|].
  intros max_fd. apply keeps_if.
  - apply keeps_errno_bind. intros e. apply keeps_throw.
  - apply keeps_for_each. intros i. apply keeps_if; [apply keeps_ret | apply blind_close].
Qed.

End fd_blind_keeps.

Lemma replace_image_frame (o : Popen) (p : proc) :
  ∃ r s, Child.replace_image (o, p) = (r, s)
         ∧ p_cwd s.2 = p_cwd p ∧ p_host s.2 = p_host p.
Proof.
  assert (Hexec : ∀ (o' : Popen) p',
            ∃ r s, (sys (sys_execvp (c_str (exe_name_ o)) (deref (vargs_ o) <$> cargv_ o))
                      ≫= (λ sys_ret : Z,
                            if bool_decide (sys_ret = -1)
                            then e ← errno; throw (mkOSError "execve failed" e)
                            else mret ())) (o', p') = (r, s)
                   ∧ p_cwd s.2 = p_cwd p' ∧ p_host s.2 = p_host p').
  { intros.
    unfold mbind, M_bind, sys, sys_execvp, fails, errno, gets, throw, mret, M_ret.
    case_bool_decide; simpl; [|by do 2 eexists].
    destruct (until_null _ _); simpl; by do 2 eexists. }
  unfold Child.replace_image. erewrite bind_run by reflexivity. cbn [fst].
  destruct (negb (bool_decide (size (env_ o) = 0%nat))).
  - destruct (for_each_setenv_fds (map_items (env_ o)) o p) as (p' & Hrun & _ & Hh & Hc).
    unfold mbind at 1, M_bind at 1. unfold mbind at 1, M_bind at 1. rewrite Hrun.
    destruct (Hexec o p') as (r & s & Hr & H1 & H2).
    unfold mbind at 1, M_bind at 1 in Hr. rewrite Hr. exists r, s.
    by rewrite H1, H2, Hh, Hc.
  - apply Hexec.
Qed.

Section cwd.
Context (c d0 : string) (h : host).

Definition has_cwd_ (o : Popen) : Prop := cwd_ o = c.

(** Before and after "Change the working directory if provided". *)
Definition in_old_dir (p : proc) : Prop := p_cwd p = d0 ∧ p_host p = h.

Definition in_new_dir (p : proc) : Prop :=
  if bool_decide (String.length c = 0%nat) then p_cwd p = d0
  else p_cwd p = c_str c ∧ c_str c ∈ directories h.

Lemma in_old_dir_blind : fd_blind in_old_dir.
Proof. by split. Qed.

Lemma change_directory_enters :
  hoare (Inv has_cwd_ in_old_dir) Child.change_directory
    (λ _ s, in_new_dir s.2) (λ x _, raises x).
Proof.
  intros [o p] [HK [Hc Hh]]. simpl in HK, Hc, Hh. unfold Child.change_directory.
  erewrite bind_run by reflexivity. cbn [fst]. rewrite HK. unfold in_new_dir.
  destruct (bool_decide (String.length c = 0%nat)); [done|].
  unfold negb, when, mbind, M_bind, sys, sys_chdir, fails, errno.
  case_bool_decide as Hdir; simpl; [|done]. by rewrite <- Hh.
Qed.

Definition started_in_new_dir (x : abnormal) (s : Popen * proc) : Prop :=
  match x with
  | AStop (Replaced _) => in_new_dir s.2
  | _ => True
  end.

Lemma execute_child_cwd (w : Z) :
  hoare (Inv has_cwd_ in_old_dir) (Child.execute_child w)
    (λ _ _, True) started_in_new_dir.
Proof.
  assert (HK : ∀ s o, has_cwd_ o → has_cwd_ (set_stream_ s o)) by done.
  assert (Hraise : ∀ x s, raises x → started_in_new_dir x s) by (by intros [e|x]).
  assert (Hpre : ∀ A (step : Obj Popen A),
            keeps (Inv has_cwd_ in_old_dir) step → quiet step →
            hoare (Inv has_cwd_ in_old_dir) step (λ _, Inv has_cwd_ in_old_dir)
              started_in_new_dir).
  { intros A step Hk Hq. eapply hoare_conseq;
      [apply (hoare_keeps_quiet _ _ Hk Hq) | intros ? HP; exact HP
      | intros ? ? HQ; exact HQ | intros ? ? ?; by apply Hraise]. }
  unfold Child.execute_child.
  eapply hoare_bind with (Qm := λ _ _, True).
  - eapply hoare_try_catch with (Eb := started_in_new_dir).
    + eapply hoare_bind;
        [apply Hpre; [apply (blind_redup_low_fds _ _ in_old_dir_blind HK)
                     | apply quiet_redup_low_fds]|].
      intros []. eapply hoare_bind;
        [apply Hpre; [apply (blind_create_std_streams _ _ in_old_dir_blind)
                     | apply quiet_create_std_streams]|].
      intros []. eapply hoare_bind;
        [apply Hpre; [apply (blind_close_inherited_fds _ _ in_old_dir_blind)
                     | apply quiet_close_inherited_fds]|].
      intros []. eapply hoare_bind.
      { eapply hoare_conseq;
          [apply change_directory_enters | intros ? HP; exact HP
          | intros ? ? HQ; exact HQ | intros ? ? ?; by apply Hraise]. }
      intros []. intros [o p] Hnew. simpl in Hnew.
      destruct (replace_image_frame o p) as (r & [o' p'] & -> & Hc & Hh).
      destruct r as [[]|e|[]]; simpl in *; try done.
      unfold in_new_dir in *. by rewrite Hc.
    + intros e _. eapply hoare_conseq with (P' := λ _, True) (Q' := λ _ _, True)
                    (E' := λ x _, raises x); [| done | done |].
      * apply quiet_bind; [apply quiet_sys, quiet_write_n | intros; apply quiet_ret].
      * intros x s Hx. by apply Hraise.
    + done.
    + done.
  - intros []. apply hoare_sys. intros o. by apply hoare_halt.
Qed.

End cwd.

(** X17.  The program never starts in the wrong directory: when the image is
    replaced and a working directory was given, the process is in that
    directory (the name up to its first NUL), which is a directory of
    the host; a failed [chdir] keeps [execvp] from being called.
    Without one, the process is where it was. *)
Theorem image_starts_in_the_configured_directory
    (err_wr_pipe_ : Z) (o : Popen) (p : proc) (img : image) :
  let r := Child.execute_child err_wr_pipe_ (o, p) in
  r.1 = Stop (Replaced img) →
  if bool_decide (String.length (cwd_ o) = 0%nat) then p_cwd r.2.2 = p_cwd p
  else p_cwd r.2.2 = c_str (cwd_ o) ∧ c_str (cwd_ o) ∈ directories (p_host p).
Proof.
  intros r Hrun. subst r.
  pose proof (execute_child_cwd (cwd_ o) (p_cwd p) (p_host p) err_wr_pipe_ (o, p)) as H.
  rewrite Hrun in H. apply H. by split.
Qed.

(** * The stream specifications *)

(** What a constructor that takes a file name does: it makes one call
    of [open] on [path] with [flags], and keeps the descriptor as the
    child's end, or throws. *)
Definition opens_or_throws (path : string) (flags : open_flags) (p : proc)
    (r : outcome channel * proc) (child_end parent_end : channel → Z) : Prop :=
  match r.1 with
  | Return ch =>
      parent_end ch = -1 ∧ child_end ch ≠ -1
      ∧ lowest_free (p_fds p) (rlimit_nofile (p_host p)) = Some (child_end ch)
      ∧ p_fds p !! child_end ch = None
      ∧ p_fds r.2 = <[child_end ch := FDesc (RegFile path) false]> (p_fds p)
      ∧ new_events p r.2 = [SysOpen path flags (child_end ch)]
  | Raise e =>
      what e = "File not found:  : " +:+ strerror (p_errno r.2)
      ∧ p_fds r.2 = p_fds p
      ∧ new_events p r.2 = [SysOpen path flags (-1)]
  | Stop _ => False
  end.

Lemma new_events_emit (ev : syscall) (p q : proc) :
  p_trace q = p_trace p → new_events p (emit ev q) = [ev].
Proof.
  intros Hq. unfold new_events. simpl. rewrite Hq.
  by rewrite drop_app_length.
Qed.

Lemma sys_open_opens_or_throws path flags (mk : Z → channel) child_end parent_end p :
  (∀ fd, child_end (mk fd) = fd ∧ parent_end (mk fd) = -1) →
  opens_or_throws path flags p
    ((fd ← sys_open path flags;
      if bool_decide (fd = -1) then
        e ← gets p_errno; throw (mkOSError "File not found: " e)
      else mret (mk fd)) p)
    child_end parent_end.
Proof.
  intros Hmk. unfold opens_or_throws, mbind, M_bind, sys_open, fails.
  destruct (match flags with O_RDONLY => _ | O_APPEND_CREAT_RDWR => _ end).
  - destruct (lowest_free (p_fds p) (rlimit_nofile (p_host p))) as [n|] eqn:Hn.
    + pose proof Hn as Hlow. apply lowest_free_spec in Hn as [Hn0 Hfree].
      rewrite bool_decide_false by lia. cbn [fst snd mret M_ret].
      destruct (Hmk n) as [-> ->].
      split; [done|]. split; [lia|]. split; [done|]. split; [done|].
      split; [done|]. by apply new_events_emit.
    + cbn. split; [done|]. split; [done|]. by apply new_events_emit.
  - cbn. split; [done|]. split; [done|]. by apply new_events_emit.
Qed.

(** X18.  The constructors that take a file name make one call of [open]
    on it (the name up to its first NUL), read-only for stdin and with
    append, create and read-write for stdout and stderr.  The file is
    opened on the lowest unused descriptor and without close-on-exec,
    as the child's end, and the parent's end is left unset; when
    [open] fails they open nothing and throw an [OSError] whose
    message is "File not found: " followed by " : " and the text of
    [errno]. *)
Theorem file_specifications_set_the_child_end_only (filename : string) (p : proc) :
  opens_or_throws (c_str filename) O_RDONLY p (input_file filename p) rd_ch_ wr_ch_
  ∧ opens_or_throws (c_str filename) O_APPEND_CREAT_RDWR p (output_file filename p)
      wr_ch_ rd_ch_
  ∧ opens_or_throws (c_str filename) O_APPEND_CREAT_RDWR p (error_file filename p)
      wr_ch_ rd_ch_.
Proof.
  split; [|split].
  - by apply (sys_open_opens_or_throws _ O_RDONLY (λ fd, Channel fd (-1))).
  - by apply (sys_open_opens_or_throws _ O_APPEND_CREAT_RDWR (λ fd, Channel (-1) fd)).
  - by apply (sys_open_opens_or_throws _ O_APPEND_CREAT_RDWR (λ fd, Channel (-1) fd)).
Qed.

(** The two ends of one pipe, in the table. *)
Definition pipe_ends (p : proc) (id : nat) (rd wr : Z) : Prop :=
  p_fds p !! rd = Some (FDesc (PipeRd id) true)
  ∧ p_fds p !! wr = Some (FDesc (PipeWr id) true).

Lemma pipe_spec_run (ndebug : bool) (p : proc) (rd wr : Z) :
  pipe_room p rd wr →
  (assert ndebug (bool_decide (PIPE = PIPE));;
   '(rd, wr) ← util.pipe_cloexec; mret (Channel rd wr)) p
  = (Return (Channel rd wr), after_pipe_cloexec p rd wr).
Proof.
  intros Hroom. unfold assert. rewrite bool_decide_true by done.
  rewrite orb_true_r. erewrite bind_run by reflexivity.
  erewrite bind_run by (apply pipe_cloexec_run, Hroom). reflexivity.
Qed.

(** X19.  A [PIPE] specification gives each side the end it needs, whatever
    the slots held before: for stdin the child's slot is the read end
    and the parent's slot the write end, for stdout and stderr the
    child's slot is the write end and the parent's slot the read end,
    of one new pipe whose two ends are marked close-on-exec. *)
Theorem pipe_specifications_give_each_side_its_end
    (ndebug : bool) (o : Popen) (p : proc) (rd wr : Z) :
  pipe_room p rd wr →
  (let r := (inp ← sys (input_pipe ndebug PIPE);
             ArgumentDeducer.set_option (arg_input inp)) (o, p) in
   r.1 = Return ()
   ∧ read_from_parent_ (stream_ r.2.1) = rd ∧ write_to_child_ (stream_ r.2.1) = wr
   ∧ pipe_ends r.2.2 (p_npipes p) rd wr)
  ∧ (let r := (out ← sys (output_pipe ndebug PIPE);
               ArgumentDeducer.set_option (arg_output out)) (o, p) in
     r.1 = Return ()
     ∧ write_to_parent_ (stream_ r.2.1) = wr ∧ read_from_child_ (stream_ r.2.1) = rd
     ∧ pipe_ends r.2.2 (p_npipes p) rd wr)
  ∧ (let r := (err ← sys (error_pipe ndebug PIPE);
               ArgumentDeducer.set_option (arg_error err)) (o, p) in
     r.1 = Return ()
     ∧ err_write_ (stream_ r.2.1) = wr ∧ err_read_ (stream_ r.2.1) = rd
     ∧ pipe_ends r.2.2 (p_npipes p) rd wr).
Proof.
  intros Hroom. pose proof (pipe_room_fresh p rd wr Hroom) as (Hrd & Hwr & Hne).
  pose proof (lowest_free_spec _ _ _ (proj2 Hroom)) as [Hwr0 _].
  assert (Hends : pipe_ends (after_pipe_cloexec p rd wr) (p_npipes p) rd wr).
  { split; simpl; unfold with_pipe.
    - by rewrite lookup_insert_ne, lookup_insert_eq.
    - by rewrite lookup_insert_eq. }
  assert (Hset : bool_decide (wr ≠ -1) = true) by (apply bool_decide_eq_true; lia).
  pose proof (lowest_free_spec _ _ _ (proj1 Hroom)) as [Hrd0 _].
  assert (Hset' : bool_decide (rd ≠ -1) = true) by (apply bool_decide_eq_true; lia).
  split; [|split]; intros r; subst r.
  - erewrite bind_run by (apply sys_run, pipe_spec_run, Hroom).
    simpl. unfold update_stream, update, modify, when, mbind, M_bind. simpl.
    rewrite Hset. simpl. done.
  - erewrite bind_run by (apply sys_run, pipe_spec_run, Hroom).
    simpl. unfold update_stream, update, modify, when, mbind, M_bind. simpl.
    rewrite Hset'. simpl. done.
  - erewrite bind_run by (apply sys_run, pipe_spec_run, Hroom).
    simpl. unfold update_stream, update, modify, when, mbind, M_bind. simpl.
    rewrite Hset'. simpl. done.
Qed.

Lemma pipe_specifications_give_each_side_its_end_witness :
  (let r := (inp ← sys (input_pipe false PIPE);
             ArgumentDeducer.set_option (arg_input inp)) (Popen_init, no_more_processes) in
   r.1 = Return ()
   ∧ read_from_parent_ (stream_ r.2.1) = 3 ∧ write_to_child_ (stream_ r.2.1) = 4
   ∧ pipe_ends r.2.2 (p_npipes no_more_processes) 3 4)
  ∧ (let r := (out ← sys (output_pipe false PIPE);
               ArgumentDeducer.set_option (arg_output out)) (Popen_init, no_more_processes) in
     r.1 = Return ()
     ∧ write_to_parent_ (stream_ r.2.1) = 4 ∧ read_from_child_ (stream_ r.2.1) = 3
     ∧ pipe_ends r.2.2 (p_npipes no_more_processes) 3 4)
  ∧ (let r := (err ← sys (error_pipe false PIPE);
               ArgumentDeducer.set_option (arg_error err)) (Popen_init, no_more_processes) in
     r.1 = Return ()
     ∧ err_write_ (stream_ r.2.1) = 4 ∧ err_read_ (stream_ r.2.1) = 3
     ∧ pipe_ends r.2.2 (p_npipes no_more_processes) 3 4).
Proof.
  apply (pipe_specifications_give_each_side_its_end false Popen_init no_more_processes 3 4).
  split; vm_compute; reflexivity.
Defined.

(** * Launching *)

(** X20.  When the table has no room for the error pipe, [execute_process]
    throws "pipe failure" before anything else happens: no [fork] is
    made, and the launcher is exactly as before (here, unlike after a
    failed [fork], also [exe_name_] and [child_pid_]). *)
Theorem pipe_failure_leaves_the_launcher_as_it_was (o : Popen) (p : proc) :
  (∀ rd wr, ¬ pipe_room p rd wr) →
  execute_process (o, p)
  = (Raise (OSError "pipe failure : Too many open files"),
     (o, emit (SysPipe (-1) 0 0) (set_errno EMFILE p))).
Proof.
  intros Hfull. unfold execute_process, exception_spec.
  unfold mbind at 1, M_bind at 1, sys at 1.
  by rewrite (pipe_cloexec_full p Hfull).
Qed.

(** A process whose descriptor limit leaves one free descriptor. *)
Definition crowded : proc :=
  Proc (Host 4 4 ∅ ∅ ∅ {["ls"]} ∅ (Some []))
       {[0 := FDesc Tty false; 1 := FDesc Tty false; 2 := FDesc Tty false]}
       ENONE ∅ "/" 0 ∅ [1234] [] [] [].

Lemma pipe_failure_leaves_the_launcher_as_it_was_witness :
  execute_process (ls_launcher, crowded)
  = (Raise (OSError "pipe failure : Too many open files"),
     (ls_launcher, emit (SysPipe (-1) 0 0) (set_errno EMFILE crowded))).
Proof.
  apply (pipe_failure_leaves_the_launcher_as_it_was ls_launcher crowded).
  intros rd wr [H1 H2]. vm_compute in H1. injection H1 as <-.
  vm_compute in H2. discriminate H2.
Defined.

(** The last [defer_spawn] option of an argument pack decides. *)
Definition last_defer (d0 : bool) (args : list popen_arg) : bool :=
  foldl (λ d a, match a with defer_spawn d' => d' | _ => d end) d0 args.

Lemma init_args_run (args : list popen_arg) (o : Popen) (p : proc) :
  ∃ o', init_args args (o, p) = (Return (), (o', p))
        ∧ defer_process_start_ o' = last_defer (defer_process_start_ o) args
        ∧ child_pid_ o' = child_pid_ o.
Proof.
  revert o. induction args as [|a args IH]; intros o.
  - cbn [init_args]. unfold populate_c_argv. erewrite bind_run by reflexivity.
    rewrite for_each_push_back. by eexists.
  - cbn [init_args].
    assert (Hopt : ∃ o1, ArgumentDeducer.set_option a (o, p) = (Return (), (o1, p))
                         ∧ defer_process_start_ o1
                           = match a with defer_spawn d' => d' | _ => defer_process_start_ o end
                         ∧ child_pid_ o1 = child_pid_ o).
    { destruct a; simpl;
        unfold update_stream, update, modify, when, mbind, M_bind; simpl;
        repeat case_match; simplify_eq/=; by eexists. }
    destruct Hopt as (o1 & Hrun1 & Hd1 & Hp1).
    erewrite bind_run by exact Hrun1.
    destruct (IH o1) as (o' & Hrun & Hd & Hp). exists o'.
    split; [exact Hrun|]. rewrite Hd, Hp, Hd1, Hp1. done.
Qed.

(** X21.  Applying the options makes no system call.  When the last
    [defer_spawn] option is [true], the constructor returns with the
    process as it was and no child: nothing is launched before
    [start_process].  Otherwise the constructor ends as
    [execute_process] does on the configured object. *)
Theorem construction_launches_unless_deferred
    (cmd_args : list string) (args : list popen_arg) (p : proc) :
  ∃ o',
    init_args args (set_vargs_ (c_str <$> cmd_args) Popen_init, p) = (Return (), (o', p))
    ∧ child_pid_ o' = -1
    ∧ Popen_ctor cmd_args args (Popen_init, p)
      = if last_defer false args then (Return (), (o', p))
        else execute_process (o', p).
Proof.
  destruct (init_args_run args (set_vargs_ (c_str <$> cmd_args) Popen_init) p)
    as (o' & Hrun & Hd & Hp).
  exists o'. split; [exact Hrun|]. split; [exact Hp|].
  unfold Popen_ctor. erewrite bind_run by reflexivity.
  cbn [vargs_ Popen_init app]. erewrite bind_run by exact Hrun.
  erewrite bind_run by reflexivity. cbn [fst]. rewrite Hd. simpl.
  by destruct (last_defer false args).
Qed.

(** * A launch that succeeds *)

(** Since the trace was [T0], the process has not called [waitpid]. *)
Definition no_wait (T0 : list syscall) (p : proc) : Prop :=
  ∃ evs, p_trace p = T0 ++ evs ∧ waitpid_results evs = [].

Lemma no_wait_emit T0 p q ev :
  p_trace q = p_trace p ++ [ev] → waitpid_results [ev] = [] →
  no_wait T0 p → no_wait T0 q.
Proof.
  intros Hq Hev (evs & Htr & Hw). exists (evs ++ [ev]). split.
  - by rewrite Hq, Htr, app_assoc.
  - unfold waitpid_results in *. by rewrite omap_app, Hw, Hev.
Qed.

Lemma no_wait_same T0 p q : p_trace q = p_trace p → no_wait T0 p → no_wait T0 q.
Proof. intros Hq (evs & Htr & Hw). exists evs. by rewrite Hq. Qed.

(** [if (c) close(fd);]: what it leaves of the process. *)
Lemma when_close_frame {O} T0 (c : bool) (fd : Z) (o : O) (p : proc) :
  ∃ p', when c (close fd) (o, p) = (Return (), (o, p'))
        ∧ p_reads p' = p_reads p ∧ p_files p' = p_files p
        ∧ (no_wait T0 p → no_wait T0 p')
        ∧ ∀ k, p_fds p' !! k = if c && bool_decide (k = fd) then None else p_fds p !! k.
Proof.
  destruct c; [|by exists p]. cbn [when andb].
  destruct (p_fds p !! fd) as [d|] eqn:Hd.
  - rewrite (close_run o fd d p Hd). eexists. split; [done|]. split; [done|].
    split; [done|].
    split; [by apply no_wait_emit with (ev := SysClose fd 0)|].
    intros k. simpl. case_bool_decide as Hk.
    + subst k. apply lookup_delete_eq.
    + by apply lookup_delete_ne.
  - rewrite (close_closed o fd p Hd). eexists. split; [done|]. split; [done|].
    split; [done|].
    split; [by apply no_wait_emit with (ev := SysClose fd (-1))|].
    intros k. simpl. case_bool_decide as Hk; [by subst k | done].
Qed.

Lemma close_child_fds_frame T0 (o : Popen) (p : proc) :
  ∃ p', on_stream close_child_fds (o, p) = (Return (), (o, p'))
        ∧ p_reads p' = p_reads p ∧ p_files p' = p_files p
        ∧ (no_wait T0 p → no_wait T0 p')
        ∧ ∀ k, p_fds p' !! k = if bool_decide (k ∈ child_side_fds (stream_ o)) then None
                               else p_fds p !! k.
Proof.
  set (st := stream_ o).
  destruct (when_close_frame T0 (bool_decide (write_to_parent_ st ≠ -1))
              (write_to_parent_ st) st p) as (p1 & Hrun1 & Hr1 & Hfl1 & Hw1 & Hf1).
  destruct (when_close_frame T0 (bool_decide (read_from_parent_ st ≠ -1))
              (read_from_parent_ st) st p1) as (p2 & Hrun2 & Hr2 & Hfl2 & Hw2 & Hf2).
  destruct (when_close_frame T0 (bool_decide (err_write_ st ≠ -1))
              (err_write_ st) st p2) as (p3 & Hrun3 & Hr3 & Hfl3 & Hw3 & Hf3).
  exists p3. split; [|split; [|split; [|split; [by auto|]]]].
  - unfold on_stream, within, close_child_fds. fold st.
    erewrite bind_run by reflexivity. cbn [fst].
    erewrite bind_run by exact Hrun1. erewrite bind_run by exact Hrun2.
    rewrite Hrun3. subst st. by destruct o.
  - by rewrite Hr3, Hr2, Hr1.
  - by rewrite Hfl3, Hfl2, Hfl1.
  - intros k. rewrite Hf3, Hf2, Hf1. unfold child_side_fds, if_set. fold st.
    repeat case_bool_decide; simpl; try done; set_solver.
Qed.

Lemma read_atmost_n_eof fd d buf n reads p :
  p_fds p !! fd = Some d →
  p_reads p = RdData [] :: reads →
  util.read_atmost_n fd buf n p
  = (Return (0, buf), emit (SysRead fd n 0) (set_reads reads p)).
Proof.
  intros Hd Hr. unfold util.read_atmost_n. erewrite bind_run by reflexivity.
  rewrite Hr. by apply (read_loop_eof fd d).
Qed.

Lemma empty_err_buf : c_string_of (replicate SP_MAX_ERR_BUF_SIZ Ascii.zero) = Some "".
Proof. reflexivity. Qed.

Lemma stdio_events_no_wait (l : list syscall) :
  Forall stdio_event l → waitpid_results l = [].
Proof.
  induction 1 as [|ev l Hev _ IH]; [done|]. simpl. rewrite IH. by destruct ev.
Qed.

(** The parent's side of a launch whose child reports nothing. *)
Lemma parent_after_fork_success (o : Popen) (p : proc) (rd wr : Z) (dr dw : fdesc)
    (reads : list read_result) (T0 : list syscall) :
  p_fds p !! rd = Some dr → p_fds p !! wr = Some dw → rd ≠ wr →
  rd ∉ child_side_fds (stream_ o) →
  p_reads p = RdData [] :: reads →
  sound_handles (stream_ o) p →
  no_wait T0 p →
  ∃ s' p', parent_after_fork rd wr (o, p) = (Return (), (set_stream_ s' o, p'))
           ∧ fd_slots s' = fd_slots (stream_ o)
           ∧ (∀ fd, fd ∈ rd :: wr :: child_side_fds (stream_ o) → p_fds p' !! fd = None)
           ∧ no_wait T0 p'.
Proof.
  intros Hrd Hwr Hne Hnot Hreads Hsound Hw0. unfold parent_after_fork. cbv zeta.
  set (buf0 := replicate SP_MAX_ERR_BUF_SIZ Ascii.zero).
  erewrite bind_run by (eapply close_run, Hwr).
  set (p2 := emit (SysClose wr 0) (set_fds (delete wr) p)).
  destruct (close_child_fds_frame T0 o p2) as (p3 & Hrun3 & Hr3 & Hfl3 & Hw3 & Hf3).
  erewrite bind_run by exact Hrun3.
  assert (Hrd3 : p_fds p3 !! rd = Some dr).
  { rewrite Hf3, bool_decide_false by done. simpl. by rewrite lookup_delete_ne. }
  set (p4 := emit (SysRead rd SP_MAX_ERR_BUF_SIZ 0) (set_reads reads p3)).
  set (p5 := emit (SysClose rd 0) (set_fds (delete rd) p4)).
  assert (Hw5 : no_wait T0 p5).
  { apply (no_wait_emit T0 p4 p5 (SysClose rd 0)); [done | done |].
    apply (no_wait_emit T0 p3 p4 (SysRead rd SP_MAX_ERR_BUF_SIZ 0)); [done | done |].
    apply Hw3. by apply (no_wait_emit T0 p p2 (SysClose wr 0)). }
  assert (Hf5 : ∀ fd, fd ∈ rd :: wr :: child_side_fds (stream_ o) → p_fds p5 !! fd = None).
  { intros fd Hfd. simpl. destruct (decide (fd = rd)) as [->|Hfr]; [apply lookup_delete_eq|].
    rewrite lookup_delete_ne by done. rewrite Hf3. case_bool_decide as Hin; [done|].
    simpl. destruct (decide (fd = wr)) as [->|Hfw]; [apply lookup_delete_eq|].
    set_solver. }
  unfold mbind at 1, M_bind at 1. unfold try_catch.
  erewrite bind_run
    by (apply sys_run, (read_atmost_n_eof rd dr); [exact Hrd3 | by rewrite Hr3]).
  cbn beta iota. fold p4.
  erewrite bind_run by (eapply close_run; exact Hrd3).
  fold p5. rewrite bool_decide_true by done. cbn [negb]. subst buf0.
  rewrite empty_err_buf. cbn [String.length negb].
  rewrite bool_decide_true by done. cbn [negb mret M_ret].
  assert (Hsound5 : sound_handles (stream_ o) p5).
  { apply (sound_handles_files _ p); [|exact Hsound]. simpl. exact Hfl3. }
  destruct (setup_comm_channels_closes (stream_ o) p5 Hsound5)
    as (s' & p' & evs' & Hrun & Hslots & Htr' & Hstdio & _ & Hclosed).
  unfold on_stream, within. rewrite Hrun.
  exists s', p'. split; [done|]. split; [done|]. split.
  - intros fd Hfd. by apply Hclosed, Hf5.
  - destruct Hw5 as (evs & Htr & Hnw). exists (evs ++ evs'). split.
    + by rewrite Htr', Htr, app_assoc.
    + unfold waitpid_results in *. rewrite omap_app, Hnw.
      by apply stdio_events_no_wait.
Qed.

(** The child's ends that are set are open descriptors. *)
Definition child_ends_open (o : Popen) (p : proc) : Prop :=
  ∀ fd, fd ∈ child_side_fds (stream_ o) → is_Some (p_fds p !! fd).

(** X22.  A launch succeeds when the error pipe is at end of data at the
    first read (the child's [execvp] has closed its write end).  Then,
    on sound handles, [execute_process] returns in the parent without
    waiting for the child, [pid()] is what [fork] returned, the
    executable name is resolved, no slot has changed, and both ends of
    the error pipe and the child's ends are closed in the parent.  (A
    handle that owns a null pointer, or a stream that is no more,
    makes the [reset] of [setup_comm_channels] undefined.) *)
Theorem successful_launch_returns_with_the_pid
    (o : Popen) (p : proc) (rd wr child : Z) (forks : list Z) (reads : list read_result) :
  pipe_room p rd wr →
  exe_name_ o ≠ "" ∨ vargs_ o ≠ [] →
  p_fork p = child :: forks →
  0 < child →
  p_reads p = RdData [] :: reads →
  child_ends_open o p →
  sound_handles (stream_ o) p →
  let r := execute_process (o, p) in
  r.1 = Return ()
  ∧ pid r.2.1 = child
  ∧ exe_name_ r.2.1 = exe_name_ (resolve_exe_name o)
  ∧ fd_slots (stream_ r.2.1) = fd_slots (stream_ o)
  ∧ (∀ fd, fd ∈ rd :: wr :: child_side_fds (stream_ o) → p_fds r.2.2 !! fd = None)
  ∧ waitpid_results (new_events p r.2.2) = [].
Proof.
  intros Hroom Hexe Hfork Hpid Hreads Hopen Hsound r. subst r.
  pose proof (pipe_room_fresh p rd wr Hroom) as (Hrd & Hwr & Hne).
  assert (Hnot : rd ∉ child_side_fds (stream_ o)).
  { intros Hin. apply Hopen in Hin. rewrite Hrd in Hin. by destruct Hin. }
  unfold execute_process, exception_spec.
  erewrite bind_run by (apply sys_run, pipe_cloexec_run, Hroom).
  cbn beta iota. erewrite bind_run by reflexivity.
  erewrite bind_run by (apply resolve_exe_name_run, Hexe).
  erewrite bind_run by (apply sys_run, (sys_fork_run _ child forks); [exact Hfork | lia]).
  erewrite bind_run by reflexivity.
  rewrite bool_decide_false by lia. rewrite bool_decide_false by lia.
  set (o1 := set_child_pid_ child (resolve_exe_name o)).
  set (p1 := emit (SysFork child) (set_fork forks (after_pipe_cloexec p rd wr))).
  assert (Hst1 : stream_ o1 = stream_ o).
  { subst o1. unfold resolve_exe_name. by repeat case_match. }
  destruct (parent_after_fork_success o1 p1 rd wr
              (FDesc (PipeRd (p_npipes p)) true) (FDesc (PipeWr (p_npipes p)) true)
              reads (p_trace p))
    as (s' & p' & Hrun & Hslots & Hclosed & evs & Htr & Hnw).
  - simpl. unfold with_pipe. by rewrite lookup_insert_ne, lookup_insert_eq.
  - simpl. unfold with_pipe. by rewrite lookup_insert_eq.
  - done.
  - by rewrite Hst1.
  - exact Hreads.
  - rewrite Hst1. by apply (sound_handles_files _ p).
  - exists (pipe_cloexec_events rd wr ++ [SysFork child]). split; [|done].
    simpl. by rewrite <- app_assoc.
  - rewrite Hrun. simpl. rewrite Hst1 in Hslots, Hclosed.
    split; [done|]. split; [done|]. split; [done|]. split; [done|]. split; [done|].
    unfold new_events. by rewrite Htr, drop_app_length.
Qed.

(** * What reaches the caller *)

(** The [OSError]s of the launch itself. *)
Definition launch_steps : list string := ["pipe failure"; "fork failed"].

Definition launch_ending (x : abnormal) : Prop :=
  match x with
  | ARaise e => ∃ step errno, step ∈ launch_steps ∧ e = mkOSError step errno
  | AStop _ => True
  end.

Lemma calm_sys_pipe : calm sys_pipe.
Proof. unfold sys_pipe. calm_prim. Qed.

Lemma calm_sys_fork : calm sys_fork.
Proof. unfold sys_fork. calm_prim. Qed.

(** How the body of [execute_process] can end, before the exception
    specification is applied. *)
Definition body_ending (x : abnormal) : Prop :=
  match x with
  | ARaise e => e = StdException ∨ launch_ending (ARaise e)
  | AStop _ => True
  end.

Lemma launch_throws step e :
  step ∈ launch_steps → body_ending (ARaise (mkOSError step e)).
Proof. intros Hs. right. by exists step, e. Qed.

Lemma ends_pipe_cloexec : ends_in body_ending util.pipe_cloexec.
Proof.
  unfold util.pipe_cloexec.
  apply ends_in_bind; [apply ends_in_calm, calm_sys_pipe|]. intros [[res rd] wr].
  apply ends_in_if.
  - apply ends_in_bind; [apply ends_in_calm, calm_gets|]. intros e.
    apply ends_in_throw, launch_throws. set_solver.
  - apply ends_in_calm.
    apply calm_bind; [apply calm_set_clo_on_exec|]. intros _.
    apply calm_bind; [apply calm_set_clo_on_exec|]. intros _. apply calm_ret.
Qed.

Lemma execute_process_ends : ends_in launch_ending execute_process.
Proof.
  unfold execute_process.
  eapply hoare_exception_spec with (Eb := λ x _, body_ending x).
  - apply ends_in_bind; [apply ends_in_sys, ends_pipe_cloexec|]. intros [rd wr].
    apply ends_in_bind; [apply ends_in_calm, calm_gets|]. intros o.
    apply ends_in_bind.
    { apply ends_in_if; [|apply ends_in_calm, calm_ret].
      destruct (vargs_ o); [by apply hoare_halt | apply ends_in_calm, calm_modify]. }
    intros _. apply ends_in_bind; [apply ends_in_calm, calm_sys, calm_sys_fork|].
    intros cpid. apply ends_in_bind; [apply ends_in_calm, calm_modify|]. intros _.
    apply ends_in_if; [|apply ends_in_if].
    + unfold fork_failed, errno.
      apply ends_in_bind; [apply ends_in_calm, calm_close|]. intros _.
      apply ends_in_bind; [apply ends_in_calm, calm_close|]. intros _.
      apply ends_in_bind; [apply ends_in_calm, calm_sys, calm_gets|]. intros e.
      apply ends_in_throw, launch_throws. set_solver.
    + apply ends_in_bind;
        [apply ends_in_calm, (calm_within stream_ set_stream_ _ calm_close_parent_fds)|].
      intros _. apply ends_in_bind; [apply ends_in_calm, calm_close|]. intros _.
      eapply hoare_conseq; [apply execute_child_ends | done | done |].
      intros x s [[img ->]|[-> _]]; done.
    + intros s _.
      pose proof (parent_after_fork_throws_only_std_exception rd wr s) as H.
      destruct (parent_after_fork rd wr s) as [[[]|e|x] s']; simpl; [done | | done].
      left. by apply H.
  - intros e s Hall [->|H]; [discriminate Hall | exact H].
  - done.
  - done.
Qed.

(** X23.  The only exceptions [execute_process] lets out are the [OSError]s
    "pipe failure" and "fork failed".  No [CalledProcessError] ever
    reaches the caller: whatever the parent's [try] block throws is
    rethrown as a plain [std::exception], against the exception
    specification. *)
Theorem execute_process_raises_only_pipe_and_fork_errors
    (s : Popen * proc) (e : exn) :
  (execute_process s).1 = Raise e →
  ∃ step errno, step ∈ launch_steps ∧ e = mkOSError step errno.
Proof.
  intros Hrun. pose proof (execute_process_ends s Logic.I) as H.
  rewrite Hrun in H. exact H.
Qed.

Lemma execute_process_raises_only_pipe_and_fork_errors_witness :
  ∃ step errno, step ∈ launch_steps
                ∧ OSError "fork failed : Resource temporarily unavailable"
                  = mkOSError step errno.
Proof.
  apply (execute_process_raises_only_pipe_and_fork_errors (ls_launcher, no_more_processes)).
  vm_compute. reflexivity.
Defined.

(** * The program the child runs *)

(** A vector with no null entry is read to its end, and on. *)
Lemma until_null_all_set (tokens : list string) (past : option (list string)) :
  until_null (Some <$> tokens) past = (tokens ++.) <$> past.
Proof.
  induction tokens as [|t tokens IH]; [by destruct past|].
  change (until_null (Some <$> t :: tokens) past)
    with (cons t <$> until_null (Some <$> tokens) past).
  rewrite IH. by destruct past.
Qed.

Section program.
Context (exe : string) (V : list string) (C : list char_ptr) (h : host).

Definition configured (o : Popen) : Prop :=
  exe_name_ o = exe ∧ vargs_ o = V ∧ cargv_ o = C.

Definition on_host (p : proc) : Prop := p_host p = h.

(** The image is the configured program, found on the host; its
    arguments are what [execvp] reads from the start of the vector up
    to the first null pointer. *)
Definition runs_program (x : abnormal) : Prop :=
  match x with
  | AStop (Replaced img) =>
      img_file img = c_str exe ∧ c_str exe ∈ programs h
      ∧ until_null (deref V <$> C) (past_argv h) = Some (img_argv img)
  | _ => True
  end.

Lemma on_host_stable : stable on_host (λ _, True).
Proof. by split. Qed.

Lemma replace_image_program :
  hoare (Inv configured on_host) Child.replace_image (λ _ _, True)
    (λ x _, runs_program x).
Proof.
  intros [o p] [(He & HV & HC) Hh]. simpl in He, HV, HC, Hh.
  assert (Hexec : ∀ p', p_host p' = h →
            match ending (((sys (sys_execvp (c_str exe) (deref V <$> C))
                     ≫= (λ sys_ret : Z,
                           if bool_decide (sys_ret = -1)
                           then e ← errno; throw (mkOSError "execve failed" e)
                           else mret ())) (o, p')).1) with
            | inl _ => True
            | inr x => runs_program x
            end).
  { intros p' Hp'.
    unfold mbind, M_bind, sys, sys_execvp, fails, errno, gets, throw, mret, M_ret.
    rewrite Hp'. case_bool_decide as Hprog; [|done].
    by destruct (until_null _ _) eqn:Hargs. }
  unfold Child.replace_image. erewrite bind_run by reflexivity. cbn [fst].
  rewrite He, HV, HC.
  destruct (negb (bool_decide (size (env_ o) = 0%nat))).
  - destruct (for_each_setenv_fds (map_items (env_ o)) o p) as (p' & Hrun & _ & Hh' & _).
    unfold mbind at 1, M_bind at 1. unfold mbind at 1, M_bind at 1. rewrite Hrun.
    apply (Hexec p'). by rewrite Hh'.
  - by apply Hexec.
Qed.

Lemma execute_child_program (w : Z) :
  hoare (Inv configured on_host) (Child.execute_child w) (λ _ _, True)
    (λ x _, runs_program x).
Proof.
  assert (HK : ∀ s o, configured o → configured (set_stream_ s o)) by done.
  assert (Hpre : ∀ A (step : Obj Popen A),
            keeps (Inv configured on_host) step → quiet step →
            hoare (Inv configured on_host) step (λ _, Inv configured on_host)
              (λ x _, runs_program x)).
  { intros A step Hk Hq. eapply hoare_conseq;
      [apply (hoare_keeps_quiet _ _ Hk Hq) | intros ? HP; exact HP
      | intros ? ? HQ; exact HQ | ].
    by intros [e|x] _ Hx. }
  unfold Child.execute_child.
  eapply hoare_bind with (Qm := λ _ _, True).
  - eapply hoare_try_catch with (Eb := λ x _, runs_program x).
    + eapply hoare_bind;
        [apply Hpre; [by apply (keeps_redup_low_fds configured on_host (λ _, True)
                                  on_host_stable)
                     | apply quiet_redup_low_fds]|].
      intros []. eapply hoare_bind;
        [apply Hpre; [by apply (keeps_create_std_streams configured on_host (λ _, True)
                                  on_host_stable)
                     | apply quiet_create_std_streams]|].
      intros []. eapply hoare_bind;
        [apply Hpre; [by apply (keeps_close_inherited_fds configured on_host (λ _, True)
                                  on_host_stable)
                     | apply quiet_close_inherited_fds]|].
      intros []. eapply hoare_bind;
        [apply Hpre; [by apply (keeps_change_directory configured on_host (λ _, True)
                                  on_host_stable)
                     | apply quiet_change_directory]|].
      intros []. apply replace_image_program.
    + intros e _. eapply hoare_conseq with (P' := λ _, True) (Q' := λ _ _, True)
                    (E' := λ x _, raises x); [| done | done |].
      * apply quiet_bind; [apply quiet_sys, quiet_write_n | intros; apply quiet_ret].
      * by intros [e'|x] _ Hx.
    + done.
    + done.
  - intros []. apply hoare_sys. intros o. by apply hoare_halt.
Qed.

End program.

(** X24.  The program that replaces the child is the one [exe_name_] names
    (up to its first NUL; [execute_process] has set it to the first
    token when no [executable] option was given), found by [execvp] on
    the host.  Its arguments are what [execvp] reads in the argument
    vector up to the first null pointer: [populate_c_argv] stores
    none, so they are the tokens followed by whatever strings lie past
    the vector's end (with an [executable] option [argv[0]] is still
    the first token). *)
Theorem image_is_the_named_program
    (err_wr_pipe_ : Z) (o : Popen) (p : proc) (img : image) :
  (Child.execute_child err_wr_pipe_ (o, p)).1 = Stop (Replaced img) →
  img_file img = c_str (exe_name_ o)
  ∧ c_str (exe_name_ o) ∈ programs (p_host p)
  ∧ until_null (deref (vargs_ o) <$> cargv_ o) (past_argv (p_host p))
    = Some (img_argv img)
  ∧ (∀ tokens, deref (vargs_ o) <$> cargv_ o = Some <$> tokens →
       ∃ beyond, past_argv (p_host p) = Some beyond
                 ∧ img_argv img = tokens ++ beyond).
Proof.
  intros Hrun.
  pose proof (execute_child_program (exe_name_ o) (vargs_ o) (cargv_ o) (p_host p)
                err_wr_pipe_ (o, p)) as H.
  rewrite Hrun in H. destruct H as (Hfile & Hprog & Hargv); [by split|].
  split; [done|]. split; [done|]. split; [done|].
  intros tokens Htok. rewrite Htok, until_null_all_set in Hargv.
  destruct (past_argv (p_host p)) as [beyond|]; [|done].
  exists beyond. split; [done|]. by injection Hargv.
Qed.

(** A child that is to run [ls -l] in [/tmp] with [close_fds(true)];
    the error pipe's write end is 4, and 5 is a file the parent had
    open. *)
Definition tmp_child : Popen :=
  MkPopen Streams_init false true "ls" "/tmp" ∅ "" ["ls"; "-l"]
          [Some 0%nat; Some 1%nat] 0.

Definition tmp_child_proc : proc :=
  Proc (Host 16 16 ∅ ∅ {["/tmp"]} {["ls"]} ∅ (Some []))
       {[0 := FDesc Tty false; 1 := FDesc Tty false; 2 := FDesc Tty false;
         4 := FDesc (PipeWr 0) true; 5 := FDesc (RegFile "/etc/motd") false]}
       ENONE ∅ "/" 1 ∅ [] [] [] [].

Definition tmp_child_image : image :=
  default (Image "" [] ∅ ∅) (image_of (Child.execute_child 4 (tmp_child, tmp_child_proc)).1).

Lemma image_is_the_named_program_witness :
  img_file tmp_child_image = c_str (exe_name_ tmp_child)
  ∧ c_str (exe_name_ tmp_child) ∈ programs (p_host tmp_child_proc)
  ∧ until_null (deref (vargs_ tmp_child) <$> cargv_ tmp_child)
      (past_argv (p_host tmp_child_proc))
    = Some (img_argv tmp_child_image)
  ∧ (∀ tokens, deref (vargs_ tmp_child) <$> cargv_ tmp_child = Some <$> tokens →
       ∃ beyond, past_argv (p_host tmp_child_proc) = Some beyond
                 ∧ img_argv tmp_child_image = tokens ++ beyond).
Proof.
  apply (image_is_the_named_program 4 tmp_child tmp_child_proc tmp_child_image).
  vm_compute. reflexivity.
Defined.

(** The same child when the word past the vector's end points to the
    string [-R] and the next one is null: [ls] is run with [-l -R]. *)
Definition tmp_child_stray : proc :=
  Proc (Host 16 16 ∅ ∅ {["/tmp"]} {["ls"]} ∅ (Some ["-R"]))
       (p_fds tmp_child_proc) ENONE ∅ "/" 1 ∅ [] [] [] [].

Lemma stray_pointers_become_arguments :
  img_argv <$> image_of (Child.execute_child 4 (tmp_child, tmp_child_stray)).1
  = Some ["ls"; "-l"; "-R"].
Proof. vm_compute. reflexivity. Qed.

(** And when the memory past the vector's end cannot be read, no
    program is run: the child reports the failure of [execvp] on the
    error pipe and exits. *)
Definition tmp_child_fault : proc :=
  Proc (Host 16 16 ∅ ∅ {["/tmp"]} {["ls"]} ∅ None)
       (p_fds tmp_child_proc) ENONE ∅ "/" 1 ∅ [] [] [] [].

Lemma unreadable_memory_fails_the_launch :
  let r := Child.execute_child 4 (tmp_child, tmp_child_fault) in
  r.1 = Stop (Exited 1)
  ∧ last (p_trace r.2.2)
    = Some (SysWriteFd 4 "execve failed : Bad address" 27).
Proof. vm_compute. split; reflexivity. Qed.

Lemma image_starts_in_the_configured_directory_witness :
  let r := Child.execute_child 4 (tmp_child, tmp_child_proc) in
  if bool_decide (String.length (cwd_ tmp_child) = 0%nat)
  then p_cwd r.2.2 = p_cwd tmp_child_proc
  else p_cwd r.2.2 = c_str (cwd_ tmp_child)
       ∧ c_str (cwd_ tmp_child) ∈ directories (p_host tmp_child_proc).
Proof.
  apply (image_starts_in_the_configured_directory 4 tmp_child tmp_child_proc tmp_child_image).
  vm_compute. reflexivity.
Defined.

Lemma close_fds_leaves_the_image_the_standard_descriptors_witness :
  map_Forall (λ fd _, 0 ≤ fd ≤ 2) (img_fds tmp_child_image).
Proof.
  apply (close_fds_leaves_the_image_the_standard_descriptors 4 tmp_child tmp_child_proc).
  - reflexivity.
  - lia.
  - eexists. split; reflexivity.
  - assert (H : map_Forall (λ fd _, 0 ≤ fd < Z.of_nat (rlimit_nofile (p_host tmp_child_proc)))
                  (p_fds tmp_child_proc))
      by (refine (bool_decide_unpack _ _); vm_compute; exact I).
    intros fd d Hd. exact (H fd d Hd).
  - vm_compute. discriminate.
  - vm_compute. reflexivity.
Defined.

(** A parent whose child starts its program: [fork] returns 1234 and
    the error pipe is at end of data. *)
Definition parent_of_started_child : proc :=
  Proc (Host 16 16 ∅ ∅ ∅ {["ls"]} ∅ (Some []))
       {[0 := FDesc Tty false; 1 := FDesc Tty false; 2 := FDesc Tty false]}
       ENONE ∅ "/" 0 ∅ [1234] [RdData []] [] [].

Lemma successful_launch_returns_with_the_pid_witness :
  let r := execute_process (ls_launcher, parent_of_started_child) in
  r.1 = Return ()
  ∧ pid r.2.1 = 1234
  ∧ exe_name_ r.2.1 = exe_name_ (resolve_exe_name ls_launcher)
  ∧ fd_slots (stream_ r.2.1) = fd_slots (stream_ ls_launcher)
  ∧ (∀ fd, fd ∈ 3 :: 4 :: child_side_fds (stream_ ls_launcher) → p_fds r.2.2 !! fd = None)
  ∧ waitpid_results (new_events parent_of_started_child r.2.2) = [].
Proof.
  apply (successful_launch_returns_with_the_pid ls_launcher parent_of_started_child
           3 4 1234 [] []).
  - split; vm_compute; reflexivity.
  - right. discriminate.
  - reflexivity.
  - lia.
  - reflexivity.
  - intros fd Hfd. vm_compute in Hfd. by apply elem_of_nil in Hfd.
  - split.
    + by intros [].
    + intros r r' b _ Hr. by destruct r.
Defined.

(** Without sound handles the launch is undefined.  Here the stdout
    handle owns the null pointer that [fdopen] returned when it failed
    in an earlier launch: the [reset] of [setup_comm_channels] hands
    it to [fclose]. *)
Definition null_handle_launcher : Popen :=
  MkPopen (MkStreams None (Some None) None 0 (-1) (-1) 4 3 (-1) (-1))
          false false "" "" ∅ "" ["ls"] [Some 0%nat] (-1).

Definition null_handle_parent : proc :=
  Proc (Host 16 16 ∅ ∅ ∅ {["ls"]} ∅ (Some []))
       {[0 := FDesc Tty false; 1 := FDesc Tty false; 2 := FDesc Tty false;
         3 := FDesc (PipeRd 0) true; 4 := FDesc (PipeWr 0) true]}
       ENONE ∅ "/" 1 ∅ [1234] [RdData []] [] [].

Lemma null_handle_makes_the_launch_undefined :
  pipe_room null_handle_parent 5 6
  ∧ p_fork null_handle_parent = [1234]
  ∧ p_reads null_handle_parent = [RdData []]
  ∧ child_ends_open null_handle_launcher null_handle_parent
  ∧ ¬ sound_handles (stream_ null_handle_launcher) null_handle_parent
  ∧ (execute_process (null_handle_launcher, null_handle_parent)).1 = Stop Undefined.
Proof.
  split; [split; vm_compute; reflexivity|]. split; [done|]. split; [done|].
  split; [|split; [|vm_compute; reflexivity]].
  - intros fd Hfd. change (child_side_fds _) with [4] in Hfd.
    apply list_elem_of_singleton in Hfd as ->. by eexists.
  - intros [Hok _]. by specialize (Hok ForOutput).
Qed.

(** * What the child closes first *)

Lemma keeps_trace_prefix_execute_child (T1 : list syscall) (w : Z) :
  keeps (Inv (λ _ : Popen, True) (emitted (λ _, True) T1)) (Child.execute_child w).
Proof.
  apply (keeps_execute_child (λ _, True) (emitted (λ _, True) T1) (λ _, True));
    try done.
  apply emitted_stable.
Qed.

(** The event is a call of [close] on [fd]. *)
Definition closes_fd (ev : syscall) (fd : Z) : Prop :=
  ∃ res, ev = SysClose fd res.

(** Since the trace was [T0], the process has called [close] on the
    descriptors [C], in this order, and has made no other system
    call. *)
Definition only_closed (T0 : list syscall) (C : list Z) (p : proc) : Prop :=
  ∃ evs, p_trace p = T0 ++ evs ∧ Forall2 closes_fd evs C.

Lemma only_closed_refl p : only_closed (p_trace p) [] p.
Proof. exists []. rewrite app_nil_r. split; [done|constructor]. Qed.

(** [if (c) close(fd);] *)
Lemma when_close_only_closed {O} (o : O) T0 C (c : bool) fd p :
  only_closed T0 C p →
  ∃ p', when c (close fd) (o, p) = (Return (), (o, p'))
        ∧ only_closed T0 (C ++ if c then [fd] else []) p'.
Proof.
  intros (evs & Htr & Hevs). destruct c; cbn [when].
  - destruct (p_fds p !! fd) as [d|] eqn:Hd.
    + rewrite (close_run o fd d p Hd). eexists. split; [done|].
      exists (evs ++ [SysClose fd 0]). split.
      * simpl. by rewrite Htr, app_assoc.
      * apply Forall2_app; [done|]. repeat constructor. by exists 0.
    + rewrite (close_closed o fd p Hd). eexists. split; [done|].
      exists (evs ++ [SysClose fd (-1)]). split.
      * simpl. by rewrite Htr, app_assoc.
      * apply Forall2_app; [done|]. repeat constructor. by exists (-1).
  - exists p. split; [done|]. rewrite app_nil_r. by exists evs.
Qed.

Lemma close_parent_fds_only_closed (o : Popen) T0 C p :
  only_closed T0 C p →
  ∃ p', on_stream close_parent_fds (o, p) = (Return (), (o, p'))
        ∧ only_closed T0 (C ++ parent_side_fds (stream_ o)) p'.
Proof.
  intros H0. set (st := stream_ o).
  destruct (when_close_only_closed st T0 C (bool_decide (write_to_child_ st ≠ -1))
              (write_to_child_ st) p H0) as (p1 & Hrun1 & H1).
  destruct (when_close_only_closed st T0 _ (bool_decide (read_from_child_ st ≠ -1))
              (read_from_child_ st) p1 H1) as (p2 & Hrun2 & H2).
  destruct (when_close_only_closed st T0 _ (bool_decide (err_read_ st ≠ -1))
              (err_read_ st) p2 H2) as (p3 & Hrun3 & H3).
  exists p3. split.
  - unfold on_stream, within, close_parent_fds. fold st.
    erewrite bind_run by reflexivity. cbn [fst].
    erewrite bind_run by exact Hrun1. erewrite bind_run by exact Hrun2.
    rewrite Hrun3. subst st. by destruct o.
  - unfold parent_side_fds, if_set. fold st. by rewrite <- !app_assoc in H3.
Qed.

(** X25.  In the child, the first thing [execute_process] does after
    [fork] is to close the parent's ends that are set, in the order
    stdin, stdout, stderr, and then the read end of the error pipe:
    these calls of [close] follow [fork] at once, before any
    descriptor is duplicated or has its flags changed. *)
Theorem child_closes_the_parent_ends_first
    (o : Popen) (p : proc) (rd wr : Z) (forks : list Z) :
  pipe_room p rd wr →
  p_fork p = 0 :: forks →
  exe_name_ o ≠ "" ∨ vargs_ o ≠ [] →
  let r := execute_process (o, p) in
  ∃ closes later,
    new_events p r.2.2 = pipe_cloexec_events rd wr ++ SysFork 0 :: closes ++ later
    ∧ Forall2 closes_fd closes (parent_side_fds (stream_ o) ++ [rd]).
Proof.
  intros Hroom Hfork Hexe r. subst r.
  unfold execute_process, exception_spec.
  erewrite bind_run by (apply sys_run, pipe_cloexec_run, Hroom).
  cbn beta iota. erewrite bind_run by reflexivity.
  erewrite bind_run by (apply resolve_exe_name_run, Hexe).
  erewrite bind_run by (apply sys_run, (sys_fork_run _ 0 forks); [exact Hfork | lia]).
  erewrite bind_run by reflexivity.
  rewrite bool_decide_false by lia. rewrite bool_decide_true by done.
  set (o1 := set_child_pid_ 0 (resolve_exe_name o)).
  set (p1 := emit (SysFork 0) (set_fork forks (after_pipe_cloexec p rd wr))).
  assert (Hst1 : stream_ o1 = stream_ o).
  { subst o1. unfold resolve_exe_name. by repeat case_match. }
  rewrite <- Hst1.
  destruct (close_parent_fds_only_closed o1 (p_trace p1) [] p1 (only_closed_refl p1))
    as (p2 & Hrun2 & H2).
  destruct (when_close_only_closed o1 (p_trace p1) _ true rd p2 H2)
    as (p3 & Hrun3 & (closes & Htr3 & Hcloses)).
  cbn [when] in Hrun3. cbn [app] in Hcloses.
  erewrite bind_run by exact Hrun2. erewrite bind_run by exact Hrun3.
  pose proof (keeps_trace_prefix_execute_child (p_trace p3) wr (o1, p3)
                (conj Logic.I (emitted_refl _ p3))) as Hchild.
  destruct (Child.execute_child wr (o1, p3)) as [res s].
  assert (Hs : ∃ later, p_trace s.2 = p_trace p3 ++ later).
  { destruct res; destruct Hchild as [_ (later & Hl & _)]; by exists later. }
  destruct Hs as [later Hlater]. exists closes, later. split; [|exact Hcloses].
  assert (Hstate : ∀ x : outcome () * (Popen * proc), x.2 = s →
            new_events p x.2.2
            = pipe_cloexec_events rd wr ++ SysFork 0 :: closes ++ later).
  { intros x ->. unfold new_events. rewrite Hlater, Htr3. subst p1. simpl p_trace.
    rewrite <- !app_assoc. by rewrite drop_app_length. }
  apply Hstate. destruct res as [a|e|x]; try done.
  by destruct (CalledProcessError_or_OSError e).
Qed.

(** A launcher whose three streams are pipes, (3, 4) for stdin, (5, 6)
    for stdout and (7, 8) for stderr, in the child of its launch. *)
Definition three_pipes_launcher : Popen :=
  MkPopen (MkStreams None None None 0 4 3 6 5 8 7)
          false false "" "" ∅ "" ["ls"] [Some 0%nat] (-1).

Definition three_pipes_child : proc :=
  Proc (Host 16 16 ∅ ∅ ∅ {["ls"]} ∅ (Some []))
       {[0 := FDesc Tty false; 1 := FDesc Tty false; 2 := FDesc Tty false;
         3 := FDesc (PipeRd 0) true; 4 := FDesc (PipeWr 0) true;
         5 := FDesc (PipeRd 1) true; 6 := FDesc (PipeWr 1) true;
         7 := FDesc (PipeRd 2) true; 8 := FDesc (PipeWr 2) true]}
       ENONE ∅ "/" 3 ∅ [0] [] [] [].

Lemma child_closes_the_parent_ends_first_witness :
  let r := execute_process (three_pipes_launcher, three_pipes_child) in
  ∃ closes later,
    new_events three_pipes_child r.2.2
    = pipe_cloexec_events 9 10 ++ SysFork 0 :: closes ++ later
    ∧ Forall2 closes_fd closes (parent_side_fds (stream_ three_pipes_launcher) ++ [9]).
Proof.
  apply (child_closes_the_parent_ends_first three_pipes_launcher three_pipes_child
           9 10 []).
  - split; vm_compute; reflexivity.
  - reflexivity.
  - right. discriminate.
Defined.

(** In this child the parent's ends are 4, 5 and 7: they and the read
    end of the error pipe are closed before the child's ends are
    duplicated onto 0, 1 and 2. *)
Lemma three_pipes_child_trace :
  let r := execute_process (three_pipes_launcher, three_pipes_child) in
  parent_side_fds (stream_ three_pipes_launcher) = [4; 5; 7]
  ∧ take 8 (drop 5 (new_events three_pipes_child r.2.2))
    = [SysFork 0; SysClose 4 0; SysClose 5 0; SysClose 7 0; SysClose 9 0;
       SysDup2 3 0 0; SysDup2 6 1 1; SysDup2 8 2 2].
Proof. vm_compute. split; reflexivity. Qed.
